(** * LIBLR: a shallow embedding of the parser generator and its driver

    The development follows [LIBLR.py]: the grammar model ([Symbol],
    [Vector], [Production], [Grammar]), the grammar analyzer (ε flags,
    FIRST, mid-rule action lifting), the LR(1) and LALR constructors, the
    conflict solver, the lexer's literal interception and the push-down
    driver.  Python dictionaries whose iteration order is observable are
    association lists in insertion order; the others are [gmap]s.  Code that
    prints or raises runs in the monad [Py]: a log of printed lines threaded
    through, and either an exception or a value. *)

From Stdlib Require Import Ascii.
From stdpp Require Import base option list strings gmap pretty sorting.

Open Scope string_scope.
Open Scope list_scope.

(** ** Python effects: printed lines and exceptions *)

Inductive exn : Type :=
  | TypeError (msg : string)
  | KeyError (msg : string)
  | ValueError (msg : string)
  | AttributeError (msg : string)
  | AssertionError
  | IndexError
  | GrammarError (msg : string)
  | LexerError (msg : string).

Definition Py (A : Type) : Type := list string → (exn + A) * list string.

Global Instance Py_ret : MRet Py := λ A (a : A) log, (inr a, log).

Global Instance Py_bind : MBind Py := λ A B (f : A → Py B) (m : Py A) log,
  match m log with
  | (inl e, log') => (inl e, log')
  | (inr a, log') => f a log'
  end.

Definition raise {A : Type} (e : exn) : Py A := λ log, (inl e, log).

(** [print] joins its arguments with a blank and emits one line. *)
Definition print (line : string) : Py unit := λ log, (inr (), log ++ [line]).

(** [LOG_ERROR] prints its arguments after the word [error:]. *)
Definition LOG_ERROR (text : string) : Py unit := print ("error: " +:+ text).

(** The outcome of a computation started with an empty log. *)
Definition run_py {A : Type} (m : Py A) : (exn + A) * list string := m [].

(** ** Python string helpers *)

(** the double quote *)
Definition dquote : ascii := "034"%char.

Fixpoint join (sep : string) (l : list string) : string :=
  match l with
  | [] => ""
  | [x] => x
  | x :: l' => x +:+ sep +:+ join sep l'
  end.

Definition string_last (s : string) : option ascii :=
  last (String.list_ascii_of_string s).

Definition string_head (s : string) : option ascii :=
  match s with
  | EmptyString => None
  | String c _ => Some c
  end.

(** [s[1:-1]] *)
Definition strip_ends (s : string) : string :=
  match s with
  | EmptyString => ""
  | String _ r => String.string_of_list_ascii (removelast (String.list_ascii_of_string r))
  end.

(** *** Code points

    A Python [str] is a sequence of code points; it is represented by its
    UTF-8 encoding.  [code_points] cuts the bytes where a code point starts:
    a byte [10xxxxxx] continues the code point before it. *)
Definition is_continuation (c : ascii) : bool :=
  let n := nat_of_ascii c in (128 <=? n)%nat && (n <? 192)%nat.

Fixpoint code_points_list (l : list ascii) : list (list ascii) :=
  match l with
  | [] => []
  | c :: l' =>
      match code_points_list l' with
      | (d :: ch) :: rest =>
          if is_continuation d then (c :: d :: ch) :: rest
          else [c] :: (d :: ch) :: rest
      | acc => [c] :: acc
      end
  end.

Definition code_points (s : string) : list string :=
  String.string_of_list_ascii
    <$> code_points_list (String.list_ascii_of_string s).

(** [len(s)] *)
Definition py_len (s : string) : nat := length (code_points s).

(** the payload bits of the first byte of a code point *)
Definition lead_bits (c : ascii) : N :=
  let n := N_of_ascii c in
  if (n <? 128)%N then n
  else if (n <? 224)%N then (n mod 32)%N
  else if (n <? 240)%N then (n mod 16)%N
  else (n mod 8)%N.

(** [ord(ch)] of a one-character string *)
Definition py_ord (ch : string) : N :=
  match ch with
  | EmptyString => 0%N
  | String c r =>
      foldl (λ acc d, (acc * 64 + N_of_ascii d mod 64)%N) (lead_bits c)
        (String.list_ascii_of_string r)
  end.

(** the white space of [str.strip()]: [\t \n \v \f \r], the separators
    [\x1c..\x1f], the blank, and the Unicode spaces U+0085, U+00A0,
    U+1680, U+2000..U+200A, U+2028, U+2029, U+202F, U+205F and U+3000 *)
Definition py_isspace (cc : N) : bool :=
  ((9 <=? cc) && (cc <=? 13) || (28 <=? cc) && (cc <=? 32)
   || (cc =? 133) || (cc =? 160) || (cc =? 5760)
   || (8192 <=? cc) && (cc <=? 8202)
   || (cc =? 8232) || (cc =? 8233) || (cc =? 8239) || (cc =? 8287)
   || (cc =? 12288))%N.

Fixpoint lstrip_list (p : N → bool) (l : list string) : list string :=
  match l with
  | ch :: l' => if p (py_ord ch) then lstrip_list p l' else l
  | [] => []
  end.

(** [s.strip(chars)]: the code points that satisfy [p] are removed from
    both ends *)
Definition strip_with (p : N → bool) (s : string) : string :=
  join "" (rev (lstrip_list p (rev (lstrip_list p (code_points s))))).

(** [s.strip()] *)
Definition py_strip (s : string) : string := strip_with py_isspace s.

(** [s.strip('\r\n\t ')] *)
Definition py_strip_blank (s : string) : string :=
  strip_with (λ cc, (cc =? 13) || (cc =? 10) || (cc =? 9) || (cc =? 32))%N s.

Definition startswith_brace (s : string) : bool :=
  match string_head s with
  | Some c => bool_decide (c = "{"%char)
  | None => false
  end.

Definition endswith_brace (s : string) : bool :=
  match string_last s with
  | Some c => bool_decide (c = "}"%char)
  | None => false
  end.

(** ** [cstring] *)

Module cstring.

Definition hex_digit (n : nat) : ascii :=
    if (n <? 10)%nat then ascii_of_nat (48 + n) else ascii_of_nat (87 + n).

  (** the digits of [hex(cc)[2:]], at most [fuel] of them, in front of
      [acc] *)
Fixpoint hex_digits (fuel : nat) (cc : N) (acc : string) : string :=
    match fuel with
    | O => acc
    | S fuel' =>
        let acc := String (hex_digit (N.to_nat (cc mod 16))) acc in
        if (cc / 16 =? 0)%N then acc else hex_digits fuel' (cc / 16)%N acc
    end.

  (** [hex(cc)[2:]]: a code point of [n] bytes has fewer than [2 * n + 1]
      digits *)
Definition hex (ch : string) : string :=
    hex_digits (2 * String.length ch + 1) (py_ord ch) "".

  (** [nc.rjust(width, '0')] *)
Definition rjust0 (width : nat) (nc : string) : string :=
    String.string_of_list_ascii (replicate (width - String.length nc) "0"%char)
      +:+ nc.

  (** one character of [string_quote(text, escape_unicode)] *)
Definition quote_char (escape_unicode : bool) (ch : string) : string :=
    let cc := py_ord ch in
    if bool_decide (ch = "'") then "\'"
    else if (256 <=? cc)%N && escape_unicode
         then "\u" +:+ rjust0 4 (hex ch)
         else if ((128 <=? cc)%N && escape_unicode) || (cc <? 32)%N
              then "\x" +:+ rjust0 2 (hex ch)
              else ch.

Definition quote_body (escape_unicode : bool) (text : string) : string :=
    join "" (quote_char escape_unicode <$> code_points text) +:+ "'".

Definition string_quote (text : string) (escape_unicode : bool) : string :=
    "'" +:+ quote_body escape_unicode text.

Definition is_mark (c : ascii) : bool :=
    bool_decide (c = dquote) || bool_decide (c = "'"%char).

Definition string_is_quoted (text : string) : bool :=
    if (String.length text <? 2)%nat then false
    else match string_head text, string_last text with
         | Some mark, Some e => is_mark mark && bool_decide (e = mark)
         | _, _ => false
         end.

End cstring.

(** ** Symbols, vectors and productions *)

Record Symbol : Type := mkSymbol { name : string; term : bool }.

Global Instance Symbol_eq_dec : EqDecision Symbol.
Proof. solve_decision. Defined.

(** [Symbol.__eq__] compares names only. *)
Definition Symbol_eqb (a b : Symbol) : bool := bool_decide (name a = name b).

(** [Symbol.__str__] *)
Definition Symbol_str (s : Symbol) : string :=
  if bool_decide (name s = "") then "''" else name s.

Definition Symbol_is_epsilon (s : Symbol) : bool :=
  if term s then false
  else if bool_decide (name s = "") then true
  else bool_decide (name s ∈ ["%empty"; "%e"; "%epsilon"; "ε"; "<empty>"]).

Definition EPSILON : Symbol := mkSymbol "" false.
Definition EOF : Symbol := mkSymbol "$" true.
Definition PSHARP : Symbol := mkSymbol "#" true.

(** [Vector.__load_vector]: an all-ε list collapses to the empty one, any
    other list loses its ε symbols. *)
Definition Vector (vector : list Symbol) : list Symbol :=
  if forallb Symbol_is_epsilon vector then []
  else filter (λ n, Symbol_is_epsilon n = false) vector.

Fixpoint leftmost_terminal (m : list Symbol) : option Symbol :=
  match m with
  | [] => None
  | n :: m' => if term n then Some n else leftmost_terminal m'
  end.

Definition rightmost_terminal (m : list Symbol) : option Symbol :=
  leftmost_terminal (rev m).

(** A semantic action is a pair (tag, stack offset); a production maps a
    position of its body to the actions attached there. *)
Definition SemAction : Type := string * nat.

(** [Production.action]: position of the body -> actions, a dictionary *)
Definition ActionMap : Type := list (nat * list SemAction).

Record Production : Type := mkProduction {
  head : Symbol;
  body : list Symbol;
  index : Z;
  is_epsilon : option bool;
  has_epsilon : option bool;
  precedence : option string;
  action : option ActionMap;
  (** a marker production of the lifting refers to its rewritten parent,
      by its position in the production list *)
  parent : option nat;
}.

(** [Production(head, body)] *)
Definition new_Production (h : Symbol) (b : list Symbol) : Production :=
  {| head := h; body := Vector b; index := -1;
     is_epsilon := None; has_epsilon := None;
     precedence := None; action := None; parent := None |}.

(** [Production.__str__] *)
Definition Production_str (p : Production) : string :=
  Symbol_str (head p) +:+ ": " +:+ join " " (Symbol_str <$> body p) +:+ " ;".

(** [Production.__eq__]: same head name and same body names. *)
Definition Production_eqb (p q : Production) : bool :=
  bool_decide (name (head p) = name (head q)) &&
  bool_decide (name <$> body p = name <$> body q).

(** ** Dictionaries in insertion order *)

Section alist.
Context {K V : Type} `{EqDecision K}.

Fixpoint alist_get (k : K) (d : list (K * V)) : option V :=
    match d with
    | [] => None
    | (k', v) :: d' => if bool_decide (k' = k) then Some v else alist_get k d'
    end.

Definition alist_mem (k : K) (d : list (K * V)) : bool :=
    bool_decide (is_Some (alist_get k d)).

  (** [d[k] = v]: an existing key keeps its place. *)
Fixpoint alist_set (k : K) (v : V) (d : list (K * V)) : list (K * V) :=
    match d with
    | [] => [(k, v)]
    | (k', v') :: d' =>
        if bool_decide (k' = k) then (k', v) :: d' else (k', v') :: alist_set k v d'
    end.
End alist.

(** [l[i]] with Python's negative indices *)
Definition py_nth {A : Type} (l : list A) (i : Z) : option A :=
  if (0 <=? i)%Z then l !! Z.to_nat i
  else if (- Z.of_nat (length l) <=? i)%Z
       then l !! Z.to_nat (Z.of_nat (length l) + i)
       else None.

(** ** The grammar *)

Record Grammar : Type := mkGrammar {
  production : list Production;
  symbol : list (string * Symbol);
  terminal : list (string * Symbol);
  rule : gmap string (list Production);
  g_precedence : gmap string nat;
  assoc : gmap string string;
  _anchor : gmap string (option string * option Z);
  _dirty : bool;
  scanner : list (list string);
  start : option Symbol;
}.

Definition Grammar_init : Grammar :=
  {| production := []; symbol := []; terminal := []; rule := ∅;
     g_precedence := ∅; assoc := ∅; _anchor := ∅; _dirty := false;
     scanner := []; start := None |}.

Definition in_terminal (g : Grammar) (n : string) : bool :=
  alist_mem n (terminal g).

Definition in_precedence (g : Grammar) (n : string) : bool :=
  bool_decide (is_Some (g_precedence g !! n)).

(** [push_token] for a symbol given by name (a name that is no literal). *)
Definition push_token (token : string) (g : Grammar) : Grammar :=
  {| production := production g; symbol := symbol g;
     terminal := if in_terminal g token then terminal g
                 else terminal g ++ [(token, mkSymbol token true)];
     rule := rule g; g_precedence := g_precedence g; assoc := assoc g;
     _anchor := _anchor g; _dirty := true; scanner := scanner g;
     start := start g |}.

Definition push_precedence (n : string) (prec : nat) (a : string) (g : Grammar)
  : Grammar :=
  {| production := production g; symbol := symbol g; terminal := terminal g;
     rule := rule g; g_precedence := <[n := prec]> (g_precedence g);
     assoc := <[n := a]> (assoc g);
     _anchor := _anchor g; _dirty := _dirty g; scanner := scanner g;
     start := start g |}.

(** *** Anchors *)

Inductive anchored : Type :=
  | AnchorStr (s : string)
  | AnchorSymbol (s : Symbol)
  | AnchorProduction (p : Production)
  | AnchorNone.

Definition anchor_key (obj : anchored) : string :=
  match obj with
  | AnchorStr s => s
  | AnchorSymbol s => Symbol_str s
  | AnchorProduction p => "^PROD/" +:+ Production_str p
  | AnchorNone => "None"
  end.

Definition anchor_set (obj : anchored) (filename : option string)
    (line_num : option Z) (g : Grammar) : Grammar :=
  {| production := production g; symbol := symbol g; terminal := terminal g;
     rule := rule g; g_precedence := g_precedence g; assoc := assoc g;
     _anchor := <[anchor_key obj := (filename, line_num)]> (_anchor g);
     _dirty := _dirty g; scanner := scanner g; start := start g |}.

(** A missing key yields the pair [(None, None)], never [None]. *)
Definition anchor_get (g : Grammar) (obj : anchored) : option string * option Z :=
  default (None, None) (_anchor g !! anchor_key obj).

(** *** [Grammar.update] *)

Definition retag (g : Grammar) (s : Symbol) : Symbol :=
  mkSymbol (name s) (in_terminal g (name s)).

Definition fill_precedence (g : Grammar) (prec : option string)
    (b : list Symbol) : option string :=
  match prec with
  | Some n => Some n
  | None =>
      match rightmost_terminal b with
      | Some rightmost =>
          if in_precedence g (name rightmost) then Some (name rightmost) else None
      | None => None
      end
  end.

Definition update_production (g : Grammar) (i : nat) (p : Production)
  : Production :=
  let b := retag g <$> body p in
  {| head := retag g (head p); body := b; index := Z.of_nat i;
     is_epsilon := is_epsilon p; has_epsilon := has_epsilon p;
     precedence := fill_precedence g (precedence p) b;
     action := action p; parent := parent p |}.

Definition add_symbol (tbl : list (string * Symbol)) (s : Symbol)
  : list (string * Symbol) :=
  if alist_mem (name s) tbl then tbl else tbl ++ [(name s, s)].

Definition collect_symbols (ps : list Production) : list (string * Symbol) :=
  foldl (λ tbl p, foldl add_symbol (add_symbol tbl (head p)) (body p)) [] ps.

(** [rule.setdefault(head.name, []).append(p)] *)
Definition add_rule (m : gmap string (list Production)) (p : Production)
  : gmap string (list Production) :=
  <[name (head p) := default [] (m !! name (head p)) ++ [p]]> m.

(** a nonterminal of the symbol table without productions gets the empty list *)
Definition add_empty_rule (m : gmap string (list Production))
    (e : string * Symbol) : gmap string (list Production) :=
  if term e.2 then m
  else match m !! name e.2 with Some _ => m | None => <[name e.2 := []]> m end.

Definition update (g : Grammar) : Grammar :=
  let ps := imap (update_production g) (production g) in
  let tbl := collect_symbols ps in
  {| production := ps;
     symbol := tbl;
     terminal := (λ e, (e.1, mkSymbol (name e.2) true)) <$> terminal g;
     rule := foldl add_empty_rule (foldl add_rule ∅ ps) tbl;
     g_precedence := g_precedence g; assoc := assoc g;
     _anchor := _anchor g; _dirty := false; scanner := scanner g;
     start := start g |}.

(** [Grammar.append]: the production takes the next index. *)
Definition append (p : Production) (g : Grammar) : Grammar :=
  {| production := production g ++
       [{| head := head p; body := body p;
           index := Z.of_nat (length (production g));
           is_epsilon := is_epsilon p; has_epsilon := has_epsilon p;
           precedence := precedence p; action := action p;
           parent := parent p |}];
     symbol := symbol g; terminal := terminal g; rule := rule g;
     g_precedence := g_precedence g; assoc := assoc g;
     _anchor := _anchor g; _dirty := true; scanner := scanner g;
     start := start g |}.

(** A marker production refers to its parent by position; the reference
    follows the parent when a production is inserted in front. *)
Definition shift_parent (p : Production) : Production :=
  {| head := head p; body := body p; index := index p;
     is_epsilon := is_epsilon p; has_epsilon := has_epsilon p;
     precedence := precedence p; action := action p;
     parent := S <$> parent p |}.

(** [Grammar.augment]: the production [S^ -> start] is inserted in front. *)
Definition augment (g : Grammar) : exn + Grammar :=
  match start g with
  | None => inl (GrammarError "no start point")
  | Some s =>
      if alist_mem "S^" (symbol g) then inl (GrammarError "already augmented")
      else
        let p := new_Production (mkSymbol "S^" false) [s] in
        inr (update
          {| production := p :: (shift_parent <$> production g);
             symbol := symbol g; terminal := terminal g; rule := rule g;
             g_precedence := g_precedence g; assoc := assoc g;
             _anchor := _anchor g; _dirty := true; scanner := scanner g;
             start := Some (head p) |})
  end.

(** ** Actions and the LR table *)

Inductive ActionName : Type := SHIFT | REDUCE | ACCEPT | ERROR.

Global Instance ActionName_eq_dec : EqDecision ActionName.
Proof. solve_decision. Defined.

Definition ActionName_name (n : ActionName) : string :=
  match n with
  | SHIFT => "SHIFT" | REDUCE => "REDUCE" | ACCEPT => "ACCEPT" | ERROR => "ERROR"
  end.

(** [Action(name, target, rule)]: [target] is the next state of a shift and
    the production index of a reduce. *)
Record Action : Type := mkAction {
  a_name : ActionName;
  target : Z;
  a_rule : option Production;
}.

(** [Action.__eq__] ignores the production. *)
Definition Action_eqb (a b : Action) : bool :=
  bool_decide (a_name a = a_name b) && bool_decide (target a = target b).

(** A cell is a Python set of actions: a list, in the order the set is
    iterated, without two actions that [Action_eqb] identifies. *)
Definition Cell : Type := list Action.

Definition cell_add (data : Action) (c : Cell) : Cell :=
  if existsb (Action_eqb data) c then c else c ++ [data].

Definition Row : Type := list (string * Cell).

Record LRTable : Type := mkLRTable {
  tab_head : list Symbol;
  rows : list Row;
}.

(** [LRTable.add(row, col, data)]: rows are created up to [row]. *)
Definition row_add (col : string) (data : Action) (rr : Row) : Row :=
  alist_set col (cell_add data (default [] (alist_get col rr))) rr.

Definition LRTable_add (row : nat) (col : string) (data : Action)
    (tab : LRTable) : LRTable :=
  let rs := rows tab ++ replicate (S row - length (rows tab)) [] in
  {| tab_head := tab_head tab;
     rows := alter (row_add col data) row rs |}.

(** ** The conflict solver *)

Module ConflictSolver.

Section solver.
  (** the grammar of the solver, and the row it is working on *)
Variable g : Grammar.
Variable state : Z.

Definition rule_str (r : option Production) : string :=
    match r with Some p => Production_str p | None => "None" end.

Definition rule_anchor (r : option Production) : anchored :=
    match r with Some p => AnchorProduction p | None => AnchorNone end.

  (** [warning_rule]: the anchor is a pair, so the test [anchor is None]
      never holds, and formatting a missing line number with [%d] raises. *)
Definition warning_rule (r : option Production) (text : string) : Py unit :=
    let anchor := anchor_get g (rule_anchor r) in
    match anchor.2 with
    | None => raise (TypeError "%d format: a real number is required, not NoneType")
    | Some line =>
        LOG_ERROR ("warning:" +:+ default "None" anchor.1 +:+ ":" +:+
                   pretty line +:+ ": " +:+ text)
    end.

Definition _conflict_type (action1 action2 : Action) : string :=
    match a_name action1, a_name action2 with
    | SHIFT, SHIFT => "shift/shift"
    | SHIFT, REDUCE => "shift/reduce"
    | REDUCE, SHIFT => "shift/reduce"
    | REDUCE, REDUCE => "reduce/reduce"
    | n1, n2 => ActionName_name n1 +:+ "/" +:+ ActionName_name n2
    end.

Definition warning_conflict (action1 action2 : Action) : Py unit :=
    let ctype := _conflict_type action1 action2 in
    let text := "conflict " +:+ pretty state +:+ " " +:+ ctype +:+ " with" in
    let text := text +:+ " " +:+ rule_str (a_rule action2) in
    warning_rule (a_rule action1) text.

Definition _pick_shift (action1 action2 : Action) (warning : bool)
    : Py Action :=
    if bool_decide (a_name action1 = SHIFT) then
      (if warning
       then warning_rule (a_rule action2)
              ("discard rule: " +:+ rule_str (a_rule action2))
       else mret ());; mret action1
    else if bool_decide (a_name action2 = SHIFT) then
      (if warning
       then warning_rule (a_rule action2)
              ("discard rule: " +:+ rule_str (a_rule action1))
       else mret ());; mret action2
    else mret action1.

Definition _pick_reduce (action1 action2 : Action) (warning : bool)
    : Py Action :=
    if bool_decide (a_name action1 = REDUCE) then
      (if warning
       then warning_rule (a_rule action2)
              ("discard rule: " +:+ rule_str (a_rule action2))
       else mret ());; mret action1
    else if bool_decide (a_name action2 = REDUCE) then
      (if warning
       then warning_rule (a_rule action2)
              ("discard rule: " +:+ rule_str (a_rule action1))
       else mret ());; mret action2
    else mret action1.

  (** reading [rule.precedence] of an action without production raises *)
Definition rule_precedence (a : Action) : Py (option string) :=
    match a_rule a with
    | Some r => mret (precedence r)
    | None => raise (AttributeError "'NoneType' object has no attribute 'precedence'")
    end.

Definition assoc_of (n : string) : Py string :=
    match assoc g !! n with
    | Some a => mret a
    | None => raise (KeyError n)
    end.

Definition _compare_rule (action1 action2 : Action) : Py Action :=
    prec1 ← rule_precedence action1;
    match prec1 with
    | None =>
        warning_conflict action1 action2;;
        prec2 ← rule_precedence action2;
        match prec2 with
        | None => _pick_shift action1 action2 true
        | Some _ => mret action2
        end
    | Some n1 =>
        prec2 ← rule_precedence action2;
        match prec2 with
        | None => warning_conflict action1 action2;; mret action1
        | Some n2 =>
            match g_precedence g !! n1, g_precedence g !! n2 with
            | None, _ =>
                warning_rule (a_rule action1)
                  ("precedence " +:+ n1 +:+ " not defined");;
                mret action1
            | Some _, None =>
                warning_rule (a_rule action2)
                  ("precedence " +:+ n2 +:+ " not defined");;
                mret action1
            | Some p1, Some p2 =>
                if (p2 <? p1)%nat then mret action1
                else if (p1 <? p2)%nat then mret action2
                else
                  a1 ← assoc_of n1;
                  _ ← assoc_of n2;
                  if bool_decide (a1 = "left")
                  then _pick_reduce action1 action2 false
                  else if bool_decide (a1 = "right")
                       then _pick_shift action1 action2 false
                       else mret action1
            end
        end
    end.

  (** the left fold of [_solve_conflict] over the rest of the cell *)
Fixpoint fold_compare (final : Action) (rest : list Action) : Py Action :=
    match rest with
    | [] => mret final
    | a :: rest' => f ← _compare_rule final a; fold_compare f rest'
    end.

  (** [_solve_conflict]: a cell of two or more actions is emptied and
      receives the action the fold ends with. *)
Definition _solve_conflict (actionset : Cell) : Py Cell :=
    match actionset with
    | [] => mret actionset
    | [_] => mret actionset
    | first :: rest => final ← fold_compare first rest; mret [final]
    end.

End solver.

Fixpoint solve_row (g : Grammar) (state : Z) (row : Row) : Py Row :=
    match row with
    | [] => mret []
    | (key, cell) :: row' =>
        cell' ← _solve_conflict g state cell;
        rest ← solve_row g state row';
        mret ((key, cell') :: rest)
    end.

Fixpoint solve_rows (g : Grammar) (state : Z) (rs : list Row)
    : Py (list Row) :=
    match rs with
    | [] => mret []
    | row :: rs' =>
        row' ← solve_row g (state + 1) row;
        rest ← solve_rows g (state + 1) rs';
        mret (row' :: rest)
    end.

  (** [process]: the row counter starts at -1 and is advanced before each row *)
Definition process (g : Grammar) (tab : LRTable) : Py LRTable :=
    rs ← solve_rows g (-1) (rows tab);
    mret {| tab_head := tab_head tab; rows := rs |}.

End ConflictSolver.

(** ** Tokens and the lexer *)

(** The Python values the lexer and the driver handle. *)
#[warnings="-register-all"]
Inductive PyValue : Type :=
  | VNone
  | VStr (s : string)
  | VInt (z : Z)
  | VNode (name : Symbol) (child : list PyValue).

Record Token : Type := mkToken {
  t_name : string;
  t_value : PyValue;
  t_line : option Z;
  t_column : option Z;
}.

(** The entries of [Lexer.rules]: [(None, pattern)], [(name, pattern)] and
    [(__handle_action, pattern, action)]; [tokenize] adds one
    [(__handle_literal, pattern)] per literal and a last
    [(__handle_mismatch, '.')]. *)
Inductive LexRule : Type :=
  | RuleSkip (pattern : string)
  | RuleName (name pattern : string)
  | RuleAction (pattern action : string)
  | RuleLiteral (pattern : string)
  | RuleMismatch (pattern : string).

Definition LexRule_pattern (r : LexRule) : string :=
  match r with
  | RuleSkip p | RuleName _ p | RuleAction p _ | RuleLiteral p
  | RuleMismatch p => p
  end.

(** A lexer action receives the action name and the matched text. *)
Definition LexCallback : Type := string → string → exn + (string * PyValue).

Record Lexer : Type := mkLexer {
  rules : list LexRule;
  literal : list (string * string);
  actions : list (string * LexCallback);
  require : list (string * nat);
  intercept_literal : bool;
}.

Module Lexer.

Definition init : Lexer :=
    {| rules := []; literal := []; actions := []; require := [];
       intercept_literal := true |}.

Definition push_skip (pattern : string) (lx : Lexer) : Lexer :=
    {| rules := rules lx ++ [RuleSkip pattern]; literal := literal lx;
       actions := actions lx; require := require lx;
       intercept_literal := intercept_literal lx |}.

Definition _is_action (n : string) : bool :=
    startswith_brace n && endswith_brace n.

Definition push_match (n pattern : string) (lx : Lexer) : Lexer :=
    let n := py_strip n in
    if _is_action n then
      let action := py_strip_blank (strip_ends n) in
      {| rules := rules lx ++ [RuleAction pattern action];
         literal := literal lx; actions := actions lx;
         require := alist_set action (length (rules lx)) (require lx);
         intercept_literal := intercept_literal lx |}
    else
      {| rules := rules lx ++ [RuleName n pattern]; literal := literal lx;
         actions := actions lx; require := require lx;
         intercept_literal := intercept_literal lx |}.

  (** [self.literal[literal] = cstring.string_quote(literal)] *)
Definition push_literal (text : string) (lx : Lexer) : Lexer :=
    {| rules := rules lx;
       literal := alist_set text (cstring.string_quote text false) (literal lx);
       actions := actions lx; require := require lx;
       intercept_literal := intercept_literal lx |}.

Definition register (action : string) (callback : LexCallback) (lx : Lexer)
    : Lexer :=
    {| rules := rules lx; literal := literal lx;
       actions := alist_set action callback (actions lx);
       require := require lx; intercept_literal := intercept_literal lx |}.

  (** the callbacks of the rules; [LexerError] is raised for an action
      nobody registered *)
Definition __handle_action (lx : Lexer) (text action : string)
    : exn + (string * PyValue) :=
    match alist_get text (literal lx) with
    | Some quoted =>
        if intercept_literal lx then inr (quoted, VStr text)
        else match alist_get action (actions lx) with
             | Some fn => fn action text
             | None =>
                 match alist_get "*" (actions lx) with
                 | Some fn => fn action text
                 | None => inl (LexerError ("missing action {" +:+ action +:+ "}"))
                 end
             end
    | None =>
        match alist_get action (actions lx) with
        | Some fn => fn action text
        | None =>
            match alist_get "*" (actions lx) with
            | Some fn => fn action text
            | None => inl (LexerError ("missing action {" +:+ action +:+ "}"))
            end
        end
    end.

Definition __handle_literal (text : string) : string * PyValue :=
    (cstring.string_quote text true, VStr text).

Definition __handle_mismatch (text : string) : string * PyValue :=
    (cstring.string_quote text false, VStr text).

Definition __convert_to_literal (lx : Lexer) (token : Token) : Token :=
    if cstring.string_is_quoted (t_name token) then token
    else match t_value token with
         | VStr n =>
             match alist_get n (literal lx) with
             | Some quoted => mkToken quoted (VStr n) (t_line token) (t_column token)
             | None => token
             end
         | _ => token
         end.

  (** the body of the loop of [tokenize]: what is yielded for a token of the
      scanner *)
Definition intercept (lx : Lexer) (token : Token) : Token :=
    match t_value token with
    | VStr v =>
        if cstring.string_is_quoted (t_name token) then token
        else if alist_mem v (literal lx) then
          if intercept_literal lx then __convert_to_literal lx token
          else token
        else token
    | _ => token
    end.

  (** the rules [tokenize] hands to the scanner; [re.escape] is part of the
      regular-expression engine *)
Definition scanner_rules (re_escape : string → string) (lx : Lexer)
    : list LexRule :=
    rules lx ++ ((λ e, RuleLiteral (re_escape e.1)) <$> literal lx)
             ++ [RuleMismatch "."].

End Lexer.

(** *** The scanner [_tokenize]

    The regular-expression engine is a parameter: [finditer patterns code]
    lists the matches of the alternation of [patterns] in [code], each with
    the position of the alternative that matched ([lastgroup]), the matched
    text and its start offset. *)

Section scanner.
Variable finditer : list string → string → list (nat * string * nat).
Variable re_escape : string → string.

  (** offsets at which the lines of [code] start, counted in code points as
      [str.find] counts them *)
Fixpoint line_starts_from (pos : nat) (code : list string) : list nat :=
    match code with
    | [] => []
    | c :: code' =>
        if bool_decide (c = String "010"%char "")
        then S pos :: line_starts_from (S pos) code'
        else line_starts_from (S pos) code'
    end.

Definition line_starts (code : string) : list nat :=
    0%nat :: line_starts_from 0 (code_points code).

  (** the line of offset [start], searched from [line_num] onwards *)
Fixpoint advance_line (fuel : nat) (starts : list nat) (line_num start : nat)
    : nat :=
    match fuel with
    | O => line_num
    | S fuel' =>
        if (line_num <? length starts - 1)%nat then
          match starts !! S line_num with
          | Some next =>
              if (start <? next)%nat then line_num
              else advance_line fuel' starts (S line_num) start
          | None => line_num
          end
        else line_num
    end.

Definition run_rule (lx : Lexer) (r : LexRule) (value : string)
    : exn + option (string * PyValue) :=
    match r with
    | RuleSkip _ => inr None
    | RuleName n _ => inr (Some (n, VStr value))
    | RuleAction _ action =>
        match Lexer.__handle_action lx value action with
        | inl e => inl e
        | inr obj => inr (Some obj)
        end
    | RuleLiteral _ => inr (Some (Lexer.__handle_literal value))
    | RuleMismatch _ => inr (Some (Lexer.__handle_mismatch value))
    end.

Fixpoint scan_matches (lx : Lexer) (specs : list LexRule) (starts : list nat)
      (line_num : nat) (ms : list (nat * string * nat))
    : list Token * option exn :=
    match ms with
    | [] => ([], None)
    | (kind, value, start) :: ms' =>
        let line_num := advance_line (length starts) starts line_num start in
        let line_start := default 0%nat (starts !! line_num) in
        match specs !! kind with
        | None => ([], Some (KeyError "PATTERN"))
        | Some r =>
            match run_rule lx r value with
            | inl e => ([], Some e)
            | inr None => scan_matches lx specs starts line_num ms'
            | inr (Some (n, v)) =>
                let tok := mkToken n v (Some (Z.of_nat (line_num + 1)))
                             (Some (Z.of_nat (start - line_start + 1))) in
                let '(toks, e) := scan_matches lx specs starts line_num ms' in
                (tok :: toks, e)
            end
        end
    end.

  (** [tokenize(code, rules, '$')]: the tokens yielded, and the exception
      that ended the generator if one did *)
Definition tokenize_raw (lx : Lexer) (specs : list LexRule) (code : string)
    : list Token * option exn :=
    let starts := line_starts code in
    let '(toks, e) :=
      scan_matches lx specs starts 0
        (finditer (LexRule_pattern <$> specs) code) in
    match e with
    | Some _ => (toks, e)
    | None =>
        let line_start := default 0%nat (last starts) in
        (toks ++ [mkToken "$" (VStr "")
                    (Some (Z.of_nat (length starts)))
                    (Some (Z.of_nat (py_len code - line_start + 1)))],
         None)
    end.

  (** [Lexer.tokenize] *)
Definition Lexer_tokenize (lx : Lexer) (code : string)
    : list Token * option exn :=
    let '(toks, e) :=
      tokenize_raw lx (Lexer.scanner_rules re_escape lx) code in
    (Lexer.intercept lx <$> toks, e).

End scanner.

(** *** The lexer of the driver: [PushDownInput.__open_lexer]

    [cstring.string_unquote] and the table [PATTERN] of predefined patterns
    are parameters, as is the object with the user's lexer actions. *)

Section open_lexer.
Variable string_unquote : string → string.
Variable PATTERN : gmap string string.
  (** the matcher object: the name of its class and its methods *)
Variable matcher
    : option (string * list (string * (string → exn + (string * PyValue)))).

Definition __handle_lexer_action : LexCallback := λ action text,
    match matcher with
    | Some (clsname, m) =>
        match alist_get action m with
        | Some func => func text
        | None =>
            inl (TypeError ("method " +:+ String dquote action
                            +:+ String dquote " is undefined in " +:+ clsname))
        end
    | None => inr (cstring.string_quote ("{" +:+ action +:+ "}") false, VStr text)
    end.

Definition push_import_match (n key : string) (lx : Lexer) : exn + Lexer :=
    let key := py_strip key in
    match PATTERN !! key with
    | None => inl (LexerError (key +:+ " cannot be imported"))
    | Some pattern => inr (Lexer.push_match (py_strip n) pattern lx)
    end.

  (** one directive of [g.scanner] *)
Definition push_scanner_rule (sc : list string) (lx : Lexer) : exn + Lexer :=
    match sc with
    | [] => inl IndexError
    | cmd :: args =>
        let cmd := py_strip cmd in
        if bool_decide (cmd = "ignore") || bool_decide (cmd = "skip") then
          match args with
          | pattern :: _ => inr (Lexer.push_skip pattern lx)
          | [] => inl IndexError
          end
        else if bool_decide (cmd = "match") then
          match args with
          | n :: pattern :: _ => inr (Lexer.push_match n pattern lx)
          | _ => inl IndexError
          end
        else if bool_decide (cmd = "import") then
          match args with
          | n :: key :: _ => push_import_match n key lx
          | _ => inl IndexError
          end
        else inr lx
    end.

Fixpoint push_scanner_rules (scs : list (list string)) (lx : Lexer)
    : exn + Lexer :=
    match scs with
    | [] => inr lx
    | sc :: scs' =>
        match push_scanner_rule sc lx with
        | inl e => inl e
        | inr lx' => push_scanner_rules scs' lx'
        end
    end.

  (** every terminal with a quoted name registers its text as a literal *)
Definition push_terminal (lx : Lexer) (e : string * Symbol) : Lexer :=
    if cstring.string_is_quoted (name e.2)
    then Lexer.push_literal (string_unquote (name e.2)) lx
    else lx.

Definition open_lexer (g : Grammar) : exn + Lexer :=
    match push_scanner_rules (scanner g) Lexer.init with
    | inl e => inl e
    | inr lx =>
        inr (Lexer.register "*" __handle_lexer_action
               (foldl push_terminal lx (terminal g)))
    end.

End open_lexer.

(** ** The push-down driver *)

(** A semantic action receives the production and the argument window. *)
Definition SemCallback : Type :=
  Production → option (list PyValue) → exn + PyValue.

(** [repr] of a string without control characters: single quotes, unless
    the text holds a single quote and no double quote; the quote in use and
    the backslash are escaped. *)
Definition repr_char (q : ascii) (c : ascii) : string :=
  if bool_decide (c = q) || bool_decide (c = "\"%char)
  then String "\"%char (String c "")
  else String c "".

Definition repr_str (s : string) : string :=
  let cs := String.list_ascii_of_string s in
  let q := if bool_decide ("'"%char ∈ cs) && negb (bool_decide (dquote ∈ cs))
           then dquote else "'"%char in
  String q (String.concat "" (repr_char q <$> cs)) +:+ String q "".

(** [repr] of the values that reach a diagnostic; a node prints as an object *)
Definition repr_value (v : PyValue) : string :=
  match v with
  | VNone => "None"
  | VStr s => repr_str s
  | VInt z => pretty z
  | VNode _ _ => "<Node>"
  end.

Definition repr_opt_int (z : option Z) : string :=
  match z with Some z => pretty z | None => "None" end.

(** [Token.__repr__] *)
Definition Token_repr (t : Token) : string :=
  match t_line t with
  | None => "Token(" +:+ repr_str (t_name t) +:+ ", " +:+ repr_value (t_value t) +:+ ")"
  | Some l =>
      "Token(" +:+ repr_str (t_name t) +:+ ", " +:+ repr_value (t_value t)
        +:+ ", " +:+ pretty l +:+ ", " +:+ repr_opt_int (t_column t) +:+ ")"
  end.

(** [Action.__str__] *)
Definition Action_str (a : Action) : string :=
  match a_name a with
  | ACCEPT => "acc"
  | ERROR => "err"
  | REDUCE =>
      "R/" +:+ pretty (target a) +:+ "(" +:+
        match a_rule a with Some p => Production_str p | None => "None" end +:+ ")"
  | SHIFT => "S/" +:+ pretty (target a)
  end.

Record PDA : Type := mkPDA {
  pda_g : Grammar;
  pda_tab : LRTable;
  (** the token iterator of the input: what is left of it, the exception
      that ends it if one does, and the end-of-input flag *)
  input_it : list Token;
  input_exn : option exn;
  input_eof : bool;
  state_stack : list Z;
  symbol_stack : list Symbol;
  value_stack : list PyValue;
  input_stack : list PyValue;
  current : option Token;
  _semantic_action : option (list (string * SemCallback));
  accepted : bool;
  error : option string;
  result : PyValue;
  filename : string;
}.

Module PDA.

Definition set_input (it : list Token) (eof : bool) (cur : option Token)
      (m : PDA) : PDA :=
    {| pda_g := pda_g m; pda_tab := pda_tab m; input_it := it;
       input_exn := input_exn m; input_eof := eof;
       state_stack := state_stack m; symbol_stack := symbol_stack m;
       value_stack := value_stack m; input_stack := input_stack m;
       current := cur; _semantic_action := _semantic_action m;
       accepted := accepted m; error := error m; result := result m;
       filename := filename m |}.

Definition set_stacks (st : list Z) (sy : list Symbol) (va inp : list PyValue)
      (m : PDA) : PDA :=
    {| pda_g := pda_g m; pda_tab := pda_tab m; input_it := input_it m;
       input_exn := input_exn m; input_eof := input_eof m;
       state_stack := st; symbol_stack := sy;
       value_stack := va; input_stack := inp;
       current := current m; _semantic_action := _semantic_action m;
       accepted := accepted m; error := error m; result := result m;
       filename := filename m |}.

Definition set_error (e : string) (m : PDA) : PDA :=
    {| pda_g := pda_g m; pda_tab := pda_tab m; input_it := input_it m;
       input_exn := input_exn m; input_eof := input_eof m;
       state_stack := state_stack m; symbol_stack := symbol_stack m;
       value_stack := value_stack m; input_stack := input_stack m;
       current := current m; _semantic_action := _semantic_action m;
       accepted := accepted m; error := Some e; result := result m;
       filename := filename m |}.

Definition set_accepted (v : PyValue) (m : PDA) : PDA :=
    {| pda_g := pda_g m; pda_tab := pda_tab m; input_it := input_it m;
       input_exn := input_exn m; input_eof := input_eof m;
       state_stack := state_stack m; symbol_stack := symbol_stack m;
       value_stack := value_stack m; input_stack := input_stack m;
       current := current m; _semantic_action := _semantic_action m;
       accepted := true; error := error m; result := v;
       filename := filename m |}.

Definition install_semantic_action (obj : list (string * SemCallback))
      (m : PDA) : PDA :=
    {| pda_g := pda_g m; pda_tab := pda_tab m; input_it := input_it m;
       input_exn := input_exn m; input_eof := input_eof m;
       state_stack := state_stack m; symbol_stack := symbol_stack m;
       value_stack := value_stack m; input_stack := input_stack m;
       current := current m; _semantic_action := Some obj;
       accepted := accepted m; error := error m; result := result m;
       filename := filename m |}.

  (** [PushDownInput.read] *)
Definition read (m : PDA) : Py PDA :=
    if input_eof m then mret (set_input (input_it m) true None m)
    else match input_it m with
         | token :: it =>
             mret (set_input it (bool_decide (t_name token = "$")) (Some token) m)
         | [] =>
             match input_exn m with
             | Some e => raise e
             | None => mret (set_input [] true (Some (mkToken "$" (VStr "") None None)) m)
             end
         end.

  (** [PDA(g, tab)] followed by [open] on a token stream *)
Definition open (g : Grammar) (tab : LRTable) (it : list Token)
      (e : option exn) : Py PDA :=
    read {| pda_g := g; pda_tab := tab; input_it := it; input_exn := e;
            input_eof := false;
            state_stack := [0%Z]; symbol_stack := [EOF]; value_stack := [VNone];
            input_stack := []; current := None; _semantic_action := None;
            accepted := false; error := None; result := VNone;
            filename := "<buffer>" |}.

  (** the value of [self.error] counts as true when it is a nonempty text *)
Definition has_error (m : PDA) : bool :=
    match error m with
    | Some e => negb (bool_decide (e = ""))
    | None => false
    end.

Definition is_stopped (m : PDA) : bool := accepted m || has_error m.

Definition error_token (m : PDA) (token : option Token) (text : string)
    : Py unit :=
    match token with
    | None => raise (AttributeError "'NoneType' object has no attribute 'line'")
    | Some t =>
        match t_line t with
        | Some l =>
            if bool_decide (l = 0%Z) then LOG_ERROR text
            else LOG_ERROR ("error:" +:+ filename m +:+ ":" +:+ pretty l +:+ ": " +:+ text)
        | None => LOG_ERROR text
        end
    end.

  (** [state in tab] *)
Definition in_table (m : PDA) (state : Z) : bool :=
    (0 <=? state)%Z && (state <? Z.of_nat (length (rows (pda_tab m))))%Z.

  (** [tab.rows[state].get(name, None)] for a state of the table *)
Definition tab_get (m : PDA) (state : Z) (col : string) : option Cell :=
    row ← rows (pda_tab m) !! Z.to_nat state; alist_get col row.

  (** [__generate_args]: the window of [size + 1] values below the top *)
Fixpoint window (vs : list PyValue) (from : nat) (count : nat)
    : Py (list PyValue) :=
    match count with
    | O => mret []
    | S count' =>
        match vs !! from with
        | None => raise IndexError
        | Some v => rest ← window vs (S from) count'; mret (v :: rest)
        end
    end.

Definition __generate_args (m : PDA) (size : nat)
    : Py (option (list PyValue)) :=
    if (length (state_stack m) <=? size)%nat then mret None
    else
      let top := (length (state_stack m) - 1)%nat in
      args ← window (value_stack m) (top - size) (S size); mret (Some args).

Definition callback_name (actname : string) : string :=
    if startswith_brace actname && endswith_brace actname
    then py_strip (strip_ends actname) else actname.

Definition __execute_action (m : PDA) (rule : Production) (actname : string)
      (actsize : nat) : Py (nat * PyValue) :=
    args ← __generate_args m actsize;
    match _semantic_action m with
    | None => mret (0%nat, VNone)
    | Some callback =>
        match alist_get (callback_name actname) callback with
        | None => raise (KeyError ("action " +:+ actname +:+ " is not defined"))
        | Some func =>
            match func rule args with
            | inl e => raise e
            | inr value => mret (1%nat, value)
            end
        end
    end.

  (** the actions of one position, run in order *)
Fixpoint run_actions (m : PDA) (parent : Production)
      (actions : list SemAction) (acc : PyValue * nat) : Py (PyValue * nat) :=
    match actions with
    | [] => mret acc
    | (actname, actsize) :: rest =>
        r ← __execute_action m parent actname actsize;
        run_actions m parent rest
          (if (0 <? r.1)%nat then (r.2, S acc.2) else acc)
    end.

Fixpoint run_positions (m : PDA) (parent : Production) (size : nat)
      (items : ActionMap) (acc : PyValue * nat) : Py (PyValue * nat) :=
    match items with
    | [] => mret acc
    | (pos, actions) :: rest =>
        if bool_decide (pos = size) then
          acc' ← run_actions m parent actions acc;
          run_positions m parent size rest acc'
        else
          LOG_ERROR ("invalid action pos: " +:+ pretty pos);;
          run_positions m parent size rest acc
    end.

Definition __rule_eval (m : PDA) (rule : Production) : Py PyValue :=
    let parent :=
      match parent rule with
      | Some i => default rule (production (pda_g m) !! i)
      | None => rule
      end in
    let size := length (body rule) in
    if (length (state_stack m) <=? size)%nat
    then raise (ValueError "stack size is not enough")
    else
      r ← run_positions m parent size (default [] (action rule)) (VNone, 0%nat);
      if bool_decide (r.2 = 0%nat) then
        args ← __generate_args m size;
        match args with
        | Some (_ :: child) => mret (VNode (head rule) child)
        | Some [] => mret (VNode (head rule) [])
        | None => raise (TypeError "'NoneType' object is not subscriptable")
        end
      else mret r.1.

  (** [n] times [pop] on the three stacks *)
Definition pop_n (n : nat) (m : PDA) : Py PDA :=
    if ((length (state_stack m) <? n) || (length (symbol_stack m) <? n)
        || (length (value_stack m) <? n))%nat
    then raise IndexError
    else mret (set_stacks (take (length (state_stack m) - n) (state_stack m))
                 (take (length (symbol_stack m) - n) (symbol_stack m))
                 (take (length (value_stack m) - n) (value_stack m))
                 (input_stack m) m).

Definition __proceed_reduce (m : PDA) (index : Z) : Py (Z * PDA) :=
    match py_nth (production (pda_g m)) index with
    | None => raise IndexError
    | Some rule =>
        let size := length (body rule) in
        value ← __rule_eval m rule;
        m ← pop_n size m;
        match last (state_stack m) with
        | None => raise AssertionError
        | Some state =>
            if negb (in_table m state) then
              LOG_ERROR "state %d does not in table";; raise AssertionError
            else
              match tab_get m state (name (head rule)) with
              | None | Some [] =>
                  let m := set_error "reduction state mismatch" m in
                  error_token m (current m) "reduction state mismatch";;
                  mret ((-11)%Z, m)
              | Some (action :: _) =>
                  if negb (bool_decide (a_name action = SHIFT)) then
                    let text := "invalid action name: " +:+ Action_str action in
                    let m := set_error text m in
                    error_token m (current m) text;;
                    mret ((-13)%Z, m)
                  else
                    mret (0%Z,
                      set_stacks (state_stack m ++ [target action])
                        (symbol_stack m ++ [head rule])
                        (value_stack m ++ [value]) (input_stack m) m)
              end
        end
    end.

  (** [step]; the table of analysis steps kept for debugging is left out,
      but it reads [self.current.name], which raises without a token *)
Definition step (m : PDA) : Py (Z * PDA) :=
    match current m with
    | None => raise (AttributeError "'NoneType' object has no attribute 'name'")
    | Some lookahead =>
        if accepted m then mret ((-1)%Z, m)
        else if has_error m then mret ((-2)%Z, m)
        else match last (state_stack m) with
        | None => LOG_ERROR "PDA fatal error";; raise AssertionError
        | Some state =>
            if negb (in_table m state) then
              LOG_ERROR "state %d does not in table";; raise AssertionError
            else
              match tab_get m state (t_name lookahead) with
              | None | Some [] =>
                  let text := "unexpected token: " +:+ Token_repr lookahead in
                  let m := set_error text m in
                  error_token m (Some lookahead) text;;
                  mret ((-5)%Z, m)
              | Some (_ :: _ :: _) => raise AssertionError
              | Some [action] =>
                  match a_name action with
                  | SHIFT =>
                      let m :=
                        set_stacks (state_stack m ++ [target action])
                          (symbol_stack m ++ [mkSymbol (t_name lookahead) true])
                          (value_stack m ++ [t_value lookahead])
                          (input_stack m ++ [t_value lookahead]) m in
                      m ← read m; mret (1%Z, m)
                  | REDUCE => __proceed_reduce m (target action)
                  | ACCEPT =>
                      if negb (bool_decide (length (state_stack m) = 2%nat))
                      then raise AssertionError
                      else match py_nth (value_stack m) (-1) with
                           | None => raise IndexError
                           | Some v => mret (0%Z, set_accepted v m)
                           end
                  | ERROR =>
                      let m := set_error "syntax error" m in
                      error_token m (Some lookahead) "syntax error";;
                      mret ((-7)%Z, m)
                  end
              end
        end
    end.

  (** [run]: steps until the driver stops; [None] when the fuel runs out *)
Fixpoint run (fuel : nat) (m : PDA) : Py (option (PyValue * PDA)) :=
    if is_stopped m then mret (Some (result m, m))
    else match fuel with
         | O => mret None
         | S fuel' => r ← step m; run fuel' r.2
         end.

End PDA.

(** ** Mid-rule action lifting: [GrammarAnalyzer.__argument_semantic_action] *)

Module Lifting.

  (** the production has an action at a position before the end of its body *)
Definition has_mid_action (rule : Production) : bool :=
    match action rule with
    | None => false
    | Some a => existsb (λ e, (e.1 <? length (body rule))%nat) a
    end.

Definition marker_symbol (name_id : nat) : Symbol :=
    mkSymbol ("M@" +:+ pretty name_id) false.

  (** the production [M -> ε] of a marker: its one action list, at position
      0, holds the tags of the site with the position of the marker *)
Definition marker_rule (h : Symbol) (stack_pos : nat)
      (acts : list SemAction) (parent_pos : nat) : Production :=
    let child := new_Production h [] in
    {| head := head child; body := body child; index := index child;
       is_epsilon := None; has_epsilon := None; precedence := None;
       action := Some [(0%nat, (λ act : SemAction, (act.1, stack_pos)) <$> acts)];
       parent := Some parent_pos |}.

  (** the loop over the body; [pos] is the position of the next symbol *)
Fixpoint lift_body (a : ActionMap) (parent_pos : nat) (pos : nat)
      (syms : list Symbol) (body : list Symbol) (children : list Production)
      (name_id : nat) : list Symbol * list Production * nat :=
    match syms with
    | [] => (body, children, name_id)
    | symbol :: syms' =>
        if alist_mem pos a then
          let h := marker_symbol name_id in
          let child :=
            marker_rule h (length body) (default [] (alist_get pos a))
              parent_pos in
          lift_body a parent_pos (S pos) syms' (body ++ [h] ++ [symbol])
            (children ++ [child]) (S name_id)
        else
          lift_body a parent_pos (S pos) syms' (body ++ [symbol]) children
            name_id
    end.

  (** the tags at and beyond the end of the body, by increasing position *)
Definition end_actions (a : ActionMap) (size : nat) : list SemAction :=
    let keys := merge_sort Nat.le (filter (λ k : nat, (size ≤ k)%nat) a.*1) in
    concat ((λ key, default [] (alist_get key a)) <$> keys).

Definition root_rule (rule : Production) (a : ActionMap)
      (new_body : list Symbol) : Production :=
    let root := new_Production (head rule) new_body in
    let stack_pos := length new_body in
    let acts := end_actions a (length (body rule)) in
    {| head := head root; body := body root; index := index root;
       is_epsilon := None; has_epsilon := None;
       precedence := precedence rule;
       action := match acts with
                 | [] => None
                 | _ => Some [(stack_pos,
                               (λ act : SemAction, (act.1, stack_pos)) <$> acts)]
                 end;
       parent := None |}.

  (** the rewrite of one production: the new parent, the marker productions
      and the next marker number *)
Definition lift_rule (parent_pos : nat) (name_id : nat) (rule : Production)
    : Production * list Production * nat :=
    let a := default [] (action rule) in
    let '(body, children, name_id') :=
      lift_body a parent_pos 0 (body rule) [] [] name_id in
    (root_rule rule a body, children, name_id').

Record State : Type := mkState {
    st_rules : list Production;
    st_anchors : list (option string * option Z);
    st_name_id : nat;
    st_g : Grammar;
  }.

  (** the body of the loop over the productions *)
Definition step (st : State) (rule : Production) : State :=
    let anchor := anchor_get (st_g st) (AnchorProduction rule) in
    if has_mid_action rule then
      let '(root, children, name_id') :=
        lift_rule (length (st_rules st)) (st_name_id st) rule in
      {| st_rules := st_rules st ++ [root] ++ children;
         st_anchors := st_anchors st ++ [anchor] ++ (const anchor <$> children);
         st_name_id := name_id';
         st_g := foldl (λ g child,
                    anchor_set (AnchorSymbol (head child)) anchor.1 anchor.2 g)
                   (st_g st) children |}
    else
      {| st_rules := st_rules st ++ [rule];
         st_anchors := st_anchors st ++ [anchor];
         st_name_id := st_name_id st;
         st_g := st_g st |}.

Definition lift_rules (g : Grammar) : State :=
    foldl step {| st_rules := []; st_anchors := []; st_name_id := 1;
                  st_g := g |} (production g).

Definition clear_production (g : Grammar) : Grammar :=
    {| production := []; symbol := symbol g; terminal := terminal g;
       rule := rule g; g_precedence := g_precedence g; assoc := assoc g;
       _anchor := _anchor g; _dirty := _dirty g; scanner := scanner g;
       start := start g |}.

  (** [g.append(rule)] and [g.anchor_set(rule, ...)] for every new rule *)
Definition install (g : Grammar)
      (e : Production * (option string * option Z)) : Grammar :=
    anchor_set (AnchorProduction e.1) e.2.1 e.2.2 (append e.1 g).

Definition __argument_semantic_action (g : Grammar) : Grammar :=
    let st := lift_rules g in
    update (foldl install (clear_production (st_g st))
              (zip (st_rules st) (st_anchors st))).

End Lifting.

(** ** The grammar analyzer: ε flags and FIRST sets *)

(** what a loop of the analyzer ends with: its state, an exception, or no
    result within the given number of rounds *)
Inductive outcome (A : Type) : Type :=
  | Done (a : A)
  | Raised (e : exn)
  | OutOfFuel.
Arguments Done {A} a.
Arguments Raised {A} e.
Arguments OutOfFuel {A}.

(** [SymbolInfo]: the productions of the symbol are those of the grammar,
    referred to by their index *)
Record SymbolInfo : Type := mkSymbolInfo {
  i_symbol : Symbol;
  i_rules : list nat;
  i_is_epsilon : option bool;
  i_has_epsilon : option bool;
}.

(** a set of names, in the order the names were added *)
Definition NameSet : Type := list string.

Definition set_add (n : string) (s : NameSet) : NameSet :=
  if bool_decide (n ∈ s) then s else s ++ [n].

Record GrammarAnalyzer : Type := mkGrammarAnalyzer {
  ga_g : Grammar;
  info : list (string * SymbolInfo);
  FIRST : list (string * NameSet);
}.

Module Analyzer.

Definition set_flags (fl : option bool * option bool) (p : Production)
    : Production :=
    {| head := head p; body := body p; index := index p;
       is_epsilon := fl.1; has_epsilon := fl.2;
       precedence := precedence p; action := action p; parent := parent p |}.

Definition set_info_flags (fl : option bool * option bool) (i : SymbolInfo)
    : SymbolInfo :=
    {| i_symbol := i_symbol i; i_rules := i_rules i;
       i_is_epsilon := fl.1; i_has_epsilon := fl.2 |}.

  (** [__build_info]: one entry per symbol of the table, with the rules the
      grammar files under its name *)
Definition build_info (g : Grammar) : list (string * SymbolInfo) :=
    (λ e : string * Symbol,
       (e.1, {| i_symbol := e.2;
                i_rules := (λ p, Z.to_nat (index p)) <$> default [] (rule g !! e.1);
                i_is_epsilon := None; i_has_epsilon := None |}))
    <$> symbol g.

  (** the four counters of the ε loops *)
Definition count_flag (v : bool) (l : list (option bool)) : nat :=
    length (filter (λ o, o = Some v) l).

  (** *** [__update_epsilon]: the flags before the loop *)
Definition init_info (ps : list Production) (i : SymbolInfo) : SymbolInfo :=
    if term (i_symbol i) then set_info_flags (Some false, Some false) i
    else if bool_decide (length (i_rules i) = 0%nat)
    then set_info_flags (Some false, Some false) i
    else
      let rules := omap (λ k, ps !! k) (i_rules i) in
      let is_count := count_flag true (is_epsilon <$> rules) in
      if (length (i_rules i) <=? is_count)%nat
      then set_info_flags (Some true, Some true) i
      else if (0 <? is_count)%nat
           then set_info_flags (i_is_epsilon i, Some true) i
           else i.

  (** [self.info[n.name]] for the symbols of a body, in order *)
Fixpoint body_infos (inf : list (string * SymbolInfo)) (b : list Symbol)
    : exn + list SymbolInfo :=
    match b with
    | [] => inr []
    | n :: b' =>
        match alist_get (name n) inf with
        | None => inl (KeyError (name n))
        | Some i =>
            match body_infos inf b' with
            | inl e => inl e
            | inr l => inr (i :: l)
            end
        end
    end.

  (** *** [__update_epsilon_production] *)
Definition update_epsilon_production (inf : list (string * SymbolInfo))
      (p : Production) : exn + (Production * nat) :=
    match is_epsilon p, has_epsilon p with
    | Some _, Some _ => inr (p, 0%nat)
    | _, _ =>
        match leftmost_terminal (body p) with
        | Some _ =>
            inr (set_flags (Some (default false (is_epsilon p)),
                            Some (default false (has_epsilon p))) p,
                 ((if is_epsilon p is Some _ then 0 else 1)
                  + (if has_epsilon p is Some _ then 0 else 1))%nat)
        | None =>
            match body_infos inf (body p) with
            | inl e => inl e
            | inr infos =>
                let size := length (body p) in
                let ic := count_flag true (i_is_epsilon <$> infos) in
                let inc := count_flag false (i_is_epsilon <$> infos) in
                let hc := count_flag true (i_has_epsilon <$> infos) in
                let hnc := count_flag false (i_has_epsilon <$> infos) in
                let '(fl, c1) :=
                  match is_epsilon p with
                  | Some _ => ((is_epsilon p, has_epsilon p), 0%nat)
                  | None =>
                      if (size <=? ic)%nat then ((Some true, Some true), 1%nat)
                      else if (0 <? inc)%nat
                           then ((Some false, has_epsilon p), 1%nat)
                           else ((None, has_epsilon p), 0%nat)
                  end in
                let '(fl, c2) :=
                  match fl.2 with
                  | Some _ => (fl, 0%nat)
                  | None =>
                      if (size <=? hc)%nat then ((fl.1, Some true), 1%nat)
                      else if (0 <? hnc)%nat then ((fl.1, Some false), 1%nat)
                           else (fl, 0%nat)
                  end in
                inr (set_flags fl p, (c1 + c2)%nat)
            end
        end
    end.

  (** *** [__update_epsilon_symbol] *)
Definition update_epsilon_symbol (ps : list Production) (i : SymbolInfo)
    : SymbolInfo * nat :=
    if term (i_symbol i) then (i, 0%nat)
    else match i_is_epsilon i, i_has_epsilon i with
    | Some _, Some _ => (i, 0%nat)
    | _, _ =>
        let rules := omap (λ k, ps !! k) (i_rules i) in
        let size := length (i_rules i) in
        let ic := count_flag true (is_epsilon <$> rules) in
        let inc := count_flag false (is_epsilon <$> rules) in
        let hc := count_flag true (has_epsilon <$> rules) in
        let hnc := count_flag false (has_epsilon <$> rules) in
        let '(fl, c1) :=
          match i_is_epsilon i with
          | Some _ => ((i_is_epsilon i, i_has_epsilon i), 0%nat)
          | None =>
              if (size <=? ic)%nat then ((Some true, Some true), 1%nat)
              else if (size <=? inc)%nat
                   then ((Some false, Some false), 1%nat)
                   else ((None, i_has_epsilon i), 0%nat)
          end in
        let '(fl, c2) :=
          match fl.2 with
          | Some _ => (fl, 0%nat)
          | None =>
              if (0 <? hc)%nat then ((fl.1, Some true), 1%nat)
              else if (size <=? hnc)%nat then ((fl.1, Some false), 1%nat)
                   else (fl, 0%nat)
          end in
        (set_info_flags fl i, (c1 + c2)%nat)
    end.

  (** one pass over the productions, then one over the symbols *)
Fixpoint pass_productions (inf : list (string * SymbolInfo))
      (ps : list Production) : exn + (list Production * nat) :=
    match ps with
    | [] => inr ([], 0%nat)
    | p :: ps' =>
        match update_epsilon_production inf p with
        | inl e => inl e
        | inr (p', c) =>
            match pass_productions inf ps' with
            | inl e => inl e
            | inr (ps'', c') => inr (p' :: ps'', (c + c')%nat)
            end
        end
    end.

Definition pass_symbols (ps : list Production)
      (inf : list (string * SymbolInfo)) : list (string * SymbolInfo) * nat :=
    ((λ e : string * SymbolInfo, (e.1, (update_epsilon_symbol ps e.2).1)) <$> inf,
     sum_list ((λ e : string * SymbolInfo, (update_epsilon_symbol ps e.2).2) <$> inf)).

Fixpoint epsilon_loop (fuel : nat) (ps : list Production)
      (inf : list (string * SymbolInfo))
    : outcome (list Production * list (string * SymbolInfo)) :=
    match fuel with
    | O => OutOfFuel
    | S fuel' =>
        match pass_productions inf ps with
        | inl e => Raised e
        | inr (ps', c1) =>
            let '(inf', c2) := pass_symbols ps' inf in
            if bool_decide ((c1 + c2)%nat = 0%nat) then Done (ps', inf')
            else epsilon_loop fuel' ps' inf'
        end
    end.

Definition update_epsilon (fuel : nat) (ps : list Production)
      (inf : list (string * SymbolInfo))
    : outcome (list Production * list (string * SymbolInfo)) :=
    epsilon_loop fuel ps ((λ e : string * SymbolInfo, (e.1, init_info ps e.2)) <$> inf).

  (** *** FIRST sets *)

  (** [__calculate_first_set]; the result is a set of names, [""] for ε *)
Fixpoint calculate_first_set (F : list (string * NameSet))
      (vector : list Symbol) (output : NameSet) : exn + NameSet :=
    match vector with
    | [] => inr (set_add (name EPSILON) output)
    | s :: vector' =>
        if term s then inr (set_add (name s) output)
        else match alist_get (name s) F with
             | None => inl (ValueError ("FIRST set does not contain " +:+ repr_str (name s)))
             | Some fs =>
                 let output :=
                   foldl (λ out n, if bool_decide (n = name EPSILON) then out
                                   else set_add n out) output fs in
                 if bool_decide (name EPSILON ∈ fs)
                 then calculate_first_set F vector' output
                 else inr output
             end
    end.

Definition vector_first_set (F : list (string * NameSet))
      (vector : list Symbol) : exn + NameSet :=
    calculate_first_set F vector [].

Definition init_first (g : Grammar) : list (string * NameSet) :=
    alist_set "#" ["#"] (alist_set "$" ["$"]
      ((λ e : string * Symbol, (e.1, if term e.2 then [e.1] else [])) <$> symbol g)).

  (** the names of [first] missing from [FIRST[symbol]] are added *)
Definition absorb (sym : string) (first : NameSet)
      (st : list (string * NameSet) * nat) : exn + (list (string * NameSet) * nat) :=
    match alist_get sym st.1 with
    | None => if bool_decide (first = []) then inr st else inl (KeyError sym)
    | Some cur =>
        let new := filter (λ n, n ∉ cur) first in
        inr (alist_set sym (foldl (λ s n, set_add n s) cur first) st.1,
             (st.2 + length new)%nat)
    end.

Fixpoint first_rules (ps : list Production) (sym : string)
      (rules : list nat) (st : list (string * NameSet) * nat)
    : exn + (list (string * NameSet) * nat) :=
    match rules with
    | [] => inr st
    | k :: rules' =>
        match ps !! k with
        | None => inl IndexError
        | Some p =>
            match vector_first_set st.1 (body p) with
            | inl e => inl e
            | inr first =>
                match absorb sym first st with
                | inl e => inl e
                | inr st' => first_rules ps sym rules' st'
                end
            end
        end
    end.

  (** the keys of [self.nonterminal], as [__build_info] fills it *)
Definition nonterminal (inf : list (string * SymbolInfo)) : NameSet :=
    foldl (λ acc (e : string * SymbolInfo),
             if term (i_symbol e.2) then acc
             else set_add (name (i_symbol e.2)) acc) [] inf.

  (** one round over the nonterminals *)
Fixpoint first_pass (ps : list Production) (inf : list (string * SymbolInfo))
      (nts : list string) (st : list (string * NameSet) * nat)
    : exn + (list (string * NameSet) * nat) :=
    match nts with
    | [] => inr st
    | sym :: nts' =>
        match alist_get sym inf with
        | None => inl (KeyError sym)
        | Some i =>
            match first_rules ps sym (i_rules i) st with
            | inl e => inl e
            | inr st' => first_pass ps inf nts' st'
            end
        end
    end.

Fixpoint first_loop (fuel : nat) (ps : list Production)
      (inf : list (string * SymbolInfo)) (F : list (string * NameSet))
    : outcome (list (string * NameSet)) :=
    match fuel with
    | O => OutOfFuel
    | S fuel' =>
        match first_pass ps inf (nonterminal inf) (F, 0%nat) with
        | inl e => Raised e
        | inr (F', changes) =>
            if bool_decide (changes = 0%nat) then Done F'
            else first_loop fuel' ps inf F'
        end
    end.

  (** the lists of [g.rule] hold the production objects of [g.production] *)
Definition refresh (ps : list Production) (l : list Production)
    : list Production :=
    (λ p, default p (ps !! Z.to_nat (index p))) <$> l.

Definition with_production (ps : list Production) (g : Grammar) : Grammar :=
    {| production := ps; symbol := symbol g; terminal := terminal g;
       rule := refresh ps <$> rule g; g_precedence := g_precedence g; assoc := assoc g;
       _anchor := _anchor g; _dirty := _dirty g; scanner := scanner g;
       start := start g |}.

  (** the analysis of a grammar whose tables are up to date: [__build_info],
      [__update_epsilon] and [__update_first_set] *)
Definition analyze (fuel : nat) (g : Grammar) : outcome GrammarAnalyzer :=
    match update_epsilon fuel (production g) (build_info g) with
    | Raised e => Raised e
    | OutOfFuel => OutOfFuel
    | Done (ps, inf) =>
        match first_loop fuel ps inf (init_first g) with
        | Raised e => Raised e
        | OutOfFuel => OutOfFuel
        | Done F =>
            Done {| ga_g := with_production ps g; info := inf; FIRST := F |}
        end
    end.

  (** [process(expand_action)] up to the FIRST sets *)
Definition process (fuel : nat) (expand_action : bool) (g : Grammar)
    : outcome GrammarAnalyzer :=
    let g := if expand_action then Lifting.__argument_semantic_action g else g in
    let g := if _dirty g then update g else g in
    analyze fuel g.

End Analyzer.

(** ** Sample grammars *)

Module Samples.

  (** what the loader does for one alternative: the production is appended
      and anchored at its source line *)
Definition add_rule_at (h : Symbol) (b : list Symbol) (prec : option string)
      (line : Z) (g : Grammar) : Grammar :=
    let p := new_Production h b in
    let p := {| head := head p; body := body p; index := index p;
                is_epsilon := None; has_epsilon := None;
                precedence := prec; action := None; parent := None |} in
    anchor_set (AnchorProduction p) (Some "") (Some line) (append p g).

Definition with_start (s : Symbol) (g : Grammar) : Grammar :=
    {| production := production g; symbol := symbol g; terminal := terminal g;
       rule := rule g; g_precedence := g_precedence g; assoc := assoc g;
       _anchor := _anchor g; _dirty := _dirty g; scanner := scanner g;
       start := Some s |}.

Definition nt (n : string) : Symbol := mkSymbol n false.
Definition tm (n : string) : Symbol := mkSymbol n true.

  (** [%left '*'] and [E: E '+' E | E '*' E | number], augmented *)
Definition expr_source : Grammar :=
    Eval vm_compute in
    update (with_start (nt "E")
      (add_rule_at (nt "E") [tm "number"] None 3
      (add_rule_at (nt "E") [nt "E"; tm "'*'"; nt "E"] None 2
      (add_rule_at (nt "E") [nt "E"; tm "'+'"; nt "E"] None 2
      (push_precedence "'*'" 0 "left"
      (push_token "number" (push_token "'*'" (push_token "'+'"
         Grammar_init)))))))).

Definition expr_grammar : Grammar :=
    Eval vm_compute in
    match augment expr_source with inr g => g | inl _ => expr_source end.

Definition sample_rule (g : Grammar) (i : nat) : Production :=
    default (new_Production EPSILON []) (production g !! i).

Definition expr_plus : Production := Eval vm_compute in sample_rule expr_grammar 1.
Definition expr_times : Production := Eval vm_compute in sample_rule expr_grammar 2.

  (** the cell under ['+'] of the state that holds [E: E '*' E .] and
      [E: E . '+' E] *)
Definition expr_shift : Action := mkAction SHIFT 3 (Some expr_plus).
Definition expr_reduce : Action := mkAction REDUCE 2 (Some expr_times).

  (** the cell under ['*'] of the state that holds [E: E '+' E .] and
      [E: E . '*' E] *)
Definition expr_shift_times : Action := mkAction SHIFT 4 (Some expr_times).
Definition expr_reduce_plus : Action := mkAction REDUCE 1 (Some expr_plus).

  (** [%left P] and [S: A 'y' | B 'y'; A: 'x'; B: 'x' %prec P], augmented *)
Definition rr_source : Grammar :=
    Eval vm_compute in
    update (with_start (nt "S")
      (add_rule_at (nt "B") [tm "'x'"] (Some "P") 3
      (add_rule_at (nt "A") [tm "'x'"] None 2
      (add_rule_at (nt "S") [nt "B"; tm "'y'"] None 1
      (add_rule_at (nt "S") [nt "A"; tm "'y'"] None 1
      (push_precedence "P" 0 "left"
      (push_token "'y'" (push_token "'x'" Grammar_init)))))))).

Definition rr_grammar : Grammar :=
    Eval vm_compute in
    match augment rr_source with inr g => g | inl _ => rr_source end.

Definition rr_rule_A : Production := Eval vm_compute in sample_rule rr_grammar 3.
Definition rr_rule_B : Production := Eval vm_compute in sample_rule rr_grammar 4.

  (** the cell under ['y'] of the state reached on ['x'] *)
Definition rr_reduce_A : Action := mkAction REDUCE 3 (Some rr_rule_A).
Definition rr_reduce_B : Action := mkAction REDUCE 4 (Some rr_rule_B).

  (** [S: 'if' NAME ;] with [@match NAME \w+]; the scanner stands for a
      regular-expression engine that found the word [if] by the rule of
      [NAME] *)
Definition push_scanner (obj : list string) (g : Grammar) : Grammar :=
    {| production := production g; symbol := symbol g; terminal := terminal g;
       rule := rule g; g_precedence := g_precedence g; assoc := assoc g;
       _anchor := _anchor g; _dirty := _dirty g;
       scanner := scanner g ++ [obj]; start := start g |}.

Definition kw_grammar : Grammar :=
    Eval vm_compute in
    update (with_start (nt "S")
      (add_rule_at (nt "S") [tm "'if'"; tm "NAME"] None 1
      (push_scanner ["match"; "NAME"; "\w+"]
      (push_token "NAME" (push_token "'if'" Grammar_init))))).

Definition kw_finditer (patterns : list string) (code : string)
    : list (nat * string * nat) := [(0%nat, "if", 0%nat)].

Definition kw_lexer : Lexer :=
    match open_lexer strip_ends ∅ None kw_grammar with
    | inr lx => lx
    | inl _ => Lexer.init
    end.

Definition kw_token : Token := mkToken "NAME" (VStr "if") (Some 1%Z) (Some 1%Z).

  (** [S: 'a' {make} ;], augmented, and its LR(1) table after conflict
      resolution: state 1 is reached on [S], state 2 on ['a'] *)
Definition with_action (a : ActionMap) (p : Production) : Production :=
    {| head := head p; body := body p; index := index p;
       is_epsilon := is_epsilon p; has_epsilon := has_epsilon p;
       precedence := precedence p; action := Some a; parent := parent p |}.

Definition tagged_source : Grammar :=
    Eval vm_compute in
    update (with_start (nt "S")
      (append (with_action [(1%nat, [("{make}", 1%nat)])]
                 (new_Production (nt "S") [tm "'a'"]))
         (push_token "'a'" Grammar_init))).

Definition tagged_grammar : Grammar :=
    Eval vm_compute in
    match augment tagged_source with inr g => g | inl _ => tagged_source end.

Definition tagged_table : LRTable :=
    {| tab_head := [tm "'a'"; EOF; nt "S"];
       rows :=
         [ [("S", [mkAction SHIFT 1 (production tagged_grammar !! 0%nat)]);
            ("'a'", [mkAction SHIFT 2 (production tagged_grammar !! 1%nat)])];
           [("$", [mkAction ACCEPT 0 (production tagged_grammar !! 0%nat)])];
           [("$", [mkAction REDUCE 1 (production tagged_grammar !! 1%nat)])] ] |}.

Definition token_a : Token := mkToken "'a'" (VStr "a") (Some 1%Z) (Some 1%Z).

  (** the driver opened on the input [a], without semantic actions *)
Definition tagged_pda : Py PDA := PDA.open tagged_grammar tagged_table [token_a] None.

  (** the same driver with an object that has the one method [other] *)
Definition tagged_pda_with_object : Py PDA :=
    m ← tagged_pda;
    mret (PDA.install_semantic_action [("other", λ _ _, inr VNone)] m).

Definition run_from (fuel : nat) (start : Py PDA)
    : Py (option (PyValue * PDA)) :=
    m ← start; PDA.run fuel m.

  (** [A: 'x' {tag} 'y' {done} ;] *)
Definition mid_source : Grammar :=
    Eval vm_compute in
    update (with_start (nt "A")
      (append (with_action [(1%nat, [("{tag}", 1%nat)]);
                            (2%nat, [("{done}", 2%nat)])]
                 (new_Production (nt "A") [tm "'x'"; tm "'y'"]))
         (push_token "'y'" (push_token "'x'" Grammar_init)))).

  (** the same grammar after [%token M@1] *)
Definition mid_clash_source : Grammar :=
    Eval vm_compute in
    update (with_start (nt "A")
      (append (with_action [(1%nat, [("{tag}", 1%nat)]);
                            (2%nat, [("{done}", 2%nat)])]
                 (new_Production (nt "A") [tm "'x'"; tm "'y'"]))
         (push_token "'y'" (push_token "'x'" (push_token "M@1" Grammar_init))))).

Definition mid_rule : Production := Eval vm_compute in sample_rule mid_source 0.
Definition mid_actions : ActionMap :=
    [(1%nat, [("{tag}", 1%nat)]); (2%nat, [("{done}", 2%nat)])].

  (** [A: 'x' 'y' {done} ;]: no action before the end *)
Definition end_source : Grammar :=
    Eval vm_compute in
    update (with_start (nt "A")
      (append (with_action [(2%nat, [("{done}", 2%nat)])]
                 (new_Production (nt "A") [tm "'x'"; tm "'y'"]))
         (push_token "'y'" (push_token "'x'" Grammar_init)))).


  (** [S: A B 'c' | B; A: | 'a'; B: A A; T: 'b' S] *)
Definition first_source : Grammar :=
    Eval vm_compute in
    with_start (nt "S")
      (add_rule_at (nt "T") [tm "'b'"; nt "S"] None 4
      (add_rule_at (nt "B") [nt "A"; nt "A"] None 3
      (add_rule_at (nt "A") [tm "'a'"] None 2
      (add_rule_at (nt "A") [] None 2
      (add_rule_at (nt "S") [nt "B"] None 1
      (add_rule_at (nt "S") [nt "A"; nt "B"; tm "'c'"] None 1
      (push_token "'c'" (push_token "'b'" (push_token "'a'"
         Grammar_init))))))))).

  (** its analysis, and the info of [S] *)
Definition first_analysis : GrammarAnalyzer :=
    Eval vm_compute in
    match Analyzer.process 10 true first_source with
    | Done az => az
    | _ => {| ga_g := first_source; info := []; FIRST := [] |}
    end.

Definition first_info_S : SymbolInfo :=
    Eval vm_compute in
    default (mkSymbolInfo (nt "S") [] None None)
      (alist_get "S" (info first_analysis)).

End Samples.

(** ** Predicates of the statements *)

(** A line printed by [warning_rule]. *)
Definition is_warning (line : string) : Prop :=
  ∃ rest, line = "error: warning:" +:+ rest.

(** The production of an action has a source anchor with a line number. *)
Definition has_line (g : Grammar) (r : Production) : Prop :=
  is_Some (anchor_get g (AnchorProduction r)).2.

(** the result of a solver run on a cell: the action left and the lines
    printed *)
Definition solved (g : Grammar) (state : Z) (cell : Cell) (final : Action)
    (log : list string) : Prop :=
  run_py (ConflictSolver._solve_conflict g state cell) = (inr [final], log).

(** the action [_compare_rule] keeps when a production lacks its tag *)
Definition kept_untagged (a1 a2 : Action) (p1 p2 : option string) : Action :=
  match p1, p2 with
  | None, Some _ => a2
  | _, _ => a1
  end.

(** every entry of the literal table is the quoted form of its key *)
Definition literal_quoted (lx : Lexer) : Prop :=
  ∀ k v, alist_get k (literal lx) = Some v → v = cstring.string_quote k false.

(** a text is registered as a literal terminal of [g] when it is the
    unquoted name of a terminal of [g] whose name is quoted *)
Definition literal_of (string_unquote : string → string) (g : Grammar)
    (text : string) : Prop :=
  ∃ t, t ∈ terminal g ∧ cstring.string_is_quoted (name t.2) = true
       ∧ string_unquote (name t.2) = text.

(** the driver is running and the table holds [Accept] for its top state
    and its lookahead *)
Definition executes_accept (m : PDA) : Prop :=
  ∃ lookahead state action,
    current m = Some lookahead ∧ PDA.is_stopped m = false ∧
    last (state_stack m) = Some state ∧ PDA.in_table m state = true ∧
    PDA.tab_get m state (t_name lookahead) = Some [action] ∧
    a_name action = ACCEPT.

(** the tag has a method in the installed object, and the method returns *)
Definition registered (callback : list (string * SemCallback))
    (parent : Production) (a : SemAction) : Prop :=
  ∃ f, alist_get (PDA.callback_name a.1) callback = Some f ∧
       ∀ args, ∃ v, f parent args = inr v.

(** the production [__rule_eval] hands to the callbacks *)
Definition parent_of (m : PDA) (rule : Production) : Production :=
  match parent rule with
  | Some i => default rule (production (pda_g m) !! i)
  | None => rule
  end.

(** the driver of the sample after its shift and its reduction: the table
    holds [Accept] for state 1 under [$] *)
Definition tagged_before_accept : PDA :=
  match run_py (m ← Samples.tagged_pda; r ← PDA.step m; r ← PDA.step r.2; mret r.2) with
  | (inr m, _) => m
  | (inl _, _) => mkPDA Samples.tagged_grammar Samples.tagged_table [] None
                    true [] [] [] [] None None false None VNone ""
  end.

(** the driver of the sample, with the object installed, at its reduction *)
Definition tagged_before_reduce : PDA :=
  match run_py (m ← Samples.tagged_pda_with_object; r ← PDA.step m; mret r.2) with
  | (inr m, _) => m
  | (inl _, _) => mkPDA Samples.tagged_grammar Samples.tagged_table [] None
                    true [] [] [] [] None None false None VNone ""
  end.

(** the number of positions with actions among [from, from + count) *)
Definition sites (a : ActionMap) (from count : nat) : nat :=
  length (filter (λ q, alist_mem q a = true) (seq from count)).

(** the number of mid-rule action sites of a production, and of the
    productions in front of position [i] *)
Definition rule_sites (p : Production) : nat :=
  sites (default [] (action p)) 0 (length (body p)).

Definition sites_before (g : Grammar) (i : nat) : nat :=
  sum_list (rule_sites <$> take i (production g)).

(** no production of the grammar has an action before the end of its body *)
Definition no_mid_action (g : Grammar) : Prop :=
  Forall (λ p, Lifting.has_mid_action p = false) (production g).

(** what identifies a production and its actions *)
Definition rule_view (p : Production)
  : string * list string * option ActionMap :=
  (name (head p), name <$> body p, action p).


(** the head name and the body of a production *)
Definition shape (p : Production) : string * list Symbol :=
  (name (head p), body p).

(** a name derives the empty string: one of its productions has a body of
    nonterminals that all do *)
Inductive nullable (sh : list (string * list Symbol)) : string → Prop :=
  | nullable_rule N b :
      (N, b) ∈ sh →
      (∀ s, s ∈ b → term s = false) →
      (∀ s, s ∈ b → nullable sh (name s)) →
      nullable sh N.

(** no production carries an ε flag yet *)
Definition fresh (g : Grammar) : Prop :=
  ∀ p, p ∈ production g → is_epsilon p = None ∧ has_epsilon p = None.

(** [self.FIRST[N]], empty when the name has no entry *)
Definition first_of (az : GrammarAnalyzer) (N : string) : NameSet :=
  default [] (alist_get N (FIRST az)).


(** *** Invariants of the ε and FIRST loops *)

(** what stays of the symbol infos while the flags change *)
Definition skeleton (inf : list (string * SymbolInfo))
  : list (string * (Symbol * list nat)) :=
  (λ e : string * SymbolInfo, (e.1, (i_symbol e.2, i_rules e.2))) <$> inf.

(** a body of nonterminals that all derive the empty string *)
Definition rule_null (sh : list (string * list Symbol)) (b : list Symbol)
  : Prop :=
  ∀ s, s ∈ b → term s = false ∧ nullable sh (name s).

(** a flag that is set tells the truth about [P] *)
Definition sound_flags (P : Prop) (is_eps has_eps : option bool) : Prop :=
  (is_eps = Some true → P) ∧ (has_eps = Some true → P) ∧
  (is_eps = Some false → ¬ P) ∧ (has_eps = Some false → ¬ P).

(** the tables [Grammar.update] leaves, as the loops use them: [sh] lists
    the productions, [SK] the symbols with the indices of their rules *)
Record tables_ok (sh : list (string * list Symbol))
    (SK : list (string * (Symbol * list nat))) : Prop := mkTablesOk {
  tbl_nodup : NoDup SK.*1;
  tbl_name : ∀ k s rs, (k, (s, rs)) ∈ SK → name s = k;
  tbl_rules : ∀ k s rs n, (k, (s, rs)) ∈ SK →
                n ∈ rs ↔ ∃ b, sh !! n = Some (k, b);
  tbl_body : ∀ N b s, (N, b) ∈ sh → s ∈ b →
               ∃ s' rs, (name s, (s', rs)) ∈ SK ∧ term s' = term s;
  tbl_body_term : ∀ N b s, (N, b) ∈ sh → s ∈ b → term s = true → name s ≠ "";
  tbl_term : ∀ k s rs, (k, (s, rs)) ∈ SK → term s = true → k ≠ "";
}.

Definition eps_inv (sh : list (string * list Symbol))
    (SK : list (string * (Symbol * list nat)))
    (ps : list Production) (inf : list (string * SymbolInfo)) : Prop :=
  shape <$> ps = sh ∧ skeleton inf = SK ∧
  (∀ p, p ∈ ps →
     sound_flags (rule_null sh (body p)) (is_epsilon p) (has_epsilon p)) ∧
  (∀ k i, (k, i) ∈ inf → term (i_symbol i) = false →
     sound_flags (nullable sh k) (i_is_epsilon i) (i_has_epsilon i) ∧
     (i_rules i = [] → is_Some (i_is_epsilon i) ∧ is_Some (i_has_epsilon i))).

(** a round of the ε loop that changes nothing *)
Definition eps_stable (ps : list Production)
    (inf : list (string * SymbolInfo)) : Prop :=
  (∀ p, p ∈ ps → Analyzer.update_epsilon_production inf p = inr (p, 0%nat)) ∧
  (∀ k i, (k, i) ∈ inf → Analyzer.update_epsilon_symbol ps i = (i, 0%nat)).

(** ε in a FIRST set only for names that derive the empty string *)
Definition first_inv (sh : list (string * list Symbol))
    (F : list (string * NameSet)) : Prop :=
  ∀ N fs, alist_get N F = Some fs → "" ∈ fs → nullable sh N.

(** a round of the FIRST loop that changes nothing *)
Definition first_stable (ps : list Production)
    (inf : list (string * SymbolInfo)) (F : list (string * NameSet)) : Prop :=
  ∀ N i n p, (N, i) ∈ inf → term (i_symbol i) = false → n ∈ i_rules i →
    ps !! n = Some p →
    ∃ first, Analyzer.vector_first_set F (body p) = inr first ∧
             (first = [] ∨ ∃ cur, alist_get N F = Some cur ∧ first ⊆ cur).


(** the driver of the sample, without an object, at its reduction *)
Definition tagged_before_reduce_plain : PDA :=
  match run_py (m ← Samples.tagged_pda; r ← PDA.step m; mret r.2) with
  | (inr m, _) => m
  | (inl _, _) => mkPDA Samples.tagged_grammar Samples.tagged_table [] None
                    true [] [] [] [] None None false None VNone ""
  end.


(** the invariant of the ε loop before the flags are initialised *)
Definition eps_pre (sh : list (string * list Symbol))
    (SK : list (string * (Symbol * list nat)))
    (ps : list Production) (inf : list (string * SymbolInfo)) : Prop :=
  shape <$> ps = sh ∧ skeleton inf = SK ∧
  (∀ p, p ∈ ps →
     sound_flags (rule_null sh (body p)) (is_epsilon p) (has_epsilon p)) ∧
  (∀ k i, (k, i) ∈ inf → term (i_symbol i) = false →
     sound_flags (nullable sh k) (i_is_epsilon i) (i_has_epsilon i)).

(** * Conflict resolution *)

Section solver_facts.
Context (g : Grammar) (state : Z).
Import ConflictSolver.

Lemma warning_rule_ok r text log :
    has_line g r →
    ∃ line, warning_rule g (Some r) text log = (inr (), log ++ [line])
            ∧ is_warning line.
  Proof.
    intros [line Hl]. unfold warning_rule. simpl. rewrite Hl.
    eexists. split; [reflexivity|]. eexists. 
    unfold LOG_ERROR, print. simpl. reflexivity.
  Qed.
End solver_facts.


(** ** Running [Py] computations *)

Lemma Py_bind_run {A B : Type} (m : Py A) (f : A → Py B) log :
  (m ≫= f) log =
  match m log with
  | (inl e, log') => (inl e, log')
  | (inr a, log') => f a log'
  end.
Proof. reflexivity. Qed.

Lemma Py_ret_run {A : Type} (a : A) log : (mret a : Py A) log = (inr a, log).
Proof. reflexivity. Qed.

Lemma Py_bind_ok {A B : Type} (m : Py A) (f : A → Py B) log a log' :
  m log = (inr a, log') → (m ≫= f) log = f a log'.
Proof. intros E. by rewrite Py_bind_run, E. Qed.

Lemma Py_bind_raise {A B : Type} (m : Py A) (f : A → Py B) log e log' :
  m log = (inl e, log') → (m ≫= f) log = (inl e, log').
Proof. intros E. by rewrite Py_bind_run, E. Qed.

Section shift_reduce.
Context (g : Grammar) (state : Z).
Import ConflictSolver.

Lemma warning_conflict_ok a1 a2 r log :
    a_rule a1 = Some r → has_line g r →
    ∃ line, warning_conflict g state a1 a2 log = (inr (), log ++ [line])
            ∧ is_warning line.
  Proof.
    intros Hr Hl. unfold warning_conflict. rewrite Hr.
    by apply warning_rule_ok.
  Qed.

Ltac run_solver :=
    unfold solved, run_py, _solve_conflict, fold_compare, _compare_rule,
      rule_precedence, warning_conflict, _pick_shift, _pick_reduce,
      warning_rule, rule_anchor, LOG_ERROR, print, raise;
    rewrite ?Py_bind_run, ?Py_ret_run.

Ltac warned :=
    eexists; split; [reflexivity|]; split; [done|];
    repeat constructor; eexists; reflexivity.

Lemma shift_first sh rd rs rr :
    a_name sh = SHIFT → a_name rd = REDUCE →
    a_rule sh = Some rs → a_rule rd = Some rr →
    precedence rr = None →
    has_line g rs → has_line g rr →
    ∃ log, solved g state [sh; rd] sh log ∧ log ≠ [] ∧ Forall is_warning log.
  Proof.
    intros Hsh Hrd Hrs Hrr Hp [ls Hls] [lr Hlr]. run_solver.
    rewrite Hrs, Hrr, Hp, Hsh.
    destruct (precedence rs) as [n1|] eqn:Hps; cbn;
      rewrite ?Hls, ?Hlr; cbn; warned.
  Qed.

Lemma reduce_first sh rd rs rr :
    a_name sh = SHIFT → a_name rd = REDUCE →
    a_rule sh = Some rs → a_rule rd = Some rr →
    precedence rr = None →
    has_line g rs → has_line g rr →
    ∃ log, solved g state [rd; sh] sh log ∧ log ≠ [] ∧ Forall is_warning log.
  Proof.
    intros Hsh Hrd Hrs Hrr Hp [ls Hls] [lr Hlr]. run_solver.
    rewrite Hrs, Hrr, Hp, Hsh, Hrd.
    destruct (precedence rs) as [n1|] eqn:Hps; cbn;
      rewrite ?Hls, ?Hlr; cbn; warned.
  Qed.

  (** C1 (amended): in a cell holding a shift and a reduce action whose
      productions carry a source line, if the reducing production has no
      precedence tag the solver prints warnings and the cell is collapsed to
      the shift action, whichever of the two the cell yields first. *)
Theorem shift_reduce_untagged_keeps_shift sh rd rs rr cell :
    a_name sh = SHIFT → a_name rd = REDUCE →
    a_rule sh = Some rs → a_rule rd = Some rr →
    precedence rr = None →
    has_line g rs → has_line g rr →
    cell = [sh; rd] ∨ cell = [rd; sh] →
    ∃ log, solved g state cell sh log ∧ log ≠ [] ∧ Forall is_warning log.
  Proof.
    intros Hsh Hrd Hrs Hrr Hp Hls Hlr [-> | ->].
    - by eapply shift_first.
    - by eapply reduce_first.
  Qed.
End shift_reduce.

Import ConflictSolver Samples.

Lemma shift_reduce_untagged_keeps_shift_witness :
  ∃ log, solved expr_grammar 4 [expr_reduce_plus; expr_shift_times]
           expr_shift_times log ∧ log ≠ [] ∧ Forall is_warning log.
Proof.
  eapply (shift_reduce_untagged_keeps_shift expr_grammar 4
            expr_shift_times expr_reduce_plus expr_times expr_plus).
  - reflexivity.
  - reflexivity.
  - reflexivity.
  - reflexivity.
  - reflexivity.
  - vm_compute. eexists. reflexivity.
  - vm_compute. eexists. reflexivity.
  - right. reflexivity.
Defined.

(** C1 as stated fails: under ['+'], a terminal without declared
    precedence, the cell of [E: E '*' E .] and [E: E . '+' E] is collapsed
    to the reduce action, in either order of the cell. *)
Lemma shift_reduce_lookahead_counterexample :
  a_name expr_shift = SHIFT ∧ a_name expr_reduce = REDUCE ∧
  g_precedence expr_grammar !! "'+'" = None ∧
  (run_py (_solve_conflict expr_grammar 4 [expr_shift; expr_reduce])).1
    = inr [expr_reduce] ∧
  (run_py (_solve_conflict expr_grammar 4 [expr_reduce; expr_shift])).1
    = inr [expr_reduce] ∧
  expr_reduce ≠ expr_shift.
Proof.
  split; [reflexivity|]. split; [reflexivity|].
  split; [by vm_compute|]. split; [by vm_compute|]. split; [by vm_compute|].
  discriminate.
Qed.

Section reduce_reduce.
Context (g : Grammar) (state : Z).

  (** C2 (amended): in a cell holding two reduce actions whose productions
      carry a source line, if at least one production lacks a precedence tag
      the solver prints a warning; the cell is collapsed to the action of the
      tagged production if there is one, and to the action the cell yields
      first if both lack the tag. *)
Theorem reduce_reduce_untagged a1 a2 r1 r2 :
    a_name a1 = REDUCE → a_name a2 = REDUCE →
    a_rule a1 = Some r1 → a_rule a2 = Some r2 →
    precedence r1 = None ∨ precedence r2 = None →
    has_line g r1 → has_line g r2 →
    ∃ log, solved g state [a1; a2]
             (kept_untagged a1 a2 (precedence r1) (precedence r2)) log
           ∧ log ≠ [] ∧ Forall is_warning log.
  Proof.
    intros H1 H2 Hr1 Hr2 Hp [l1 Hl1] [l2 Hl2].
    unfold solved, run_py, _solve_conflict, fold_compare, _compare_rule,
      rule_precedence, warning_conflict, _pick_shift, _pick_reduce,
      warning_rule, rule_anchor, LOG_ERROR, print, raise.
    rewrite Hr1, Hr2, H1, H2.
    destruct (precedence r1) as [n1|], (precedence r2) as [n2|];
      [by destruct Hp| | |]; cbn; rewrite ?Hl1, ?Hl2; cbn;
      (eexists; split; [reflexivity|]; split; [done|];
       repeat constructor; eexists; reflexivity).
  Qed.
End reduce_reduce.

Lemma reduce_reduce_untagged_witness :
  ∃ log, solved rr_grammar 4 [rr_reduce_A; rr_reduce_B] rr_reduce_B log
         ∧ log ≠ [] ∧ Forall is_warning log.
Proof.
  eapply (reduce_reduce_untagged rr_grammar 4 rr_reduce_A rr_reduce_B
            rr_rule_A rr_rule_B).
  - reflexivity.
  - reflexivity.
  - reflexivity.
  - reflexivity.
  - left. reflexivity.
  - vm_compute. eexists. reflexivity.
  - vm_compute. eexists. reflexivity.
Defined.

(** C2 as stated fails: [A: 'x'] (index 3, no tag) and [B: 'x' %prec P]
    (index 4) meet under ['y']; the cell keeps the reduce by production 4,
    in either order of the cell. *)
Lemma reduce_reduce_lower_index_counterexample :
  a_name rr_reduce_A = REDUCE ∧ a_name rr_reduce_B = REDUCE ∧
  (precedence <$> a_rule rr_reduce_A) = Some None ∧
  (target rr_reduce_A < target rr_reduce_B)%Z ∧
  (run_py (_solve_conflict rr_grammar 4 [rr_reduce_A; rr_reduce_B])).1
    = inr [rr_reduce_B] ∧
  (run_py (_solve_conflict rr_grammar 4 [rr_reduce_B; rr_reduce_A])).1
    = inr [rr_reduce_B].
Proof.
  split; [reflexivity|]. split; [reflexivity|]. split; [by vm_compute|].
  split; [by vm_compute|]. split; by vm_compute.
Qed.

(** * Literal interception in the lexer *)

Section alist.
Context {V : Type}.
Implicit Types (d : list (string * V)) (k : string) (v : V).

Lemma alist_get_set_eq k v d : alist_get k (alist_set k v d) = Some v.
  Proof.
    induction d as [|[k' v'] d IH]; simpl.
    - by rewrite bool_decide_eq_true_2.
    - destruct (bool_decide (k' = k)) eqn:E; simpl; rewrite E; [done|apply IH].
  Qed.

Lemma alist_get_set_ne k k' v d :
    k ≠ k' → alist_get k' (alist_set k v d) = alist_get k' d.
  Proof.
    intros Hne. induction d as [|[k0 v0] d IH]; simpl.
    - by rewrite bool_decide_eq_false_2.
    - destruct (bool_decide (k0 = k)) eqn:E; simpl.
      + apply bool_decide_eq_true_1 in E as ->.
        by rewrite bool_decide_eq_false_2.
      + destruct (bool_decide (k0 = k')); [done|apply IH].
  Qed.

Lemma alist_mem_true k d : alist_mem k d = true ↔ is_Some (alist_get k d).
  Proof. unfold alist_mem. by rewrite bool_decide_eq_true. Qed.
End alist.

Lemma push_literal_quoted text lx :
  literal_quoted lx → literal_quoted (Lexer.push_literal text lx).
Proof.
  intros H k v. simpl. destruct (decide (text = k)) as [->|Hne].
  - rewrite alist_get_set_eq. by intros [= <-].
  - rewrite alist_get_set_ne by done. apply H.
Qed.

Lemma push_literal_registered text lx :
  is_Some (alist_get text (literal (Lexer.push_literal text lx))).
Proof. simpl. rewrite alist_get_set_eq. by eexists. Qed.

Lemma push_literal_keeps text k lx :
  is_Some (alist_get k (literal lx)) →
  is_Some (alist_get k (literal (Lexer.push_literal text lx))).
Proof.
  intros H. simpl. destruct (decide (text = k)) as [->|Hne].
  - rewrite alist_get_set_eq. by eexists.
  - by rewrite alist_get_set_ne.
Qed.

Section runtime_lexer.
Context (finditer : list string → string → list (nat * string * nat)).
Context (re_escape : string → string).
Context (string_unquote : string → string).
Context (PATTERN : gmap string string).
Context (matcher : option (string * list (string * (string → exn + (string * PyValue))))).


  (** the directives of the grammar leave the literal table and the
      interception switch alone *)
Lemma push_scanner_rules_literal scs lx lx' :
    push_scanner_rules PATTERN scs lx = inr lx' →
    literal lx' = literal lx ∧ intercept_literal lx' = intercept_literal lx.
  Proof.
    revert lx. induction scs as [|sc scs IH]; intros lx; simpl.
    - by intros [= <-].
    - destruct (push_scanner_rule PATTERN sc lx) as [e|lx1] eqn:E; [done|].
      intros H. apply IH in H as [H1 H2]. rewrite H1, H2. clear IH H1 H2.
      unfold push_scanner_rule in E. destruct sc as [|cmd args]; [done|].
      repeat case_match; simplify_eq; try done.
      all: unfold push_import_match, Lexer.push_match in *;
        repeat case_match; simplify_eq; done.
  Qed.

Lemma foldl_push_terminal_quoted ts lx :
    literal_quoted lx → literal_quoted (foldl (push_terminal string_unquote) lx ts).
  Proof.
    revert lx. induction ts as [|t ts IH]; intros lx H; simpl; [done|].
    apply IH. unfold push_terminal. case_match; [|done].
    by apply push_literal_quoted.
  Qed.

Lemma foldl_push_terminal_intercept ts lx :
    intercept_literal (foldl (push_terminal string_unquote) lx ts) = intercept_literal lx.
  Proof.
    revert lx. induction ts as [|t ts IH]; intros lx; simpl; [done|].
    rewrite IH. unfold push_terminal. by case_match.
  Qed.

Lemma foldl_push_terminal_keeps ts k lx :
    is_Some (alist_get k (literal lx)) →
    is_Some (alist_get k (literal (foldl (push_terminal string_unquote) lx ts))).
  Proof.
    revert lx. induction ts as [|t ts IH]; intros lx H; simpl; [done|].
    apply IH. unfold push_terminal. case_match; [|done].
    by apply push_literal_keeps.
  Qed.

Lemma foldl_push_terminal_registered ts t lx :
    t ∈ ts → cstring.string_is_quoted (name t.2) = true →
    is_Some (alist_get (string_unquote (name t.2))
               (literal (foldl (push_terminal string_unquote) lx ts))).
  Proof.
    revert lx. induction ts as [|t0 ts IH]; intros lx Hin Hq.
    - by apply elem_of_nil in Hin.
    - apply elem_of_cons in Hin as [->|Hin]; simpl.
      + apply foldl_push_terminal_keeps. unfold push_terminal.
        rewrite Hq. apply push_literal_registered.
      + by apply IH.
  Qed.

Lemma open_lexer_literal g lx text :
    open_lexer string_unquote PATTERN matcher g = inr lx → literal_of string_unquote g text →
    intercept_literal lx = true ∧
    alist_get text (literal lx) = Some (cstring.string_quote text false).
  Proof.
    unfold open_lexer.
    destruct (push_scanner_rules PATTERN (scanner g) Lexer.init)
      as [e|lx0] eqn:E; [done|].
    intros [= <-] (t & Hin & Hq & <-). simpl.
    apply push_scanner_rules_literal in E as [El Ei].
    split.
    - by rewrite foldl_push_terminal_intercept, Ei.
    - destruct (foldl_push_terminal_registered (terminal g) t lx0 Hin Hq)
        as [v Hv].
      rewrite Hv. f_equal.
      eapply (foldl_push_terminal_quoted (terminal g) lx0); [|done].
      intros k v'. rewrite El. done.
  Qed.

  (** C10: the lexer the driver opens for a grammar rewrites the name of
      every scanned token whose name is not quoted and whose string value is
      the text of a literal terminal of the grammar to the single-quoted form
      of that value, whichever rule matched the token; value, line and
      column are kept. *)
Theorem literal_interception_by_value g lx code toks e i tok text :
    open_lexer string_unquote PATTERN matcher g = inr lx →
    tokenize_raw finditer lx (Lexer.scanner_rules re_escape lx) code
      = (toks, e) →
    toks !! i = Some tok →
    cstring.string_is_quoted (t_name tok) = false →
    t_value tok = VStr text →
    literal_of string_unquote g text →
    (Lexer_tokenize finditer re_escape lx code).1 !! i
      = Some (mkToken (cstring.string_quote text false) (VStr text)
                (t_line tok) (t_column tok)).
  Proof.
    intros Ho Hraw Hi Hq Hv Hlit.
    destruct (open_lexer_literal g lx text Ho Hlit) as [Hint Hget].
    unfold Lexer_tokenize. rewrite Hraw. simpl.
    rewrite list_lookup_fmap, Hi. simpl. f_equal.
    unfold Lexer.intercept, Lexer.__convert_to_literal.
    rewrite Hv, Hq, Hint, Hget.
    assert (alist_mem text (literal lx) = true) as ->; [|done].
    apply alist_mem_true. rewrite Hget. by eexists.
  Qed.
End runtime_lexer.

Import Samples.

Lemma literal_interception_by_value_witness :
  (Lexer_tokenize kw_finditer id kw_lexer "if").1 !! 0%nat
    = Some (mkToken "'if'" (VStr "if") (Some 1%Z) (Some 1%Z)).
Proof.
  apply (literal_interception_by_value kw_finditer id strip_ends ∅ None
           kw_grammar kw_lexer "if"
           [kw_token; mkToken "$" (VStr "") (Some 1%Z) (Some 3%Z)] None
           0%nat kw_token "if").
  - by vm_compute.
  - by vm_compute.
  - reflexivity.
  - reflexivity.
  - reflexivity.
  - exists ("'if'", mkSymbol "'if'" true). split; [|split].
    + vm_compute. apply list_elem_of_here.
    + reflexivity.
    + reflexivity.
Defined.

(** * The push-down driver *)

Section accept.
Import PDA.

Lemma py_nth_last {A : Type} (l : list A) : py_nth l (-1) = last l.
  Proof.
    unfold py_nth. simpl. destruct l as [|a l]; [done|].
    rewrite bool_decide_eq_true_2 || idtac.
    assert ((- Z.of_nat (length (a :: l)) <=? -1)%Z = true) as ->.
    { apply Z.leb_le. simpl length. lia. }
    rewrite last_lookup. f_equal. simpl length. lia.
  Qed.

Lemma step_accept m v log :
    executes_accept m → length (state_stack m) = 2%nat →
    last (value_stack m) = Some v →
    step m log = (inr (0%Z, set_accepted v m), log).
  Proof.
    intros (la & st & a & Hc & Hs & Hst & Hin & Hg & Ha) Hlen Hv.
    unfold is_stopped in Hs. apply orb_false_iff in Hs as [Hacc Herr].
    unfold step. rewrite Hc, Hacc, Herr, Hst, Hin. simpl negb. cbv iota.
    rewrite Hg, Ha, Hlen, py_nth_last, Hv. reflexivity.
  Qed.

  (** C4 (amended): when the driver executes an [Accept] action, with the
      two entries on its stack that the action asserts, it stops in the
      accepted state and the result it returns is the value on top of the
      value stack. *)
Theorem accept_returns_top m v fuel log :
    executes_accept m → length (state_stack m) = 2%nat →
    last (value_stack m) = Some v →
    ∃ m', run (S fuel) m log = (inr (Some (v, m')), log) ∧
          accepted m' = true ∧ result m' = v ∧ is_stopped m' = true.
  Proof.
    intros Hex Hlen Hv. exists (set_accepted v m).
    split; [|done].
    pose proof (step_accept m v log Hex Hlen Hv) as Hstep.
    destruct Hex as (la & st & a & Hc & Hs & _).
    simpl. rewrite Hs, Py_bind_run, Hstep. simpl.
    destruct fuel; reflexivity.
  Qed.
End accept.

Import Samples.

Lemma accept_returns_top_witness :
  ∃ m', PDA.run 1 tagged_before_accept []
        = (inr (Some (VNode (nt "S") [VStr "a"], m')), []) ∧
        accepted m' = true ∧ result m' = VNode (nt "S") [VStr "a"] ∧
        PDA.is_stopped m' = true.
Proof.
  apply (accept_returns_top tagged_before_accept (VNode (nt "S") [VStr "a"]) 0 []).
  - exists (mkToken "$" (VStr "") None None), 1%Z,
      (mkAction ACCEPT 0 (production tagged_grammar !! 0%nat)).
    by vm_compute.
  - by vm_compute.
  - by vm_compute.
Defined.

(** C4 as stated fails: on the input [a] the driver accepts with the tree
    of [S] as its result, the value on top of the value stack; the value
    beneath the top is the initial [None]. *)
Lemma accept_beneath_top_counterexample :
  ∃ m, (run_py (run_from 10 tagged_pda)).1
         = inr (Some (VNode (nt "S") [VStr "a"], m)) ∧
       accepted m = true ∧
       py_nth (value_stack m) (-1) = Some (result m) ∧
       py_nth (value_stack m) (-2) = Some VNone ∧
       result m ≠ VNone.
Proof. eexists. vm_compute. repeat split; done. Qed.

Section missing_callback.
Import PDA.
Context (m : PDA).
Hypothesis Hpar : length (value_stack m) = length (state_stack m).

Lemma window_ok (vs : list PyValue) (from count : nat) log :
    (from + count ≤ length vs)%nat →
    window vs from count log = (inr (take count (drop from vs)), log).
  Proof.
    revert from. induction count as [|count IH]; intros from Hle; simpl.
    - done.
    - destruct (lookup_lt_is_Some_2 vs from) as [v Hv]; [lia|].
      rewrite Hv, Py_bind_run, (IH (S from)) by lia. simpl.
      by rewrite (drop_S _ _ _ Hv).
  Qed.

Lemma generate_args_run size log :
    __generate_args m size log
    = (inr (if (length (state_stack m) <=? size)%nat then None
            else Some (take (S size)
                         (drop (length (state_stack m) - 1 - size)
                            (value_stack m)))), log).
  Proof.
    unfold __generate_args.
    destruct (length (state_stack m) <=? size)%nat eqn:E; [done|].
    apply Nat.leb_gt in E.
    rewrite Py_bind_run, window_ok by lia. done.
  Qed.

Lemma generate_args_ok size log :
    ∃ args, __generate_args m size log = (inr args, log).
  Proof. rewrite generate_args_run. by eexists. Qed.

  (** *** An object is installed *)

Section installed.
Context (callback : list (string * SemCallback)).
Hypothesis Hobj : _semantic_action m = Some callback.

Lemma execute_registered parent a log :
      registered callback parent a →
      ∃ v, __execute_action m parent a.1 a.2 log = (inr (1%nat, v), log).
    Proof.
      intros (f & Hf & Hret). unfold __execute_action.
      destruct (generate_args_ok a.2 log) as [args Ha].
      rewrite Py_bind_run, Ha, Hobj, Hf.
      destruct (Hret args) as [v ->]. by eexists.
    Qed.

Lemma execute_missing parent actname actsize log :
      alist_get (callback_name actname) callback = None →
      __execute_action m parent actname actsize log
      = (inl (KeyError ("action " +:+ actname +:+ " is not defined")), log).
    Proof.
      intros Hf. unfold __execute_action.
      destruct (generate_args_ok actsize log) as [args Ha].
      by rewrite Py_bind_run, Ha, Hobj, Hf.
    Qed.

Lemma run_actions_missing parent pre actname actsize post acc log :
      Forall (registered callback parent) pre →
      alist_get (callback_name actname) callback = None →
      run_actions m parent (pre ++ (actname, actsize) :: post) acc log
      = (inl (KeyError ("action " +:+ actname +:+ " is not defined")), log).
    Proof.
      intros Hpre Hmiss. revert acc.
      induction Hpre as [|a pre Ha Hpre IH]; intros acc; simpl.
      - by rewrite Py_bind_run, execute_missing.
      - destruct a as [n s].
        destruct (execute_registered parent (n, s) log Ha) as [v Hv].
        simpl in Hv. rewrite Py_bind_run, Hv. apply IH.
    Qed.

Lemma run_positions_missing parent size before acts after pre actname
        actsize post acc log :
      Forall (λ e, e.1 ≠ size) before →
      acts = pre ++ (actname, actsize) :: post →
      Forall (registered callback parent) pre →
      alist_get (callback_name actname) callback = None →
      ∃ log',
        run_positions m parent size (before ++ (size, acts) :: after) acc log
        = (inl (KeyError ("action " +:+ actname +:+ " is not defined")), log').
    Proof.
      intros Hbefore -> Hpre Hmiss. revert log.
      induction Hbefore as [|[pos a] before Hne _ IH]; intros log; simpl.
      - rewrite bool_decide_eq_true_2 by done.
        rewrite Py_bind_run, run_actions_missing by done. by eexists.
      - simpl in Hne. rewrite bool_decide_eq_false_2 by done.
        rewrite Py_bind_run. unfold LOG_ERROR, print. apply IH.
    Qed.
End installed.

  (** *** No object is installed *)

Section not_installed.
Hypothesis Hnone : _semantic_action m = None.

Lemma execute_ignored parent actname actsize log :
      __execute_action m parent actname actsize log = (inr (0%nat, VNone), log).
    Proof.
      unfold __execute_action.
      destruct (generate_args_ok actsize log) as [args Ha].
      by rewrite Py_bind_run, Ha, Hnone.
    Qed.

Lemma run_actions_ignored parent actions acc log :
      run_actions m parent actions acc log = (inr acc, log).
    Proof.
      revert acc. induction actions as [|[n s] actions IH]; intros acc; simpl.
      - done.
      - rewrite Py_bind_run, execute_ignored. simpl. apply IH.
    Qed.

Lemma run_positions_ignored parent size items acc : ∀ log,
      ∃ log', run_positions m parent size items acc log = (inr acc, log').
    Proof.
      induction items as [|[pos actions] items IH]; intros log; simpl.
      - by eexists.
      - case_bool_decide.
        + rewrite Py_bind_run, run_actions_ignored. apply IH.
        + rewrite Py_bind_run. unfold LOG_ERROR, print. apply IH.
    Qed.
End not_installed.

  (** C5 (amended): a reduction by a production whose handle is on the
      parallel stacks.  With a semantic-action object installed, a tag at
      the end position that has no method in the object, the tags before it
      having methods that return, makes the driver raise a [KeyError] that
      names the tag: no value is synthesized.  With no object installed the
      tags are ignored: whatever actions the production carries, the value
      of the reduction is the default node of the head over the values of
      the handle. *)
Theorem reduce_missing_callback_raises target rule log :
    py_nth (production (pda_g m)) target = Some rule →
    (length (body rule) < length (state_stack m))%nat →
    (∀ callback before acts after pre actname actsize post,
       _semantic_action m = Some callback →
       default [] (action rule) = before ++ (length (body rule), acts) :: after →
       Forall (λ e, e.1 ≠ length (body rule)) before →
       acts = pre ++ (actname, actsize) :: post →
       Forall (registered callback (parent_of m rule)) pre →
       alist_get (callback_name actname) callback = None →
       ∃ log', __proceed_reduce m target log
               = (inl (KeyError ("action " +:+ actname +:+ " is not defined")),
                  log'))
    ∧ (_semantic_action m = None →
       ∃ log', __rule_eval m rule log
               = (inr (VNode (head rule)
                         (drop (length (value_stack m) - length (body rule))
                            (value_stack m))), log')).
  Proof.
    intros Hrule Hlen.
    assert ((length (state_stack m) <=? length (body rule))%nat = false) as Hle
      by (apply Nat.leb_gt; lia).
    split.
    - intros callback before acts after pre actname actsize post
        Hobj Hact Hbefore Hacts Hpre Hmiss.
      destruct (run_positions_missing callback Hobj (parent_of m rule)
                  (length (body rule)) before acts after pre actname actsize
                  post (VNone, 0%nat) log Hbefore Hacts Hpre Hmiss)
        as [log' Hrun].
      exists log'.
      unfold __proceed_reduce. rewrite Hrule.
      apply Py_bind_raise.
      unfold __rule_eval. rewrite Hle.
      apply Py_bind_raise. rewrite Hact. exact Hrun.
    - intros Hnone.
      destruct (run_positions_ignored Hnone (parent_of m rule)
                  (length (body rule)) (default [] (action rule))
                  (VNone, 0%nat) log) as [log' Hrun].
      exists log'. unfold __rule_eval. rewrite Hle.
      fold (parent_of m rule). rewrite Py_bind_run, Hrun. simpl.
      rewrite Py_bind_run, generate_args_run, Hle.
      destruct (lookup_lt_is_Some_2 (value_stack m)
                  (length (state_stack m) - 1 - length (body rule)))
        as [v Hv]; [lia|].
      rewrite (drop_S _ _ _ Hv), firstn_cons.
      replace (S (length (state_stack m) - 1 - length (body rule)))
        with (length (value_stack m) - length (body rule))%nat by lia.
      rewrite take_ge by (rewrite length_drop; lia).
      done.
  Qed.
End missing_callback.

Lemma reduce_missing_callback_raises_witness :
  (∃ log', PDA.__proceed_reduce tagged_before_reduce 1 []
           = (inl (KeyError "action {make} is not defined"), log')) ∧
  (∃ log', PDA.__rule_eval tagged_before_reduce_plain
             (sample_rule tagged_grammar 1) []
           = (inr (VNode (nt "S") [VStr "a"]), log')).
Proof.
  split.
  - destruct (reduce_missing_callback_raises tagged_before_reduce eq_refl
                1 (sample_rule tagged_grammar 1) [])
      as [Hraise _].
    + by vm_compute.
    + vm_compute. lia.
    + apply (Hraise [("other", λ _ _, inr VNone)] [] [("{make}", 1%nat)] [] []
               "{make}" 1%nat []).
      * by vm_compute.
      * by vm_compute.
      * constructor.
      * reflexivity.
      * constructor.
      * by vm_compute.
  - destruct (reduce_missing_callback_raises tagged_before_reduce_plain eq_refl
                1 (sample_rule tagged_grammar 1) [])
      as [_ Hnode].
    + by vm_compute.
    + vm_compute. lia.
    + apply Hnode. by vm_compute.
Defined.

(** C5 as stated fails: production 1 of the sample carries the tag
    [{make}]; with no semantic-action object installed no callback of that
    name is registered, yet the reduction raises nothing, prints nothing and
    synthesizes the default node, with which the parse is accepted. *)
Lemma missing_callback_counterexample :
  (action <$> production tagged_grammar !! 1%nat)
    = Some (Some [(1%nat, [("{make}", 1%nat)])]) ∧
  (∃ m0, (run_py tagged_pda).1 = inr m0 ∧ _semantic_action m0 = None) ∧
  ∃ m, run_py (run_from 10 tagged_pda)
       = (inr (Some (VNode (nt "S") [VStr "a"], m)), []) ∧ accepted m = true.
Proof.
  split; [by vm_compute|].
  split; [eexists; vm_compute; split; reflexivity|].
  eexists. vm_compute. split; reflexivity.
Qed.

(** * Mid-rule action lifting *)

Section lifting.
Import Lifting.

Lemma sites_0 a from : sites a from 0 = 0%nat.
  Proof. reflexivity. Qed.

Lemma sites_S_l a from count :
    sites a from (S count)
    = ((if alist_mem from a then 1 else 0) + sites a (S from) count)%nat.
  Proof.
    unfold sites. simpl seq. rewrite filter_cons.
    destruct (alist_mem from a) eqn:E.
    - by rewrite decide_True.
    - by rewrite decide_False.
  Qed.

Lemma sites_S_r a from count :
    sites a from (S count)
    = (sites a from count + (if alist_mem (from + count) a then 1 else 0))%nat.
  Proof.
    unfold sites. rewrite seq_S, filter_app, length_app. f_equal.
    rewrite filter_cons, filter_nil.
    destruct (alist_mem (from + count) a) eqn:E.
    - by rewrite decide_True.
    - by rewrite decide_False.
  Qed.

Lemma sites_none a from count :
    (∀ q, (from ≤ q < from + count)%nat → alist_mem q a = false) →
    sites a from count = 0%nat.
  Proof.
    revert from. induction count as [|count IH]; intros from H; [done|].
    rewrite sites_S_l, (H from), IH; [done| |lia].
    intros q Hq. apply H. lia.
  Qed.

Lemma sites_le a from count : (sites a from count ≤ count)%nat.
  Proof.
    revert from. induction count as [|count IH]; intros from; [done|].
    rewrite sites_S_l. specialize (IH (S from)).
    destruct (alist_mem from a); lia.
  Qed.

  (** what the loop over a body leaves in its lists and its counter *)
Lemma lift_body_sizes a pp syms : ∀ pos body children nid body' children' nid',
    lift_body a pp pos syms body children nid = (body', children', nid') →
    length body' = (length body + length syms + sites a pos (length syms))%nat ∧
    length children' = (length children + sites a pos (length syms))%nat ∧
    nid' = (nid + sites a pos (length syms))%nat.
  Proof.
    induction syms as [|sym syms IH]; intros pos body children nid b' c' n' H.
    - simpl in H. injection H as <- <- <-. rewrite sites_0. simpl. lia.
    - simpl in H. simpl length. rewrite sites_S_l.
      destruct (alist_mem pos a); apply IH in H as (H1 & H2 & H3);
        rewrite ?length_app in *; simpl in *; lia.
  Qed.

Lemma lift_body_prefix a pp syms : ∀ pos body children nid body' children' nid',
    lift_body a pp pos syms body children nid = (body', children', nid') →
    (∃ rest, body' = body ++ rest) ∧ (∃ rest, children' = children ++ rest).
  Proof.
    induction syms as [|sym syms IH]; intros pos body children nid b' c' n' H.
    - simpl in H. injection H as <- <- <-.
      split; exists []; by rewrite app_nil_r.
    - simpl in H. destruct (alist_mem pos a);
        apply IH in H as ([r1 ->] & [r2 ->]); split; eexists;
        by rewrite <- ?app_assoc.
  Qed.

  (** the symbol of position [pos + t] follows the markers up to it *)
Lemma lift_body_symbol a pp syms : ∀ pos body children nid body' children' nid' t sym,
    lift_body a pp pos syms body children nid = (body', children', nid') →
    syms !! t = Some sym →
    body' !! (length body + t + sites a pos (S t))%nat = Some sym.
  Proof.
    induction syms as [|s syms IH];
      intros pos body children nid b' c' n' t sym H Ht; [done|].
    simpl in H. destruct t as [|t].
    - simpl in Ht. injection Ht as ->.
      rewrite sites_S_l, sites_0.
      destruct (alist_mem pos a);
        apply lift_body_prefix in H as ([r ->] & _).
      + rewrite lookup_app_l by (rewrite !length_app; simpl; lia).
        rewrite lookup_app_r by lia.
        replace (length body + 0 + (1 + 0) - length body)%nat with 1%nat by lia.
        done.
      + rewrite lookup_app_l by (rewrite !length_app; simpl; lia).
        rewrite lookup_app_r by lia.
        replace (length body + 0 + (0 + 0) - length body)%nat with 0%nat by lia.
        done.
    - simpl in Ht. rewrite sites_S_l.
      destruct (alist_mem pos a).
      + eapply IH in H; [|exact Ht]. rewrite <- H. f_equal.
        rewrite !length_app. simpl. lia.
      + eapply IH in H; [|exact Ht]. rewrite <- H. f_equal.
        rewrite !length_app. simpl. lia.
  Qed.

  (** the marker of the site [pos + t] and its production *)
Lemma lift_body_marker a pp syms : ∀ pos body children nid body' children' nid' t,
    lift_body a pp pos syms body children nid = (body', children', nid') →
    (t < length syms)%nat → alist_mem (pos + t) a = true →
    body' !! (length body + t + sites a pos t)%nat
      = Some (marker_symbol (nid + sites a pos t)) ∧
    children' !! (length children + sites a pos t)%nat
      = Some (marker_rule (marker_symbol (nid + sites a pos t))
                (length body + t + sites a pos t)
                (default [] (alist_get (pos + t) a)) pp).
  Proof.
    induction syms as [|s syms IH];
      intros pos body children nid b' c' n' t H Ht Hm; [simpl in Ht; lia|].
    simpl in H. destruct t as [|t].
    - rewrite Nat.add_0_r in Hm. rewrite Hm in H. rewrite sites_0.
      apply lift_body_prefix in H as ([r1 ->] & [r2 ->]).
      rewrite !Nat.add_0_r. split.
      + rewrite lookup_app_l by (rewrite !length_app; simpl; lia).
        rewrite lookup_app_r by lia. by rewrite Nat.sub_diag.
      + rewrite lookup_app_l by (rewrite !length_app; simpl; lia).
        rewrite lookup_app_r by lia. by rewrite Nat.sub_diag.
    - simpl in Ht. rewrite sites_S_l.
      replace (pos + S t)%nat with (S pos + t)%nat in * by lia.
      destruct (alist_mem pos a).
      + eapply IH in H as [H1 H2]; [| |exact Hm]; [|lia].
        split.
        * etrans; [|etrans; [exact H1|]].
          -- f_equal. rewrite !length_app. simpl. lia.
          -- do 2 f_equal. lia.
        * etrans; [|etrans; [exact H2|]].
          -- f_equal. rewrite !length_app. simpl. lia.
          -- f_equal. f_equal; [f_equal; lia|rewrite !length_app; simpl; lia].
      + eapply IH in H as [H1 H2]; [| |exact Hm]; [|lia].
        split.
        * etrans; [|etrans; [exact H1|]].
          -- f_equal. rewrite !length_app. simpl. lia.
          -- do 2 f_equal.
        * etrans; [|etrans; [exact H2|]].
          -- f_equal.
          -- f_equal. f_equal. rewrite !length_app; simpl; lia.
  Qed.

Lemma lift_body_Forall (P : Symbol → Prop) a pp syms :
    (∀ k, P (marker_symbol k)) →
    ∀ pos body children nid body' children' nid',
    lift_body a pp pos syms body children nid = (body', children', nid') →
    Forall P body → Forall P syms → Forall P body'.
  Proof.
    intros Hm. induction syms as [|s syms IH];
      intros pos body children nid b' c' n' H Hb Hs.
    - simpl in H. by injection H as <- <- <-.
    - simpl in H. apply Forall_cons in Hs as [Hs1 Hs2].
      destruct (alist_mem pos a); eapply IH in H; try done;
        rewrite ?Forall_app; repeat split; try done; by repeat constructor.
  Qed.

Lemma marker_not_epsilon k : Symbol_is_epsilon (marker_symbol k) = false.
  Proof.
    unfold Symbol_is_epsilon, marker_symbol. reflexivity.
  Qed.

Lemma Vector_no_epsilon l :
    Forall (λ s, Symbol_is_epsilon s = false) l → Vector l = l.
  Proof.
    intros H. unfold Vector. destruct l as [|s l]; [done|].
    apply Forall_cons in H as [Hs Hl]. simpl forallb. rewrite Hs. simpl.
    rewrite filter_cons, decide_True by done. f_equal.
    induction Hl as [|x l Hx Hl IH]; [done|].
    by rewrite filter_cons, decide_True, IH.
  Qed.

  (** ** Dictionary facts *)

Lemma alist_get_elem {K V : Type} `{EqDecision K} (k : K) (v : V) d :
    alist_get k d = Some v → (k, v) ∈ d.
  Proof.
    induction d as [|[k' v'] d IH]; [done|]. simpl.
    case_bool_decide as E.
    - intros [= ->]. subst. apply list_elem_of_here.
    - intros H. apply list_elem_of_further. by apply IH.
  Qed.

Lemma alist_get_None {K V : Type} `{EqDecision K} (k : K) (d : list (K * V)) :
    alist_get k d = None ↔ k ∉ d.*1.
  Proof.
    induction d as [|[k' v'] d IH]; simpl.
    - split; [intros _; apply not_elem_of_nil|done].
    - case_bool_decide as E.
      + subst. split; [done|]. intros H. exfalso. apply H, list_elem_of_here.
      + rewrite IH, not_elem_of_cons. naive_solver.
  Qed.

Lemma alist_mem_get {K V : Type} `{EqDecision K} (k : K) (v : V) d :
    alist_get k d = Some v → alist_mem k d = true.
  Proof.
    intros H. unfold alist_mem. apply bool_decide_eq_true_2. by eexists.
  Qed.

Lemma has_mid_false_sites rule :
    has_mid_action rule = false → rule_sites rule = 0%nat.
  Proof.
    unfold has_mid_action, rule_sites. intros H.
    apply sites_none. intros q Hq.
    destruct (action rule) as [a|]; simpl; [|done].
    destruct (alist_mem q a) eqn:E; [|done]. exfalso.
    unfold alist_mem in E. apply bool_decide_eq_true_1 in E as [v Hv].
    apply alist_get_elem in Hv.
    assert (existsb (λ e : nat * list SemAction,
              (e.1 <? length (body rule))%nat) a = true) as Hex.
    { apply existsb_exists. exists (q, v). split.
      - by apply list_elem_of_In.
      - simpl. apply Nat.ltb_lt. lia. }
    congruence.
  Qed.

  (** ** The loop over the productions *)

Lemma anchor_markers_terminal fn ln (c : list Production) : ∀ g0,
    let g1 := foldl (λ g child, anchor_set (AnchorSymbol (head child)) fn ln g)
                g0 c in
    terminal g1 = terminal g0 ∧ g_precedence g1 = g_precedence g0.
  Proof.
    induction c as [|x c IH]; intros g0; [done|].
    simpl. destruct (IH (anchor_set (AnchorSymbol (head x)) fn ln g0)) as [-> ->].
    done.
  Qed.

  (** one round of the loop adds the rewritten rule and its markers *)
Lemma step_rules st rule :
    ∃ out, st_rules (step st rule) = st_rules st ++ out ∧
           length out = S (rule_sites rule) ∧
           st_name_id (step st rule) = (st_name_id st + rule_sites rule)%nat ∧
           (length (st_anchors st) = length (st_rules st) →
            length (st_anchors (step st rule)) = length (st_rules (step st rule))) ∧
           terminal (st_g (step st rule)) = terminal (st_g st) ∧
           g_precedence (st_g (step st rule)) = g_precedence (st_g st).
  Proof.
    unfold step. destruct (has_mid_action rule) eqn:Hmid.
    - unfold lift_rule.
      destruct (lift_body (default [] (action rule)) (length (st_rules st)) 0
                  (body rule) [] [] (st_name_id st)) as [[b c] n] eqn:E.
      apply lift_body_sizes in E as (_ & Hc & Hn). simpl in Hc.
      eexists. simpl. split; [reflexivity|]. repeat split.
      + simpl. by rewrite Hc.
      + done.
      + intros Hlen. rewrite !length_app. simpl. rewrite length_fmap. lia.
      + apply anchor_markers_terminal.
      + apply anchor_markers_terminal.
    - exists [rule]. simpl. rewrite has_mid_false_sites by done.
      repeat split; try done; try lia.
      intros Hlen. rewrite !length_app. simpl. lia.
  Qed.

Lemma foldl_step_rules ps : ∀ st,
    ∃ out, st_rules (foldl step st ps) = st_rules st ++ out ∧
           length out = (length ps + sum_list (rule_sites <$> ps))%nat ∧
           st_name_id (foldl step st ps)
             = (st_name_id st + sum_list (rule_sites <$> ps))%nat ∧
           (length (st_anchors st) = length (st_rules st) →
            length (st_anchors (foldl step st ps))
              = length (st_rules (foldl step st ps))) ∧
           terminal (st_g (foldl step st ps)) = terminal (st_g st) ∧
           g_precedence (st_g (foldl step st ps)) = g_precedence (st_g st).
  Proof.
    induction ps as [|p ps IH]; intros st.
    - exists []. simpl. rewrite app_nil_r. repeat split; try done; lia.
    - change (foldl step st (p :: ps)) with (foldl step (step st p) ps).
      destruct (step_rules st p) as (o1 & E1 & L1 & N1 & A1 & T1 & P1).
      destruct (IH (step st p)) as (o2 & E2 & L2 & N2 & A2 & T2 & P2).
      exists (o1 ++ o2). split; [by rewrite E2, E1, <- app_assoc|].
      assert (sum_list (rule_sites <$> p :: ps)
              = (rule_sites p + sum_list (rule_sites <$> ps))%nat) as -> by done.
      split; [rewrite length_app, L1, L2; simpl length; lia|].
      split; [rewrite N2, N1; lia|].
      split; [intros Hlen; apply A2, A1, Hlen|].
      split; [by rewrite T2|by rewrite P2].
  Qed.

  (** ** The new production list *)

Lemma update_production_ext g g' i p :
    terminal g = terminal g' → g_precedence g = g_precedence g' →
    update_production g i p = update_production g' i p.
  Proof.
    intros Ht Hp. unfold update_production, retag, fill_precedence,
      in_terminal, in_precedence. by rewrite Ht, Hp.
  Qed.

Lemma update_production_index g i p k :
    update_production g i
      {| head := head p; body := body p; index := k;
         is_epsilon := is_epsilon p; has_epsilon := has_epsilon p;
         precedence := precedence p; action := action p; parent := parent p |}
    = update_production g i p.
  Proof. reflexivity. Qed.

Lemma install_production l : ∀ g j,
    (j < length (production g))%nat →
    production (foldl install g l) !! j = production g !! j.
  Proof.
    induction l as [|e l IH]; intros g j Hj; [done|].
    simpl. rewrite IH.
    - simpl. by rewrite lookup_app_l.
    - simpl. rewrite length_app. lia.
  Qed.

Lemma install_terminal l : ∀ g,
    terminal (foldl install g l) = terminal g ∧
    g_precedence (foldl install g l) = g_precedence g.
  Proof.
    induction l as [|e l IH]; intros g; [done|].
    simpl. destruct (IH (install g e)) as [-> ->]. done.
  Qed.

Lemma install_lookup l : ∀ g j e,
    l !! j = Some e →
    ∃ k, production (foldl install g l) !! (length (production g) + j)%nat
         = Some {| head := head e.1; body := body e.1; index := k;
                   is_epsilon := is_epsilon e.1; has_epsilon := has_epsilon e.1;
                   precedence := precedence e.1; action := action e.1;
                   parent := parent e.1 |}.
  Proof.
    induction l as [|e0 l IH]; intros g j e Hj; [done|].
    destruct j as [|j]; simpl in Hj.
    - injection Hj as ->. simpl. eexists.
      rewrite install_production by (simpl; rewrite length_app; simpl; lia).
      simpl. rewrite lookup_app_r by lia.
      by rewrite Nat.add_0_r, Nat.sub_diag.
    - simpl. destruct (IH (install g e0) j e Hj) as [k Hk].
      exists k. rewrite <- Hk. f_equal. simpl. rewrite length_app. simpl. lia.
  Qed.

Lemma install_length l : ∀ g,
    length (production (foldl install g l))
    = (length (production g) + length l)%nat.
  Proof.
    induction l as [|e l IH]; intros g; simpl; [lia|].
    rewrite IH. simpl. rewrite length_app. simpl. lia.
  Qed.

  (** the productions of the rewritten grammar are the rules the loop built,
      re-tagged and numbered by [update] *)
Lemma lifted_production g j :
    production (__argument_semantic_action g) !! j
    = update_production g j <$> st_rules (lift_rules g) !! j.
  Proof.
    unfold __argument_semantic_action. simpl. rewrite list_lookup_imap.
    unfold lift_rules.
    destruct (foldl_step_rules (production g)
                {| st_rules := []; st_anchors := []; st_name_id := 1;
                   st_g := g |}) as (out & E & L & N & A & T & P).
    set (st := foldl step _ (production g)) in *. simpl in *.
    specialize (A eq_refl).
    destruct (install_terminal (zip (st_rules st) (st_anchors st))
                (clear_production (st_g st))) as [T' P'].
    simpl in T', P'.
    destruct (st_rules st !! j) as [p|] eqn:Hp.
    - destruct (lookup_lt_is_Some_2 (st_anchors st) j) as [an Han].
      { rewrite A. by eapply lookup_lt_Some. }
      destruct (install_lookup (zip (st_rules st) (st_anchors st))
                  (clear_production (st_g st)) j (p, an)) as [k Hk].
      { apply lookup_zip_with_Some. eauto. }
      simpl in Hk. rewrite Hk. simpl. f_equal.
      rewrite update_production_index.
      apply update_production_ext; congruence.
    - simpl. rewrite lookup_ge_None_2; [done|].
      rewrite install_length. simpl.
      rewrite length_zip_with, A. apply lookup_ge_None in Hp. lia.
  Qed.

Lemma lifted_length g :
    length (production (__argument_semantic_action g))
    = length (st_rules (lift_rules g)).
  Proof.
    unfold __argument_semantic_action. simpl. rewrite length_imap.
    unfold lift_rules.
    destruct (foldl_step_rules (production g)
                {| st_rules := []; st_anchors := []; st_name_id := 1;
                   st_g := g |}) as (out & E & L & N & A & T & P).
    set (st := foldl step _ (production g)) in *. simpl in *.
    rewrite install_length, length_zip_with, (A eq_refl). simpl. lia.
  Qed.

Lemma step_rules_ext st st' rule :
    st_rules st = st_rules st' → st_name_id st = st_name_id st' →
    st_rules (step st rule) = st_rules (step st' rule).
  Proof.
    intros Hr Hn. unfold step. rewrite Hr, Hn.
    destruct (has_mid_action rule); [|done].
    by destruct (lift_rule (length (st_rules st')) (st_name_id st') rule)
      as [[? ?] ?].
  Qed.

  (** the rules the loop has built when it reaches position [i], and what
      it adds for the production there *)
Lemma lift_rules_at g i rule :
    production g !! i = Some rule →
    ∃ rules1 out rest,
      st_rules (lift_rules g) = rules1 ++ out ++ rest ∧
      length rules1 = (i + sites_before g i)%nat ∧
      st_rules (step {| st_rules := rules1; st_anchors := [];
                        st_name_id := 1 + sites_before g i; st_g := g |} rule)
        = rules1 ++ out.
  Proof.
    intros Hi.
    assert (lift_rules g
            = foldl step
                (step (foldl step {| st_rules := []; st_anchors := [];
                                     st_name_id := 1; st_g := g |}
                         (take i (production g))) rule)
                (drop (S i) (production g))) as ->.
    { unfold lift_rules.
      etrans; [apply (f_equal (foldl step _)
                        (eq_sym (take_drop_middle _ _ _ Hi)))|].
      by rewrite foldl_app. }
    destruct (foldl_step_rules (take i (production g))
                {| st_rules := []; st_anchors := []; st_name_id := 1;
                   st_g := g |}) as (out1 & E1 & L1 & N1 & _).
    set (st1 := foldl step _ (take i (production g))) in *.
    simpl in E1, N1.
    destruct (step_rules st1 rule) as (out & E2 & _).
    destruct (foldl_step_rules (drop (S i) (production g)) (step st1 rule))
      as (rest & E3 & _).
    exists out1, out, rest.
    split; [by rewrite E3, E2, E1, <- app_assoc|].
    split.
    - rewrite L1, length_take_le; [done|].
      apply lookup_lt_Some in Hi. lia.
    - rewrite <- E1 at 2. rewrite <- E2.
      apply step_rules_ext; simpl; [done|]. by rewrite N1.
  Qed.

  (** ** The actions at the end of the body *)

Lemma filter_end_keys (l : list nat) size :
    NoDup l → Forall (λ k, (k ≤ size)%nat) l →
    filter (λ k : nat, (size ≤ k)%nat) l
    = if decide (size ∈ l) then [size] else [].
  Proof.
    induction 1 as [|k l Hk Hnd IH]; intros Hle; [done|].
    apply Forall_cons in Hle as [Hks Hle]. rewrite filter_cons, (IH Hle).
    destruct (decide (size ≤ k)%nat) as [Hsk|Hsk].
    - assert (k = size) as -> by lia.
      rewrite decide_False by done.
      rewrite decide_True by apply list_elem_of_here. done.
    - destruct (decide (size ∈ l)) as [Hin|Hin].
      + rewrite decide_True by by apply list_elem_of_further. done.
      + rewrite decide_False; [done|].
        rewrite not_elem_of_cons. split; [lia|done].
  Qed.

  (** when no action lies beyond the end of the body, the actions of the
      end are those the dictionary holds for that position *)
Lemma end_actions_at_end (a : ActionMap) size :
    Forall (λ e, (e.1 ≤ size)%nat) a → NoDup a.*1 →
    end_actions a size = default [] (alist_get size a).
  Proof.
    intros Hle Hnd. unfold end_actions.
    rewrite filter_end_keys; [|done|by apply Forall_fmap].
    destruct (decide (size ∈ a.*1)) as [Hin|Hin].
    - change (merge_sort Nat.le [size]) with [size]. simpl.
      by rewrite app_nil_r.
    - apply alist_get_None in Hin. by rewrite Hin.
  Qed.

  (** What the lifting does where no marker name is a declared terminal:
      a production at position [i] with a mid-rule action (its body
      free of ε, as [Vector] leaves it) is rewritten into a parent at position
      [i + s] and one marker production per action site behind it, [s] being
      the number of sites in front of the production.  The site at position
      [pos], the [n]-th of the production, gets the nonterminal
      [M@(1 + s + n)], which stands in the new body at [pos + n], just before
      the symbol of [pos]; its production is empty and carries at position 0
      the tags of the site with the offset [pos + n].  The tags at the end of
      the old body are the tags at the end of the new one. *)
Theorem lifting_rewrites_mid_rule_actions g i rule a :
    production g !! i = Some rule →
    action rule = Some a →
    has_mid_action rule = true →
    Forall (λ s, Symbol_is_epsilon s = false) (body rule) →
    (∀ k, in_terminal g (name (marker_symbol k)) = false) →
    let j := (i + sites_before g i)%nat in
    let k0 := (1 + sites_before g i)%nat in
    ∃ root,
      production (__argument_semantic_action g) !! j = Some root ∧
      head root = retag g (head rule) ∧
      length (body root) = (length (body rule) + rule_sites rule)%nat ∧
      (∀ pos sym, body rule !! pos = Some sym →
         body root !! (pos + sites a 0 (S pos))%nat = Some (retag g sym)) ∧
      (∀ pos acts, (pos < length (body rule))%nat →
         alist_get pos a = Some acts →
         let n := sites a 0 pos in
         body root !! (pos + n)%nat = Some (marker_symbol (k0 + n)) ∧
         ∃ child,
           production (__argument_semantic_action g) !! (j + 1 + n)%nat
             = Some child ∧
           head child = marker_symbol (k0 + n) ∧ body child = [] ∧
           action child
             = Some [(0%nat, (λ act : SemAction, (act.1, (pos + n)%nat)) <$> acts)] ∧
           parent child = Some j) ∧
      (Forall (λ e, (e.1 ≤ length (body rule))%nat) a → NoDup a.*1 →
         action root
         = match default [] (alist_get (length (body rule)) a) with
           | [] => None
           | acts =>
               Some [(length (body root),
                      (λ act : SemAction, (act.1, length (body root))) <$> acts)]
           end).
  Proof.
    intros Hi Ha Hmid Heps Hterm j k0.
    destruct (lift_rules_at g i rule Hi) as (rules1 & out & rest & Er & Lr & Es).
    unfold step in Es. rewrite Hmid in Es. unfold lift_rule in Es.
    rewrite Ha in Es. simpl in Es.
    destruct (lift_body a (length rules1) 0 (body rule) [] [] (S (sites_before g i)))
      as [[b c] nid'] eqn:Eb.
    simpl in Es. apply app_inv_head in Es. subst out.
    fold j in Lr.
    pose proof (lift_body_sizes _ _ _ _ _ _ _ _ _ _ Eb) as (Lb & Lc & _).
    simpl in Lb, Lc.
    assert (Hb : Vector b = b).
    { apply Vector_no_epsilon.
      eapply (lift_body_Forall _ a (length rules1) (body rule)
                marker_not_epsilon); [exact Eb|constructor|exact Heps]. }
    assert (Hroot : st_rules (lift_rules g) !! j = Some (root_rule rule a b)).
    { rewrite Er, lookup_app_r by lia. by rewrite Lr, Nat.sub_diag. }
    assert (Hchild : ∀ n, st_rules (lift_rules g) !! (j + 1 + n)%nat = c !! n
                          ∨ (length c ≤ n)%nat).
    { intros n. destruct (decide (n < length c)%nat); [left|right; lia].
      rewrite Er, lookup_app_r by lia.
      replace (j + 1 + n - length rules1)%nat with (S n) by lia.
      simpl. by rewrite lookup_app_l. }
    exists (update_production g j (root_rule rule a b)).
    split; [by rewrite lifted_production, Hroot|].
    split; [done|].
    split.
    { simpl. rewrite Hb, length_fmap, Lb. unfold rule_sites. rewrite Ha. simpl.
      lia. }
    split.
    { intros pos sym Hpos. simpl. rewrite Hb, list_lookup_fmap.
      pose proof (lift_body_symbol _ _ _ _ _ _ _ _ _ _ pos sym Eb Hpos) as Hs.
      simpl in Hs. by rewrite Hs. }
    split.
    { intros pos acts Hpos Hacts n.
      destruct (lift_body_marker _ _ _ _ _ _ _ _ _ _ pos Eb Hpos)
        as [Hm Hc]; [by eapply alist_mem_get|].
      simpl in Hm, Hc. fold n in Hm, Hc. rewrite Hacts in Hc. simpl in Hc.
      split.
      - simpl. rewrite Hb, list_lookup_fmap, Hm. simpl. unfold retag.
        rewrite Hterm. done.
      - destruct (Hchild n) as [Hl|Hl];
          [|apply lookup_lt_Some in Hc; lia].
        eexists. rewrite lifted_production, Hl, Hc. simpl.
        split; [reflexivity|]. simpl. unfold retag. rewrite Hterm. simpl.
        repeat split; by rewrite ?Lr. }
    intros Hle Hnd. simpl. rewrite Hb, length_fmap.
    rewrite end_actions_at_end by done.
    by destruct (default [] (alist_get (length (body rule)) a)).
  Qed.

Lemma foldl_step_no_mid ps : ∀ st,
    Forall (λ p, has_mid_action p = false) ps →
    st_rules (foldl step st ps) = st_rules st ++ ps.
  Proof.
    induction ps as [|p ps IH]; intros st Hps; simpl.
    - by rewrite app_nil_r.
    - apply Forall_cons in Hps as [Hp Hps]. rewrite IH by done.
      unfold step. rewrite Hp. simpl. by rewrite <- app_assoc.
  Qed.

Lemma rule_view_update g j p : rule_view (update_production g j p) = rule_view p.
  Proof.
    unfold rule_view. simpl. do 2 f_equal.
    rewrite <- list_fmap_compose. by apply list_fmap_ext.
  Qed.

  (** C7: on a grammar without an action before the end of a body the
      rewrite does what [update] alone does to the productions, and the
      heads, the bodies and the actions of the productions stay as they
      are. *)
Theorem lifting_without_mid_action_is_noop g :
    no_mid_action g →
    production (__argument_semantic_action g) = production (update g) ∧
    rule_view <$> production (__argument_semantic_action g)
      = rule_view <$> production g.
  Proof.
    intros Hno.
    assert (Hr : st_rules (lift_rules g) = production g).
    { unfold lift_rules. by rewrite foldl_step_no_mid. }
    assert (Hp : production (__argument_semantic_action g) = production (update g)).
    { apply list_eq. intros j. rewrite lifted_production, Hr. simpl.
      by rewrite list_lookup_imap. }
    split; [done|]. rewrite Hp. simpl.
    apply list_eq. intros j.
    rewrite !list_lookup_fmap, list_lookup_imap.
    destruct (production g !! j) as [p|]; [|done]. simpl.
    by rewrite rule_view_update.
  Qed.
End lifting.

Import Samples Lifting.

Lemma lifting_rewrites_mid_rule_actions_witness :
  ∃ root child,
    production (__argument_semantic_action mid_source) !! 0%nat = Some root ∧
    body root !! 1%nat = Some (marker_symbol 1) ∧
    production (__argument_semantic_action mid_source) !! 1%nat = Some child ∧
    head child = marker_symbol 1 ∧ body child = [] ∧
    action child = Some [(0%nat, [("{tag}", 1%nat)])].
Proof.
  destruct (lifting_rewrites_mid_rule_actions mid_source 0 mid_rule mid_actions)
    as (root & Hroot & _ & _ & _ & Hsite & _).
  - reflexivity.
  - reflexivity.
  - reflexivity.
  - by repeat constructor.
  - intros k. reflexivity.
  - destruct (Hsite 1%nat [("{tag}", 1%nat)]) as (Hm & child & Hc & Hh & Hb & Ha & _).
    + vm_compute. lia.
    + reflexivity.
    + exists root, child. repeat split; assumption.
Defined.

(** C6: the lifting of [A: 'x' {tag} 'y' {done}] in a grammar that declares
    the token [M@1].  The marker of the one action site is built as the
    nonterminal [M@1], but the closing [update] finds the name among the
    terminals: the marker that heads the new empty production and stands in
    the rewritten body is a terminal of the grammar, neither fresh nor a
    nonterminal. *)
Lemma lifting_marker_clash_counterexample :
  has_mid_action (sample_rule mid_clash_source 0) = true ∧
  in_terminal mid_clash_source "M@1" = true ∧
  (head <$> production (__argument_semantic_action mid_clash_source) !! 1%nat)
    = Some (mkSymbol "M@1" true) ∧
  (body <$> production (__argument_semantic_action mid_clash_source) !! 0%nat)
    = Some [mkSymbol "'x'" true; mkSymbol "M@1" true; mkSymbol "'y'" true].
Proof. repeat split; by vm_compute. Qed.

Lemma lifting_without_mid_action_is_noop_witness :
  production (__argument_semantic_action end_source) = production (update end_source) ∧
  rule_view <$> production (__argument_semantic_action end_source)
    = rule_view <$> production end_source.
Proof.
  apply lifting_without_mid_action_is_noop.
  by repeat constructor.
Defined.

(** * The ε flags and the FIRST sets *)

Section analysis.
Import Analyzer.

  (** ** Sets of names and dictionaries *)

Lemma set_add_elem (n m : string) (s : NameSet) :
    m ∈ set_add n s ↔ m = n ∨ m ∈ s.
  Proof.
    unfold set_add. case_bool_decide as E.
    - split; [by right|]. by intros [->|].
    - rewrite elem_of_app, list_elem_of_singleton. tauto.
  Qed.

Lemma alist_get_NoDup {V : Type} (k : string) (v : V) d :
    NoDup d.*1 → (k, v) ∈ d → alist_get k d = Some v.
  Proof.
    induction d as [|[k' v'] d IH]; simpl.
    - intros _ H. by apply elem_of_nil in H.
    - rewrite NoDup_cons. intros [Hk Hd] H.
      apply elem_of_cons in H as [[= -> ->]|H].
      + by rewrite bool_decide_eq_true_2.
      + case_bool_decide as E; [|by apply IH].
        subst. exfalso. apply Hk.
        apply list_elem_of_fmap. by exists (k, v).
  Qed.

Lemma alist_get_fmap {V W : Type} (f : V → W) (k : string) d :
    alist_get k ((λ e : string * V, (e.1, f e.2)) <$> d) = f <$> alist_get k d.
  Proof.
    induction d as [|[k' v'] d IH]; [done|]. simpl.
    by case_bool_decide.
  Qed.

Lemma alist_set_id {V : Type} (k : string) (v : V) d :
    alist_get k d = Some v → alist_set k v d = d.
  Proof.
    induction d as [|[k' v'] d IH]; [done|]. simpl.
    case_bool_decide as E.
    - by intros [= ->].
    - intros H. by rewrite IH.
  Qed.

  (** ** The counters *)

Lemma count_flag_le v l : (count_flag v l ≤ length l)%nat.
  Proof. apply length_filter. Qed.

Lemma count_flag_all v l :
    (length l ≤ count_flag v l)%nat → ∀ o, o ∈ l → o = Some v.
  Proof.
    unfold count_flag. induction l as [|x l IH]; intros H o Ho.
    - by apply elem_of_nil in Ho.
    - rewrite filter_cons in H. simpl in H. case_decide as E.
      + simpl in H. apply elem_of_cons in Ho as [->|Ho]; [done|].
        apply IH; [lia|done].
      + pose proof (length_filter (λ o, o = Some v) l). lia.
  Qed.

Lemma count_flag_some v l :
    (0 < count_flag v l)%nat → Some v ∈ l.
  Proof.
    unfold count_flag. intros H.
    destruct (filter (λ o, o = Some v) l) as [|x r] eqn:E; [simpl in H; lia|].
    assert (Hx : x ∈ filter (λ o, o = Some v) l) by (rewrite E; left).
    apply list_elem_of_filter in Hx as [-> Hx]. done.
  Qed.

Lemma omap_length_le {A B} (g : A → option B) (l : list A) :
    (length (omap g l) ≤ length l)%nat.
  Proof.
    induction l as [|x l IH]; [done|].
    change (omap g (x :: l)) with
      (match g x with Some y => y :: omap g l | None => omap g l end).
    destruct (g x); simpl; lia.
  Qed.

Lemma count_omap_all {A} (f : A → option bool) (g : nat → option A) v l :
    (length l ≤ count_flag v (f <$> omap g l))%nat →
    ∀ n, n ∈ l → ∃ a, g n = Some a ∧ f a = Some v.
  Proof.
    induction l as [|x l IH]; intros H n Hn.
    - by apply elem_of_nil in Hn.
    - change (omap g (x :: l)) with
        (match g x with Some y => y :: omap g l | None => omap g l end) in H.
      destruct (g x) as [a|] eqn:Ex.
      + rewrite fmap_cons in H. unfold count_flag in H, IH.
        rewrite filter_cons in H. case_decide as E.
        * simpl in H. apply elem_of_cons in Hn as [->|Hn]; [by exists a|].
          apply IH; [lia|done].
        * pose proof (length_filter (λ o, o = Some v) (f <$> omap g l)) as Hl.
          rewrite length_fmap in Hl.
          pose proof (omap_length_le g l). simpl in H. lia.
      + pose proof (count_flag_le v (f <$> omap g l)) as Hl.
        rewrite length_fmap in Hl.
        pose proof (omap_length_le g l). simpl in H. lia.
  Qed.

Lemma count_omap_some {A} (f : A → option bool) (g : nat → option A) v l :
    (0 < count_flag v (f <$> omap g l))%nat →
    ∃ n a, n ∈ l ∧ g n = Some a ∧ f a = Some v.
  Proof.
    intros H. apply count_flag_some in H.
    apply list_elem_of_fmap in H as (a & Ha & H).
    apply list_elem_of_omap in H as (n & Hn & Hg).
    by exists n, a.
  Qed.

Lemma leftmost_terminal_Some b t :
    leftmost_terminal b = Some t → t ∈ b ∧ term t = true.
  Proof.
    induction b as [|s b IH]; [done|]. simpl.
    destruct (term s) eqn:E.
    - intros [= <-]. split; [left|done].
    - intros H. destruct (IH H). split; [by right|done].
  Qed.

Lemma leftmost_terminal_None b :
    leftmost_terminal b = None ↔ ∀ s, s ∈ b → term s = false.
  Proof.
    induction b as [|s b IH]; simpl.
    - split; [|done]. intros _ s H. by apply elem_of_nil in H.
    - destruct (term s) eqn:E.
      + split; [done|]. intros H. specialize (H s (list_elem_of_here _ _)).
        congruence.
      + rewrite IH. split.
        * intros H s' Hs'. apply elem_of_cons in Hs' as [->|Hs']; auto.
        * intros H s' Hs'. apply H. by right.
  Qed.

Lemma body_infos_ok inf b infos :
    body_infos inf b = inr infos →
    Forall2 (λ s i, alist_get (name s) inf = Some i) b infos.
  Proof.
    revert infos. induction b as [|s b IH]; intros infos; simpl.
    - intros [= <-]. constructor.
    - destruct (alist_get (name s) inf) as [i|] eqn:E; [|done].
      destruct (body_infos inf b) as [e|l]; [done|].
      intros [= <-]. constructor; [done|by apply IH].
  Qed.

Lemma body_infos_all {f : SymbolInfo → option bool} inf b infos v :
    body_infos inf b = inr infos →
    (length b ≤ count_flag v (f <$> infos))%nat →
    ∀ s, s ∈ b → ∃ i, alist_get (name s) inf = Some i ∧ f i = Some v.
  Proof.
    intros H Hc s Hs. apply body_infos_ok in H.
    pose proof (Forall2_length _ _ _ H) as Hlen.
    apply list_elem_of_lookup in Hs as [j Hj].
    destruct (Forall2_lookup_l _ _ _ _ _ H Hj) as (i & Hi & Hg).
    exists i. split; [done|].
    apply (count_flag_all v (f <$> infos)).
    - rewrite length_fmap. lia.
    - apply list_elem_of_fmap. exists i. split; [done|].
      apply list_elem_of_lookup. by exists j.
  Qed.

Lemma body_infos_some {f : SymbolInfo → option bool} inf b infos v :
    body_infos inf b = inr infos →
    (0 < count_flag v (f <$> infos))%nat →
    ∃ s i, s ∈ b ∧ alist_get (name s) inf = Some i ∧ f i = Some v.
  Proof.
    intros H Hc. apply body_infos_ok in H.
    apply count_flag_some in Hc.
    apply list_elem_of_fmap in Hc as (i & Hi & Hin).
    apply list_elem_of_lookup in Hin as [j Hj].
    destruct (Forall2_lookup_r _ _ _ _ _ H Hj) as (s & Hs & Hg).
    exists s, i. split; [|done].
    apply list_elem_of_lookup. by exists j.
  Qed.

Lemma set_flags_id p : set_flags (is_epsilon p, has_epsilon p) p = p.
  Proof. by destruct p. Qed.

Lemma set_info_flags_id i :
    set_info_flags (i_is_epsilon i, i_has_epsilon i) i = i.
  Proof. by destruct i. Qed.

  (** ** Soundness of the flags *)

Ltac split_flags :=
    unfold sound_flags; simpl; split; [|split; [|split]].

Section soundness.
Context (sh : list (string * list Symbol))
            (SK : list (string * (Symbol * list nat))).
Hypothesis Htbl : tables_ok sh SK.

Lemma skeleton_elem inf k i :
      (k, i) ∈ inf → (k, (i_symbol i, i_rules i)) ∈ skeleton inf.
    Proof.
      intros H. unfold skeleton. apply list_elem_of_fmap. by exists (k, i).
    Qed.

Lemma skeleton_keys inf : (skeleton inf).*1 = inf.*1.
    Proof.
      unfold skeleton. rewrite <- list_fmap_compose. by apply list_fmap_ext.
    Qed.

Lemma info_get inf k i :
      skeleton inf = SK → (k, i) ∈ inf → alist_get k inf = Some i.
    Proof.
      intros Hsk H. apply alist_get_NoDup; [|done].
      rewrite <- skeleton_keys, Hsk. apply Htbl.
    Qed.

    (** the info of a body symbol is that of a symbol of its kind *)
Lemma body_info inf N b s i :
      skeleton inf = SK → (N, b) ∈ sh → s ∈ b →
      alist_get (name s) inf = Some i → term (i_symbol i) = term s.
    Proof.
      intros Hsk Hb Hs Hi.
      destruct (tbl_body _ _ Htbl N b s Hb Hs) as (s' & rs & Hin & Ht).
      apply alist_get_elem, skeleton_elem in Hi. rewrite Hsk in Hi.
      assert (alist_get (name s) SK = Some (s', rs)) as E1
        by (apply alist_get_NoDup; [apply Htbl|done]).
      assert (alist_get (name s) SK = Some (i_symbol i, i_rules i)) as E2
        by (apply alist_get_NoDup; [apply Htbl|done]).
      rewrite E1 in E2. by injection E2 as -> _.
    Qed.

Lemma body_info_exists inf N b s :
      skeleton inf = SK → (N, b) ∈ sh → s ∈ b →
      ∃ i, (name s, i) ∈ inf ∧ term (i_symbol i) = term s.
    Proof.
      intros Hsk Hb Hs.
      destruct (tbl_body _ _ Htbl N b s Hb Hs) as (s' & rs & Hin & Ht).
      rewrite <- Hsk in Hin. unfold skeleton in Hin.
      apply list_elem_of_fmap in Hin as ([k i] & [= Hk -> ->] & Hin).
      simpl in *. exists i. by rewrite Hk.
    Qed.

Lemma shape_elem ps p : shape <$> ps = sh → p ∈ ps → shape p ∈ sh.
    Proof.
      intros <- H. apply list_elem_of_fmap. by exists p.
    Qed.

Lemma shape_lookup ps n N b :
      shape <$> ps = sh → sh !! n = Some (N, b) →
      ∃ p, ps !! n = Some p ∧ name (head p) = N ∧ body p = b.
    Proof.
      intros <- H. rewrite list_lookup_fmap in H.
      destruct (ps !! n) as [p|]; [|done].
      injection H as H1 H2. by exists p.
    Qed.

    (** a rule of a symbol's list is a production of the symbol *)
Lemma info_rule ps inf k i n :
      shape <$> ps = sh → skeleton inf = SK → (k, i) ∈ inf → n ∈ i_rules i →
      ∃ p, ps !! n = Some p ∧ p ∈ ps ∧ name (head p) = k ∧ (k, body p) ∈ sh.
    Proof.
      intros Hsh Hsk Hi Hn. apply skeleton_elem in Hi. rewrite Hsk in Hi.
      apply (tbl_rules _ _ Htbl _ _ _ n Hi) in Hn as [b Hb].
      destruct (shape_lookup ps n k b Hsh Hb) as (p & Hp & Hh & Hbd).
      exists p. split; [done|]. split; [by eapply list_elem_of_lookup_2|].
      split; [done|]. subst b. by eapply list_elem_of_lookup_2.
    Qed.

    (** a production of a symbol is in the symbol's list *)
Lemma rule_info ps inf k i b :
      shape <$> ps = sh → skeleton inf = SK → (k, i) ∈ inf → (k, b) ∈ sh →
      ∃ n p, n ∈ i_rules i ∧ ps !! n = Some p ∧ p ∈ ps ∧ body p = b.
    Proof.
      intros Hsh Hsk Hi Hb. apply skeleton_elem in Hi. rewrite Hsk in Hi.
      apply list_elem_of_lookup in Hb as [n Hn].
      destruct (shape_lookup ps n k b Hsh Hn) as (p & Hp & Hh & Hbd).
      exists n, p. split; [|split; [done|split; [by eapply list_elem_of_lookup_2|done]]].
      apply (tbl_rules _ _ Htbl _ _ _ n Hi). by exists b.
    Qed.

Lemma nullable_inv N :
      nullable sh N → ∃ b, (N, b) ∈ sh ∧ rule_null sh b.
    Proof.
      intros H. destruct H as [N b Hb Ht Hn].
      exists b. split; [done|]. intros s Hs. split; auto.
    Qed.

Lemma rule_null_nullable N b :
      (N, b) ∈ sh → rule_null sh b → nullable sh N.
    Proof.
      intros Hb H. apply (nullable_rule sh N b Hb); intros s Hs; by apply H.
    Qed.

Lemma update_epsilon_production_sound ps inf p p' c :
      eps_inv sh SK ps inf → p ∈ ps →
      update_epsilon_production inf p = inr (p', c) →
      shape p' = shape p ∧
      sound_flags (rule_null sh (body p')) (is_epsilon p') (has_epsilon p').
    Proof.
      intros (Hsh & Hsk & Hps & Hinf) Hp.
      pose proof (Hps p Hp) as (Hs1 & Hs2 & Hs3 & Hs4).
      pose proof (shape_elem ps p Hsh Hp) as Hshp. unfold shape in Hshp.
      unfold update_epsilon_production.
      assert (Hterm : ∀ t, t ∈ body p → term t = true → ¬ rule_null sh (body p)).
      { intros t Ht Htt Hn. destruct (Hn t Ht). congruence. }
      assert (Hall : ∀ (f : SymbolInfo → option bool) infos,
                 (∀ k i, (k, i) ∈ inf → term (i_symbol i) = false →
                    f i = Some true → nullable sh k) →
                 leftmost_terminal (body p) = None →
                 body_infos inf (body p) = inr infos →
                 (length (body p) ≤ count_flag true (f <$> infos))%nat →
                 rule_null sh (body p)).
      { intros f infos Hf Hl Hb Hc s Hs.
        rewrite leftmost_terminal_None in Hl.
        split; [by apply Hl|].
        destruct (body_infos_all inf (body p) infos true Hb Hc s Hs)
          as (i & Hi & Hfi).
        apply (Hf (name s) i); [by apply alist_get_elem| |done].
        rewrite (body_info inf _ _ s i Hsk Hshp Hs Hi). by apply Hl. }
      assert (Hnone : ∀ (f : SymbolInfo → option bool) infos,
                 (∀ k i, (k, i) ∈ inf → term (i_symbol i) = false →
                    f i = Some false → ¬ nullable sh k) →
                 leftmost_terminal (body p) = None →
                 body_infos inf (body p) = inr infos →
                 (0 < count_flag false (f <$> infos))%nat →
                 ¬ rule_null sh (body p)).
      { intros f infos Hf Hl Hb Hc Hn.
        rewrite leftmost_terminal_None in Hl.
        destruct (body_infos_some inf (body p) infos false Hb Hc)
          as (s & i & Hs & Hi & Hfi).
        apply (Hf (name s) i); [by apply alist_get_elem| |done|by apply Hn].
        rewrite (body_info inf _ _ s i Hsk Hshp Hs Hi). by apply Hl. }
      assert (His_t : ∀ k i, (k, i) ∈ inf → term (i_symbol i) = false →
                 i_is_epsilon i = Some true → nullable sh k)
        by (intros k i Hi Ht; apply (Hinf k i Hi Ht)).
      assert (Hhas_t : ∀ k i, (k, i) ∈ inf → term (i_symbol i) = false →
                 i_has_epsilon i = Some true → nullable sh k)
        by (intros k i Hi Ht; apply (Hinf k i Hi Ht)).
      assert (His_f : ∀ k i, (k, i) ∈ inf → term (i_symbol i) = false →
                 i_is_epsilon i = Some false → ¬ nullable sh k)
        by (intros k i Hi Ht; apply (Hinf k i Hi Ht)).
      assert (Hhas_f : ∀ k i, (k, i) ∈ inf → term (i_symbol i) = false →
                 i_has_epsilon i = Some false → ¬ nullable sh k)
        by (intros k i Hi Ht; apply (Hinf k i Hi Ht)).
      destruct (leftmost_terminal (body p)) as [t|] eqn:El.
      - apply leftmost_terminal_Some in El as [Ht Htt].
        specialize (Hterm t Ht Htt).
        destruct (is_epsilon p) as [[]|] eqn:E1,
                 (has_epsilon p) as [[]|] eqn:E2;
          intros [= <- <-]; (split; [done|]);
          split_flags; rewrite ?E1, ?E2; try done; intros _; auto.
      - destruct (body_infos inf (body p)) as [e|infos] eqn:Eb.
        { destruct (is_epsilon p) as [[]|], (has_epsilon p) as [[]|];
            intros H; try done; injection H as <- <-;
            (split; [done|]); exact (Hps p Hp). }
        specialize (Hall) with (infos := infos).
        specialize (Hnone) with (infos := infos).
        destruct (is_epsilon p) as [bi|] eqn:E1.
        + destruct (has_epsilon p) as [bh|] eqn:E2.
          { intros [= <- <-]. split; [done|]. exact (Hps p Hp). }
          simpl. repeat case_match; simplify_eq; intros [= <- <-];
            (split; [done|]); split_flags; try done; intros _;
            try (apply (Hall i_has_epsilon); [done..|by apply Nat.leb_le]);
            try (apply (Hnone i_has_epsilon); [done..|by apply Nat.ltb_lt]);
            auto.
        + simpl. repeat case_match; simplify_eq; intros [= <- <-];
            (split; [done|]); split_flags; try done; try intros _;
            try (apply (Hall i_is_epsilon); [done..|by apply Nat.leb_le]);
            try (apply (Hall i_has_epsilon); [done..|by apply Nat.leb_le]);
            try (apply (Hnone i_is_epsilon); [done..|by apply Nat.ltb_lt]);
            try (apply (Hnone i_has_epsilon); [done..|by apply Nat.ltb_lt]);
            auto.
    Qed.

Lemma eps_inv_pre ps inf : eps_inv sh SK ps inf → eps_pre sh SK ps inf.
    Proof.
      intros (Hsh & Hsk & Hps & Hinf).
      split; [done|]. split; [done|]. split; [done|].
      intros k i Hi Ht. by destruct (Hinf k i Hi Ht).
    Qed.

Lemma rule_flag_true ps inf k i n p (f : Production → option bool) :
      eps_pre sh SK ps inf → (k, i) ∈ inf → n ∈ i_rules i →
      ps !! n = Some p → (f = is_epsilon ∨ f = has_epsilon) →
      f p = Some true → nullable sh k.
    Proof.
      intros Hinv Hi Hn Hp Hf Hfp.
      destruct Hinv as (Hsh & Hsk & Hps & Hinf).
      destruct (info_rule ps inf k i n Hsh Hsk Hi Hn) as (p' & Hp' & Hin & Hh & Hb).
      rewrite Hp in Hp'. injection Hp' as <-.
      apply (rule_null_nullable k (body p) Hb).
      destruct (Hps p Hin) as (H1 & H2 & _).
      destruct Hf as [-> | ->]; auto.
    Qed.

Lemma rule_flag_false ps inf k i (f : Production → option bool) :
      eps_pre sh SK ps inf → (k, i) ∈ inf →
      (f = is_epsilon ∨ f = has_epsilon) →
      (∀ n, n ∈ i_rules i → ∃ p, ps !! n = Some p ∧ f p = Some false) →
      ¬ nullable sh k.
    Proof.
      intros Hinv Hi Hf Hall Hn.
      destruct Hinv as (Hsh & Hsk & Hps & Hinf).
      apply nullable_inv in Hn as (b & Hb & Hnull).
      destruct (rule_info ps inf k i b Hsh Hsk Hi Hb) as (n & p & Hn & Hp & Hin & Hbd).
      destruct (Hall n Hn) as (p' & Hp' & Hfp).
      rewrite Hp in Hp'. injection Hp' as <-.
      destruct (Hps p Hin) as (_ & _ & H3 & H4). subst b.
      destruct Hf as [-> | ->]; [by apply H3|by apply H4].
    Qed.

Lemma update_epsilon_symbol_sound ps inf k i :
      eps_inv sh SK ps inf → (k, i) ∈ inf → term (i_symbol i) = false →
      let i' := (update_epsilon_symbol ps i).1 in
      i_symbol i' = i_symbol i ∧ i_rules i' = i_rules i ∧
      sound_flags (nullable sh k) (i_is_epsilon i') (i_has_epsilon i') ∧
      (i_rules i' = [] → is_Some (i_is_epsilon i') ∧ is_Some (i_has_epsilon i')).
    Proof.
      intros Hinv Hi Ht.
      pose proof Hinv as (Hsh & Hsk & Hps & Hinf).
      pose proof (eps_inv_pre ps inf Hinv) as Hpre.
      destruct (Hinf k i Hi Ht) as [Hsound Hempty].
      assert (Hall_t : ∀ f : Production → option bool,
                (f = is_epsilon ∨ f = has_epsilon) →
                i_rules i ≠ [] →
                (length (i_rules i) ≤
                   count_flag true (f <$> omap (λ n, ps !! n) (i_rules i)))%nat →
                nullable sh k).
      { intros f Hf Hne Hc. destruct (i_rules i) as [|n r] eqn:Er; [done|].
        destruct (count_omap_all f _ true _ Hc n) as (p & Hp & Hfp); [left|].
        apply (rule_flag_true ps inf k i n p f); try done.
        rewrite Er. left. }
      assert (Hsome_t : ∀ f : Production → option bool,
                (f = is_epsilon ∨ f = has_epsilon) →
                (0 < count_flag true (f <$> omap (λ n, ps !! n) (i_rules i)))%nat →
                nullable sh k).
      { intros f Hf Hc.
        destruct (count_omap_some f _ true _ Hc) as (n & p & Hn & Hp & Hfp).
        by apply (rule_flag_true ps inf k i n p f). }
      assert (Hall_f : ∀ f : Production → option bool,
                (f = is_epsilon ∨ f = has_epsilon) →
                (length (i_rules i) ≤
                   count_flag false (f <$> omap (λ n, ps !! n) (i_rules i)))%nat →
                ¬ nullable sh k).
      { intros f Hf Hc. apply (rule_flag_false ps inf k i f); try done.
        intros n Hn. by apply (count_omap_all f _ false _ Hc n). }
      unfold update_epsilon_symbol. rewrite Ht.
      destruct Hsound as (Hs1 & Hs2 & Hs3 & Hs4).
      destruct (i_is_epsilon i) as [bi|] eqn:E1.
      - destruct (i_has_epsilon i) as [bh|] eqn:E2.
        { simpl. rewrite E1, E2. repeat split; try done; by eexists. }
        simpl. repeat case_match; simplify_eq; simpl;
          (split; [done|]); (split; [done|]);
          (split; [split_flags; try done; intros _|]).
        all: try (intros _; split; by eexists).
        all: try (apply (Hsome_t has_epsilon); [by right|by apply Nat.ltb_lt]).
        all: try (apply (Hall_f has_epsilon); [by right|by apply Nat.leb_le]).
        all: try (intros Hr; destruct (Hempty Hr) as [_ [? ?]]; done).
      - assert (Hne : i_rules i ≠ []).
        { intros Hr. destruct (Hempty Hr) as [[? ?] _]. done. }
        simpl. repeat case_match; simplify_eq; simpl;
          (split; [done|]); (split; [done|]);
          (split; [split_flags; try done; try intros _|]).
        all: try (intros _; split; by eexists).
        all: try (intros Hr; done).
        all: try (apply (Hall_t is_epsilon); [by left|done|by apply Nat.leb_le]).
        all: try (apply (Hall_f is_epsilon); [by left|by apply Nat.leb_le]).
        all: try (apply (Hsome_t has_epsilon); [by right|by apply Nat.ltb_lt]).
        all: try (apply (Hall_f has_epsilon); [by right|by apply Nat.leb_le]).
        all: auto.
    Qed.

Lemma init_info_sound ps inf k i :
      eps_pre sh SK ps inf → (k, i) ∈ inf → term (i_symbol i) = false →
      i_symbol (init_info ps i) = i_symbol i ∧
      i_rules (init_info ps i) = i_rules i ∧
      sound_flags (nullable sh k) (i_is_epsilon (init_info ps i))
        (i_has_epsilon (init_info ps i)) ∧
      (i_rules (init_info ps i) = [] →
         is_Some (i_is_epsilon (init_info ps i)) ∧
         is_Some (i_has_epsilon (init_info ps i))).
    Proof.
      intros Hinv Hi Ht.
      pose proof Hinv as (Hsh & Hsk & Hps & Hinf).
      pose proof (Hinf k i Hi Ht) as Hsound.
      unfold init_info. rewrite Ht.
      case_bool_decide as Er.
      - apply length_zero_iff_nil in Er. simpl.
        split; [done|]. split; [done|].
        assert (¬ nullable sh k) as Hn.
        { apply (rule_flag_false ps inf k i is_epsilon); [done|done|by left|].
          rewrite Er. intros n Hn. by apply elem_of_nil in Hn. }
        split; [by split_flags|]. intros _. split; by eexists.
      - assert (Hne : i_rules i ≠ []) by (intros Hr; by rewrite Hr in Er).
        destruct Hsound as (Hs1 & Hs2 & Hs3 & Hs4).
        repeat case_match; simpl;
          (split; [done|]); (split; [done|]).
        + split; [|intros Hr; done].
          assert (nullable sh k); [|by split_flags].
          destruct (i_rules i) as [|n r] eqn:Erl; [done|].
          match goal with H : (_ <=? _)%nat = true |- _ =>
            apply Nat.leb_le in H;
            destruct (count_omap_all is_epsilon _ true _ H n) as (p & Hp & Hfp);
              [left|] end.
          apply (rule_flag_true ps inf k i n p is_epsilon); try done;
            [rewrite Erl; left|by left].
        + split; [|intros Hr; done].
          assert (nullable sh k); [|by split_flags].
          match goal with H : (0 <? _)%nat = true |- _ =>
            apply Nat.ltb_lt in H;
            destruct (count_omap_some is_epsilon _ true _ H)
              as (n & p & Hn & Hp & Hfp) end.
          by apply (rule_flag_true ps inf k i n p is_epsilon); try done; left.
        + split; [by split_flags|done].
    Qed.

    (** *** The passes keep the invariant *)

Lemma pass_productions_Forall2 inf l l' c :
      pass_productions inf l = inr (l', c) →
      Forall2 (λ p p', ∃ c', update_epsilon_production inf p = inr (p', c')
                              ∧ (c = 0%nat → c' = 0%nat)) l l'.
    Proof.
      revert l' c. induction l as [|p l IH]; intros l' c; simpl.
      - intros [= <- <-]. constructor.
      - destruct (update_epsilon_production inf p) as [e|[p' c1]] eqn:E1; [done|].
        destruct (pass_productions inf l) as [e|[l'' c2]] eqn:E2; [done|].
        intros [= <- <-]. constructor.
        + exists c1. split; [done|lia].
        + eapply Forall2_impl; [by apply IH|].
          intros x y (c' & H1 & H2). exists c'. split; [done|]. lia.
    Qed.

Lemma pass_productions_inv ps inf ps' c :
      eps_inv sh SK ps inf → pass_productions inf ps = inr (ps', c) →
      eps_inv sh SK ps' inf.
    Proof.
      intros Hinv Hpass. pose proof Hinv as (Hsh & Hsk & Hps & Hinf).
      apply pass_productions_Forall2 in Hpass.
      assert (Hstep : Forall2 (λ p p', shape p' = shape p ∧
                sound_flags (rule_null sh (body p')) (is_epsilon p')
                  (has_epsilon p')) ps ps').
      { apply Forall2_same_length_lookup. split; [by eapply Forall2_length|].
        intros n p p' Hp Hp'.
        destruct (Forall2_lookup_lr _ _ _ _ _ _ Hpass Hp Hp') as (c' & Hc & _).
        eapply update_epsilon_production_sound; [done| |done].
        by eapply list_elem_of_lookup_2. }
      split; [|split; [done|split; [|done]]].
      - rewrite <- Hsh. clear -Hstep.
        induction Hstep as [|p p' l l' [H _] _ IH]; [done|].
        rewrite !fmap_cons. by f_equal.
      - intros p' Hp'. apply list_elem_of_lookup in Hp' as [n Hn].
        destruct (Forall2_lookup_r _ _ _ _ _ Hstep Hn) as (p & Hp & _ & H).
        done.
    Qed.

Lemma map_info_inv ps inf (f : SymbolInfo → SymbolInfo) :
      eps_pre sh SK ps inf →
      (∀ k i, (k, i) ∈ inf →
         i_symbol (f i) = i_symbol i ∧ i_rules (f i) = i_rules i) →
      (∀ k i, (k, i) ∈ inf → term (i_symbol i) = false →
         sound_flags (nullable sh k) (i_is_epsilon (f i)) (i_has_epsilon (f i)) ∧
         (i_rules (f i) = [] →
            is_Some (i_is_epsilon (f i)) ∧ is_Some (i_has_epsilon (f i)))) →
      eps_inv sh SK ps ((λ e : string * SymbolInfo, (e.1, f e.2)) <$> inf).
    Proof.
      intros (Hsh & Hsk & Hps & Hinf) Hf1 Hf2.
      split; [done|]. split; [|split; [done|]].
      - rewrite <- Hsk. unfold skeleton. rewrite <- list_fmap_compose.
        apply list_fmap_ext. intros n [k i] Hi. simpl.
        apply list_elem_of_lookup_2 in Hi.
        destruct (Hf1 k i Hi) as [-> ->]. done.
      - intros k i' Hi'. apply list_elem_of_fmap in Hi' as ([k0 i] & [= -> ->] & Hi).
        simpl. destruct (Hf1 k0 i Hi) as [-> _]. intros Ht. by apply Hf2.
    Qed.

Lemma pass_symbols_inv ps inf :
      eps_inv sh SK ps inf → eps_inv sh SK ps (pass_symbols ps inf).1.
    Proof.
      intros Hinv. unfold pass_symbols. simpl.
      apply (map_info_inv ps inf (λ i, (update_epsilon_symbol ps i).1)
               (eps_inv_pre ps inf Hinv)).
      - intros k i Hi. unfold update_epsilon_symbol.
        repeat case_match; simplify_eq; done.
      - intros k i Hi Ht.
        destruct (update_epsilon_symbol_sound ps inf k i Hinv Hi Ht)
          as (_ & _ & H1 & H2). done.
    Qed.

Lemma init_info_inv ps inf :
      eps_pre sh SK ps inf →
      eps_inv sh SK ps ((λ e : string * SymbolInfo, (e.1, init_info ps e.2)) <$> inf).
    Proof.
      intros Hinv.
      apply (map_info_inv ps inf (init_info ps) Hinv).
      - intros k i Hi. unfold init_info. repeat case_match; done.
      - intros k i Hi Ht.
        destruct (init_info_sound ps inf k i Hinv Hi Ht) as (_ & _ & H1 & H2).
        done.
    Qed.

    (** *** A round without a change leaves the state as it was *)

Lemma update_epsilon_production_zero inf p p' :
      update_epsilon_production inf p = inr (p', 0%nat) → p' = p.
    Proof.
      unfold update_epsilon_production. destruct p as [h b ix ie he pr ac pa].
      unfold set_flags. simpl.
      destruct ie as [bi|], he as [bh|]; simpl;
        repeat (case_match; simplify_eq; simpl in * );
        intros Hres; simplify_eq; try done; lia.
    Qed.

Lemma update_epsilon_symbol_zero ps i :
      (update_epsilon_symbol ps i).2 = 0%nat → (update_epsilon_symbol ps i).1 = i.
    Proof.
      unfold update_epsilon_symbol. destruct i as [sy rs ie he].
      unfold set_info_flags. simpl.
      destruct (term sy); [done|].
      destruct ie as [bi|], he as [bh|]; simpl;
        repeat (case_match; simplify_eq; simpl in * );
        intros Hres; simplify_eq; try done; lia.
    Qed.

Lemma sum_list_zero (l : list nat) :
      sum_list l = 0%nat → ∀ x, x ∈ l → x = 0%nat.
    Proof.
      induction l as [|y l IH]; simpl; intros H x Hx.
      - by apply elem_of_nil in Hx.
      - apply elem_of_cons in Hx as [->|Hx]; [lia|]. apply IH; [lia|done].
    Qed.

Lemma pass_symbols_zero ps inf :
      (pass_symbols ps inf).2 = 0%nat →
      (pass_symbols ps inf).1 = inf ∧
      ∀ k i, (k, i) ∈ inf → update_epsilon_symbol ps i = (i, 0%nat).
    Proof.
      unfold pass_symbols. simpl. intros H.
      assert (Hz : ∀ k i, (k, i) ∈ inf → (update_epsilon_symbol ps i).2 = 0%nat).
      { intros k i Hi. apply (sum_list_zero _ H).
        apply list_elem_of_fmap. by exists (k, i). }
      split.
      - rewrite <- (list_fmap_id inf) at 2. apply list_fmap_ext.
        intros n [k i] Hi. simpl. apply list_elem_of_lookup_2 in Hi.
        by rewrite (update_epsilon_symbol_zero ps i (Hz k i Hi)).
      - intros k i Hi. pose proof (Hz k i Hi) as H2.
        pose proof (update_epsilon_symbol_zero ps i H2) as H1.
        destruct (update_epsilon_symbol ps i). simpl in *. by subst.
    Qed.

Lemma pass_productions_zero inf ps ps' :
      pass_productions inf ps = inr (ps', 0%nat) →
      ps' = ps ∧ ∀ p, p ∈ ps → update_epsilon_production inf p = inr (p, 0%nat).
    Proof.
      intros H. apply pass_productions_Forall2 in H.
      assert (Heq : Forall2 (λ p p', p' = p ∧
                update_epsilon_production inf p = inr (p, 0%nat)) ps ps').
      { eapply Forall2_impl; [done|]. intros p p' (c' & H1 & H2).
        rewrite (H2 eq_refl) in H1.
        pose proof (update_epsilon_production_zero inf p p' H1) as ->. done. }
      split.
      - clear H. induction Heq as [|p p' l l' [-> _] _ IH]; [done|]. by f_equal.
      - intros p Hp. apply list_elem_of_lookup in Hp as [n Hn].
        destruct (Forall2_lookup_l _ _ _ _ _ Heq Hn) as (p' & _ & _ & H2). done.
    Qed.

Lemma epsilon_loop_S fuel ps inf :
      epsilon_loop (S fuel) ps inf =
      match pass_productions inf ps with
      | inl e => Raised e
      | inr (ps', c1) =>
          let '(inf', c2) := pass_symbols ps' inf in
          if bool_decide ((c1 + c2)%nat = 0%nat) then Done (ps', inf')
          else epsilon_loop fuel ps' inf'
      end.
    Proof. reflexivity. Qed.

Lemma epsilon_loop_inv fuel : ∀ ps inf ps' inf',
      eps_inv sh SK ps inf → epsilon_loop fuel ps inf = Done (ps', inf') →
      eps_inv sh SK ps' inf' ∧ eps_stable ps' inf'.
    Proof.
      induction fuel as [|fuel IH]; intros ps inf ps' inf' Hinv; [done|].
      rewrite epsilon_loop_S.
      destruct (pass_productions inf ps) as [e|[ps1 c1]] eqn:E1; [done|].
      pose proof (pass_productions_inv ps inf ps1 c1 Hinv E1) as Hinv1.
      pose proof (pass_symbols_inv ps1 inf Hinv1) as Hinv2.
      destruct (pass_symbols ps1 inf) as [inf1 c2] eqn:E2. simpl in Hinv2.
      case_bool_decide as Ec.
      - intros [= <- <-].
        assert (c1 = 0%nat ∧ c2 = 0%nat) as [-> ->] by lia.
        destruct (pass_productions_zero inf ps ps1 E1) as [-> Hp].
        destruct (pass_symbols_zero ps inf) as [Hi1 Hi2]; [by rewrite E2|].
        rewrite E2 in Hi1. simpl in Hi1. subst inf1.
        split; [done|]. by split.
      - by apply IH.
    Qed.

    (** *** At the end of the loop every nullable symbol is flagged *)

Lemma count_flag_full v l :
      (∀ o, o ∈ l → o = Some v) → count_flag v l = length l.
    Proof.
      unfold count_flag. induction l as [|x l IH]; intros H; [done|].
      rewrite filter_cons. rewrite decide_True by (apply H; left).
      simpl. f_equal. apply IH. intros o Ho. apply H. by right.
    Qed.

Lemma count_omap_pos {A} (f : A → option bool) (g : nat → option A) v l n a :
      n ∈ l → g n = Some a → f a = Some v →
      (0 < count_flag v (f <$> omap g l))%nat.
    Proof.
      intros Hn Hg Hf.
      assert (Some v ∈ f <$> omap g l) as Hin.
      { apply list_elem_of_fmap. exists a. split; [done|].
        apply list_elem_of_omap. by exists n. }
      unfold count_flag.
      assert (Some v ∈ filter (λ o, o = Some v) (f <$> omap g l)) as Hf2
        by (by apply list_elem_of_filter).
      destruct (filter _ _); [by apply elem_of_nil in Hf2|simpl; lia].
    Qed.

Lemma eps_complete ps inf :
      eps_inv sh SK ps inf → eps_stable ps inf →
      ∀ N, nullable sh N →
      ∀ i, (N, i) ∈ inf → term (i_symbol i) = false →
           i_has_epsilon i = Some true.
    Proof.
      intros Hinv [Hstp Hsti] N Hnull.
      pose proof Hinv as (Hsh & Hsk & Hps & Hinf).
      induction Hnull as [N b Hb Ht Hn IH]. intros i Hi Hti.
      destruct (rule_info ps inf N i b Hsh Hsk Hi Hb)
        as (n & p & Hnr & Hpn & Hp & Hbp).
      assert (Hrn : rule_null sh (body p)).
      { rewrite Hbp. intros s Hs. split; auto. }
      assert (HN : nullable sh N) by (by apply (nullable_rule sh N b)).
      (* the production is flagged *)
      assert (Hhp : has_epsilon p = Some true).
      { destruct (Hps p Hp) as (_ & _ & _ & H4).
        destruct (has_epsilon p) as [[]|] eqn:E2; [done|by destruct H4|].
        exfalso. pose proof (Hstp p Hp) as Hst.
        unfold update_epsilon_production in Hst. rewrite E2 in Hst.
        assert (leftmost_terminal (body p) = None) as El.
        { apply leftmost_terminal_None. intros s Hs. by apply Hrn. }
        rewrite El in Hst.
        destruct (body_infos inf (body p)) as [e|infos] eqn:Eb.
        { destruct (is_epsilon p); done. }
        assert (Hc : count_flag true (i_has_epsilon <$> infos) = length (body p)).
        { pose proof (body_infos_ok _ _ _ Eb) as HF.
          rewrite (Forall2_length _ _ _ HF), <- (length_fmap i_has_epsilon).
          apply count_flag_full. intros o Ho.
          apply list_elem_of_fmap in Ho as (i0 & -> & Hi0).
          apply list_elem_of_lookup in Hi0 as [j Hj].
          destruct (Forall2_lookup_r _ _ _ _ _ HF Hj) as (s & Hs & Hg).
          apply list_elem_of_lookup_2 in Hs.
          assert (s ∈ b) as Hsb by (by rewrite <- Hbp).
          apply (IH s Hsb); [by apply alist_get_elem|].
          rewrite (body_info inf N (body p) s i0 Hsk); try done.
          - by apply Ht.
          - by rewrite Hbp. }
        simpl in Hst. rewrite Hc, Nat.leb_refl in Hst.
        destruct (is_epsilon p); simpl in Hst;
          repeat (case_match; simplify_eq; simpl in * ); simplify_eq; lia. }
      (* and so is the symbol *)
      destruct (Hinf N i Hi Hti) as [(_ & _ & _ & H4) _].
      destruct (i_has_epsilon i) as [[]|] eqn:E2; [done|by destruct H4|].
      exfalso. pose proof (Hsti N i Hi) as Hst.
      unfold update_epsilon_symbol in Hst. rewrite Hti, E2 in Hst.
      pose proof (count_omap_pos has_epsilon (λ k, ps !! k) true
                    (i_rules i) n p Hnr Hpn Hhp) as Hc.
      apply Nat.ltb_lt in Hc.
      simpl in Hst. rewrite Hc in Hst.
      destruct (i_is_epsilon i); simpl in Hst;
        repeat (case_match; simplify_eq; simpl in * ); simplify_eq; lia.
    Qed.

    (** ** The FIRST sets *)

Lemma add_first_elem (fs : NameSet) : ∀ (out : NameSet) (m : string),
      m ∈ foldl (λ out n, if bool_decide (n = name EPSILON) then out
                          else set_add n out) out fs
      ↔ m ∈ out ∨ (m ∈ fs ∧ m ≠ "").
    Proof.
      induction fs as [|x fs IH]; intros out m; simpl.
      - split; [by left|]. intros [H|[H _]]; [done|by apply elem_of_nil in H].
      - rewrite IH. case_bool_decide as E.
        + rewrite elem_of_cons. split.
          * intros [H|[H1 H2]]; [by left|right; split; [by right|done]].
          * intros [H|[[->|H1] H2]]; [by left|done|right; by split].
        + rewrite set_add_elem, elem_of_cons. split.
          * intros [[->|H]|[H1 H2]];
              [right; split; [by left|done]|by left|right; split; [by right|done]].
          * intros [H|[[->|H1] H2]];
              [left; by right|left; by left|right; by split].
    Qed.

Lemma calculate_first_set_eps F v : ∀ out r,
      first_inv sh F → (∀ s, s ∈ v → term s = true → name s ≠ "") →
      calculate_first_set F v out = inr r → "" ∈ r →
      "" ∈ out ∨ rule_null sh v.
    Proof.
      induction v as [|s v IH]; intros out r HF Hv; simpl.
      - intros _ _. right. intros s Hs. by apply elem_of_nil in Hs.
      - destruct (term s) eqn:Et.
        + intros [= <-] Hr. apply set_add_elem in Hr as [Hr|Hr]; [|by left].
          exfalso. apply (Hv s); [left|done|done].
        + destruct (alist_get (name s) F) as [fs|] eqn:Ef; [|done].
          case_bool_decide as Ee.
          * intros Hc Hr.
            destruct (IH _ r HF (λ s' Hs', Hv s' (list_elem_of_further _ _ _ Hs')) Hc Hr)
              as [Ho|Hn].
            -- apply add_first_elem in Ho as [Ho|[_ Ho]]; [by left|done].
            -- right. intros s' Hs'. apply elem_of_cons in Hs' as [->|Hs'].
               ++ split; [done|]. by apply (HF (name s) fs).
               ++ by apply Hn.
          * intros [= <-] Hr.
            apply add_first_elem in Hr as [Ho|[_ Ho]]; [by left|done].
    Qed.

Lemma calculate_first_set_null F v : ∀ out,
      (∀ s, s ∈ v → term s = false ∧
          ∃ fs, alist_get (name s) F = Some fs ∧ "" ∈ fs) →
      ∃ r, calculate_first_set F v out = inr r ∧ "" ∈ r.
    Proof.
      induction v as [|s v IH]; intros out Hv; simpl.
      - eexists. split; [done|]. apply set_add_elem. by left.
      - destruct (Hv s) as (-> & fs & -> & Hfs); [left|].
        rewrite bool_decide_eq_true_2 by done.
        apply IH. intros s' Hs'. apply Hv. by right.
    Qed.

Lemma foldl_set_add_id (first cur : NameSet) :
      first ⊆ cur → foldl (λ s n, set_add n s) cur first = cur.
    Proof.
      induction first as [|x first IH]; intros H; [done|]. simpl.
      unfold set_add at 2. rewrite bool_decide_eq_true_2 by (apply H; left).
      apply IH. intros y Hy. apply H. by right.
    Qed.

Lemma foldl_set_add_elem (first : NameSet) : ∀ (cur : NameSet) m,
      m ∈ foldl (λ s n, set_add n s) cur first ↔ m ∈ cur ∨ m ∈ first.
    Proof.
      induction first as [|x first IH]; intros cur m; simpl.
      - split; [by left|]. intros [H|H]; [done|by apply elem_of_nil in H].
      - rewrite IH, set_add_elem, elem_of_cons. tauto.
    Qed.

Lemma absorb_inv sym first F c F' c' :
      first_inv sh F → ("" ∈ first → nullable sh sym) →
      absorb sym first (F, c) = inr (F', c') →
      first_inv sh F' ∧ (c ≤ c')%nat.
    Proof.
      intros HF Hn. unfold absorb. simpl.
      destruct (alist_get sym F) as [cur|] eqn:E.
      - intros [= <- <-]. split; [|lia].
        intros N fs. destruct (decide (sym = N)) as [<-|Hne].
        + rewrite alist_get_set_eq. intros [= <-] He.
          apply foldl_set_add_elem in He as [He|He]; [by apply (HF sym cur)|auto].
        + rewrite alist_get_set_ne by done. apply HF.
      - case_bool_decide; [|done]. intros [= <- <-]. split; [done|lia].
    Qed.

Lemma absorb_zero sym first F c F' :
      absorb sym first (F, c) = inr (F', c) →
      F' = F ∧ (first = [] ∨ ∃ cur, alist_get sym F = Some cur ∧ first ⊆ cur).
    Proof.
      unfold absorb. simpl.
      destruct (alist_get sym F) as [cur|] eqn:E.
      - intros [= <- Hc].
        assert (filter (λ n, n ∉ cur) first = []) as Hnew.
        { apply length_zero_iff_nil. lia. }
        assert (first ⊆ cur) as Hsub.
        { intros x Hx. destruct (decide (x ∈ cur)) as [|Hnx]; [done|].
          assert (x ∈ filter (λ n, n ∉ cur) first) as Hin
            by (by apply list_elem_of_filter).
          rewrite Hnew in Hin. by apply elem_of_nil in Hin. }
        split; [|right; by exists cur].
        rewrite (foldl_set_add_id first cur Hsub). by apply alist_set_id.
      - case_bool_decide as Ef; [|done]. intros [= <-]. split; [done|by left].
    Qed.

Lemma first_rules_inv ps sym rules : ∀ st st',
      (∀ n p, n ∈ rules → ps !! n = Some p →
         (sym, body p) ∈ sh) →
      first_inv sh st.1 →
      first_rules ps sym rules st = inr st' →
      first_inv sh st'.1 ∧ (st.2 ≤ st'.2)%nat.
    Proof.
      induction rules as [|n rules IH]; intros st st' Hr HF; simpl.
      - intros [= <-]. split; [done|lia].
      - destruct (ps !! n) as [p|] eqn:Ep; [|done].
        destruct (vector_first_set st.1 (body p)) as [e|first] eqn:Ev; [done|].
        destruct (absorb sym first st) as [e|st1] eqn:Ea; [done|].
        intros Hres. destruct st as [F c], st1 as [F1 c1]. simpl in *.
        assert (Hb : (sym, body p) ∈ sh) by (apply (Hr n p); [left|done]).
        destruct (absorb_inv sym first F c F1 c1 HF) as [HF1 Hc1]; [|done|].
        { intros He. unfold vector_first_set in Ev.
          destruct (calculate_first_set_eps F (body p) [] first HF) as [H|H];
            try done.
          - intros s Hs. by apply (tbl_body_term _ _ Htbl sym (body p)).
          - by apply elem_of_nil in H.
          - by apply (rule_null_nullable sym (body p)). }
        destruct (IH (F1, c1) st') as [H1 H2]; try done.
        { intros n' p' Hn'. apply Hr. by right. }
        split; [done|]. simpl in H2. lia.
    Qed.

Lemma first_rules_zero ps sym rules : ∀ st st',
      (∀ n p, n ∈ rules → ps !! n = Some p → (sym, body p) ∈ sh) →
      first_inv sh st.1 →
      first_rules ps sym rules st = inr st' → st'.2 = st.2 →
      st'.1 = st.1 ∧
      ∀ n, n ∈ rules → ∃ p first,
        ps !! n = Some p ∧ vector_first_set st.1 (body p) = inr first ∧
        (first = [] ∨ ∃ cur, alist_get sym st.1 = Some cur ∧ first ⊆ cur).
    Proof.
      induction rules as [|n rules IH]; intros st st' Hr HF; simpl.
      - intros [= <-] _. split; [done|]. intros n Hn. by apply elem_of_nil in Hn.
      - destruct (ps !! n) as [p|] eqn:Ep; [|done].
        destruct (vector_first_set st.1 (body p)) as [e|first] eqn:Ev; [done|].
        destruct (absorb sym first st) as [e|st1] eqn:Ea; [done|].
        intros Hres Hc. destruct st as [F c], st1 as [F1 c1]. simpl in *.
        assert (Hb : (sym, body p) ∈ sh) by (apply (Hr n p); [left|done]).
        destruct (absorb_inv sym first F c F1 c1 HF) as [HF1 Hc1]; [|done|].
        { intros He. unfold vector_first_set in Ev.
          destruct (calculate_first_set_eps F (body p) [] first HF) as [H|H];
            try done.
          - intros s Hs. by apply (tbl_body_term _ _ Htbl sym (body p)).
          - by apply elem_of_nil in H.
          - by apply (rule_null_nullable sym (body p)). }
        assert (Hr' : ∀ n' p', n' ∈ rules → ps !! n' = Some p' →
                   (sym, body p') ∈ sh).
        { intros n' p' Hn'. apply Hr. by right. }
        destruct (first_rules_inv ps sym rules (F1, c1) st' Hr' HF1 Hres)
          as [_ Hc2]. simpl in Hc2.
        assert (c1 = c) as -> by lia.
        destruct (absorb_zero sym first F c F1 Ea) as [-> Hsub].
        destruct (IH (F, c) st' Hr' HF Hres Hc) as [H1 H2].
        split; [done|]. intros n' Hn'.
        apply elem_of_cons in Hn' as [->|Hn']; [|by apply H2].
        exists p, first. done.
    Qed.

Lemma first_pass_inv ps inf nts : ∀ st st',
      shape <$> ps = sh → skeleton inf = SK →
      first_inv sh st.1 →
      first_pass ps inf nts st = inr st' →
      first_inv sh st'.1 ∧ (st.2 ≤ st'.2)%nat.
    Proof.
      induction nts as [|sym nts IH]; intros st st' Hsh Hsk HF; simpl.
      - intros [= <-]. split; [done|lia].
      - destruct (alist_get sym inf) as [i|] eqn:Ei; [|done].
        destruct (first_rules ps sym (i_rules i) st) as [e|st1] eqn:Er; [done|].
        intros Hres.
        destruct (first_rules_inv ps sym (i_rules i) st st1) as [H1 H2]; try done.
        { intros n p Hn Hp. apply alist_get_elem in Ei.
          destruct (info_rule ps inf sym i n Hsh Hsk Ei Hn) as (p' & Hp' & _ & _ & Hb).
          rewrite Hp in Hp'. by injection Hp' as <-. }
        destruct (IH st1 st' Hsh Hsk H1 Hres) as [H3 H4].
        split; [done|lia].
    Qed.

Lemma first_pass_zero ps inf nts : ∀ st st',
      shape <$> ps = sh → skeleton inf = SK →
      first_inv sh st.1 →
      first_pass ps inf nts st = inr st' → st'.2 = st.2 →
      st'.1 = st.1 ∧
      ∀ sym, sym ∈ nts → ∃ i, alist_get sym inf = Some i ∧
        ∀ n, n ∈ i_rules i → ∃ p first,
          ps !! n = Some p ∧ vector_first_set st.1 (body p) = inr first ∧
          (first = [] ∨ ∃ cur, alist_get sym st.1 = Some cur ∧ first ⊆ cur).
    Proof.
      induction nts as [|sym nts IH]; intros st st' Hsh Hsk HF; simpl.
      - intros [= <-] _. split; [done|]. intros n Hn. by apply elem_of_nil in Hn.
      - destruct (alist_get sym inf) as [i|] eqn:Ei; [|done].
        destruct (first_rules ps sym (i_rules i) st) as [e|st1] eqn:Er; [done|].
        intros Hres Hc.
        assert (Hr : ∀ n p, n ∈ i_rules i → ps !! n = Some p →
                  (sym, body p) ∈ sh).
        { intros n p Hn Hp. apply alist_get_elem in Ei.
          destruct (info_rule ps inf sym i n Hsh Hsk Ei Hn) as (p' & Hp' & _ & _ & Hb).
          rewrite Hp in Hp'. by injection Hp' as <-. }
        destruct (first_rules_inv ps sym (i_rules i) st st1 Hr HF Er) as [H1 H2].
        destruct (first_pass_inv ps inf nts st1 st' Hsh Hsk H1 Hres) as [H3 H4].
        assert (st1.2 = st.2) as Hc1 by lia.
        destruct (first_rules_zero ps sym (i_rules i) st st1 Hr HF Er Hc1)
          as [Hst1 Hrules].
        assert (st' .2 = st1.2) as Hc2 by lia.
        destruct (IH st1 st' Hsh Hsk H1 Hres Hc2) as [Hst' Hrest].
        split; [congruence|]. intros sym' Hs'.
        apply elem_of_cons in Hs' as [->|Hs'].
        + exists i. done.
        + rewrite <- Hst1. by apply Hrest.
    Qed.

Lemma nonterminal_elem inf : ∀ N i,
      (N, i) ∈ inf → term (i_symbol i) = false →
      name (i_symbol i) ∈ nonterminal inf.
    Proof.
      unfold nonterminal.
      assert (Hmono : ∀ (l : list (string * SymbolInfo)) acc m, m ∈ acc →
        m ∈ foldl (λ acc (e : string * SymbolInfo),
             if term (i_symbol e.2) then acc
             else set_add (name (i_symbol e.2)) acc) acc l).
      { induction l as [|e l IH]; intros acc m Hm; [done|]. simpl.
        apply IH. destruct (term (i_symbol e.2)); [done|].
        apply set_add_elem. by right. }
      generalize (@nil string).
      induction inf as [|e inf IH]; intros acc N i Hi Ht.
      - by apply elem_of_nil in Hi.
      - simpl. apply elem_of_cons in Hi as [<-|Hi].
        + simpl. rewrite Ht. apply Hmono, set_add_elem. by left.
        + by apply (IH _ N i).
    Qed.

Lemma first_loop_inv fuel ps inf : ∀ F F',
      shape <$> ps = sh → skeleton inf = SK →
      first_inv sh F → first_loop fuel ps inf F = Done F' →
      first_inv sh F' ∧ first_stable ps inf F'.
    Proof.
      induction fuel as [|fuel IH]; intros F F' Hsh Hsk HF; [done|]. simpl.
      destruct (first_pass ps inf (nonterminal inf) (F, 0%nat))
        as [e|[F1 c]] eqn:Ep; [done|].
      destruct (first_pass_inv ps inf _ (F, 0%nat) _ Hsh Hsk HF Ep) as [HF1 _].
      case_bool_decide as Ec.
      - intros [= <-]. subst c. split; [done|].
        destruct (first_pass_zero ps inf _ (F, 0%nat) _ Hsh Hsk HF Ep eq_refl)
          as [HF' Hst]. simpl in HF'. subst F1.
        intros N i n p Hi Ht Hn Hp.
        pose proof (skeleton_elem inf N i Hi) as Hski. rewrite Hsk in Hski.
        pose proof (tbl_name _ _ Htbl _ _ _ Hski) as Hname.
        destruct (Hst N) as (i' & Hi' & Hrules).
        { rewrite <- Hname. by apply (nonterminal_elem inf N i). }
        rewrite (info_get inf N i Hsk Hi) in Hi'. injection Hi' as <-.
        destruct (Hrules n Hn) as (p' & first & Hp' & Hv & Hsub).
        rewrite Hp in Hp'. injection Hp' as <-. by exists first.
      - by apply IH.
    Qed.

Lemma first_complete ps inf F :
      shape <$> ps = sh → skeleton inf = SK → first_stable ps inf F →
      ∀ N, nullable sh N →
      ∀ i, (N, i) ∈ inf → term (i_symbol i) = false →
           ∃ fs, alist_get N F = Some fs ∧ "" ∈ fs.
    Proof.
      intros Hsh Hsk Hst N Hnull.
      induction Hnull as [N b Hb Ht Hn IH]. intros i Hi Hti.
      destruct (rule_info ps inf N i b Hsh Hsk Hi Hb)
        as (n & p & Hnr & Hpn & Hp & Hbp).
      destruct (Hst N i n p Hi Hti Hnr Hpn) as (first & Hv & Hsub).
      destruct (calculate_first_set_null F (body p) []) as (r & Hr & He).
      { rewrite Hbp. intros s Hs. split; [by apply Ht|].
        destruct (body_info_exists inf N b s Hsk Hb Hs) as (i0 & Hi0 & Ht0).
        apply (IH s Hs i0 Hi0). rewrite Ht0. by apply Ht. }
      unfold vector_first_set in Hv. rewrite Hr in Hv. injection Hv as <-.
      destruct Hsub as [->|(cur & Hcur & Hsub)].
      - by apply elem_of_nil in He.
      - exists cur. split; [done|]. by apply Hsub.
    Qed.

End soundness.

  (** ** The tables of an updated grammar *)

Lemma add_symbol_keys tbl s k :
    k ∈ (add_symbol tbl s).*1 ↔ k ∈ tbl.*1 ∨ k = name s.
  Proof.
    unfold add_symbol. destruct (alist_mem (name s) tbl) eqn:E.
    - split; [by left|]. intros [H| ->]; [done|].
      apply alist_mem_true in E as [v Hv].
      apply alist_get_elem in Hv. apply list_elem_of_fmap. by exists (name s, v).
    - rewrite fmap_app, elem_of_app. simpl. rewrite list_elem_of_singleton. done.
  Qed.

Lemma add_symbol_ok (Q : Symbol → Prop) tbl s :
    Q s → NoDup tbl.*1 → (∀ k s', (k, s') ∈ tbl → name s' = k ∧ Q s') →
    NoDup (add_symbol tbl s).*1 ∧
    (∀ k s', (k, s') ∈ add_symbol tbl s → name s' = k ∧ Q s').
  Proof.
    intros HQ Hnd Hall. unfold add_symbol.
    destruct (alist_mem (name s) tbl) eqn:E; [done|].
    split.
    - rewrite fmap_app. simpl. apply NoDup_app. split; [done|].
      split; [|apply NoDup_singleton].
      intros k Hk Hk'. apply list_elem_of_singleton in Hk' as ->.
      apply alist_get_None in Hk; [done|].
      unfold alist_mem in E. apply bool_decide_eq_false_1 in E.
      destruct (alist_get (name s) tbl); [|done]. exfalso. apply E. by eexists.
    - intros k s' Hin. apply elem_of_app in Hin as [Hin|Hin]; [by apply Hall|].
      apply list_elem_of_singleton in Hin as [= -> ->]. done.
  Qed.

Lemma add_symbols_ok (Q : Symbol → Prop) l : ∀ tbl,
    Forall Q l → NoDup tbl.*1 →
    (∀ k s', (k, s') ∈ tbl → name s' = k ∧ Q s') →
    NoDup (foldl add_symbol tbl l).*1 ∧
    (∀ k s', (k, s') ∈ foldl add_symbol tbl l → name s' = k ∧ Q s') ∧
    (∀ k, k ∈ (foldl add_symbol tbl l).*1 ↔ k ∈ tbl.*1 ∨ k ∈ name <$> l).
  Proof.
    induction l as [|s l IH]; intros tbl HQ Hnd Hall; simpl.
    - split; [done|]. split; [done|]. intros k. split; [by left|].
      intros [H|H]; [done|by apply elem_of_nil in H].
    - apply Forall_cons in HQ as [HQs HQl].
      destruct (add_symbol_ok Q tbl s HQs Hnd Hall) as [Hnd1 Hall1].
      destruct (IH _ HQl Hnd1 Hall1) as (H1 & H2 & H3).
      split; [done|]. split; [done|]. intros k.
      rewrite H3, add_symbol_keys, elem_of_cons. tauto.
  Qed.

Lemma collect_symbols_flat ps :
    collect_symbols ps = foldl add_symbol [] (ps ≫= λ p, head p :: body p).
  Proof.
    unfold collect_symbols. generalize (@nil (string * Symbol)).
    induction ps as [|p ps IH]; intros tbl; [done|].
    simpl. rewrite foldl_app. simpl. apply IH.
  Qed.

Lemma add_rule_lookup ps : ∀ (m : gmap string (list Production)) k,
    default [] (foldl add_rule m ps !! k)
    = default [] (m !! k) ++ filter (λ p, name (head p) = k) ps.
  Proof.
    induction ps as [|p ps IH]; intros m k; simpl.
    - by rewrite app_nil_r.
    - rewrite IH. unfold add_rule at 1. rewrite filter_cons.
      destruct (decide (name (head p) = k)) as [->|Hne].
      + rewrite lookup_insert_eq. simpl. by rewrite <- app_assoc.
      + by rewrite lookup_insert_ne.
  Qed.

Lemma add_empty_rule_lookup tbl : ∀ (m : gmap string (list Production)) k,
    default [] (foldl add_empty_rule m tbl !! k) = default [] (m !! k).
  Proof.
    induction tbl as [|e tbl IH]; intros m k; [done|]. simpl.
    rewrite IH. unfold add_empty_rule.
    destruct (term e.2); [done|].
    destruct (m !! name e.2) eqn:E; [done|].
    destruct (decide (name e.2 = k)) as [<-|Hne].
    - by rewrite lookup_insert_eq, E.
    - by rewrite lookup_insert_ne.
  Qed.

Lemma update_rule_lookup g k :
    default [] (rule (update g) !! k)
    = filter (λ p, name (head p) = k) (production (update g)).
  Proof.
    unfold update. simpl. by rewrite add_empty_rule_lookup, add_rule_lookup.
  Qed.

Lemma update_index g n p :
    production (update g) !! n = Some p → index p = Z.of_nat n.
  Proof.
    unfold update. simpl. rewrite list_lookup_imap.
    destruct (production g !! n); [|done]. by intros [= <-].
  Qed.

Lemma update_tagged g p s :
    p ∈ production (update g) → s = head p ∨ s ∈ body p →
    term s = in_terminal g (name s).
  Proof.
    unfold update. simpl. intros Hp Hs.
    apply list_elem_of_lookup in Hp as [n Hn].
    rewrite list_lookup_imap in Hn.
    destruct (production g !! n) as [p0|]; [|done].
    injection Hn as <-. simpl in Hs. destruct Hs as [->|Hs]; [done|].
    apply list_elem_of_fmap in Hs as (s0 & -> & _). done.
  Qed.

Lemma update_symbol g :
    NoDup (symbol (update g)).*1 ∧
    (∀ k s, (k, s) ∈ symbol (update g) →
       name s = k ∧ term s = in_terminal g (name s)) ∧
    (∀ p s, p ∈ production (update g) → s = head p ∨ s ∈ body p →
       name s ∈ (symbol (update g)).*1).
  Proof.
    assert (symbol (update g) = collect_symbols (production (update g))) as ->
      by done.
    rewrite collect_symbols_flat.
    destruct (add_symbols_ok (λ s, term s = in_terminal g (name s))
                (production (update g) ≫= λ p, head p :: body p) [])
      as (H1 & H2 & H3).
    - apply Forall_forall. intros s Hs.
      apply list_elem_of_bind in Hs as (p & Hs & Hp).
      apply (update_tagged g p s Hp).
      apply elem_of_cons in Hs as [->|Hs]; [by left|by right].
    - constructor.
    - intros k s Hin. by apply elem_of_nil in Hin.
    - split; [done|]. split; [done|]. intros p s Hp Hs.
      apply H3. right. apply list_elem_of_fmap. exists s. split; [done|].
      apply list_elem_of_bind. exists p. split; [|done].
      destruct Hs as [->|Hs]; [left|by right].
  Qed.

Lemma build_info_skeleton g k s rs :
    (k, (s, rs)) ∈ skeleton (build_info g) ↔
    (k, s) ∈ symbol g ∧
    rs = (λ p, Z.to_nat (index p)) <$> default [] (rule g !! k).
  Proof.
    unfold skeleton, build_info. rewrite <- list_fmap_compose. split.
    - intros H. apply list_elem_of_fmap in H as ([k0 s0] & [= -> -> ->] & H).
      done.
    - intros [H ->]. apply list_elem_of_fmap. by exists (k, s).
  Qed.

Lemma update_tables g :
    in_terminal g "" = false →
    tables_ok (shape <$> production (update g))
      (skeleton (build_info (update g))).
  Proof.
    intros Heps.
    destruct (update_symbol g) as (Hnd & Hsym & Hkeys).
    assert (Hsh : ∀ N b, (N, b) ∈ shape <$> production (update g) →
              ∃ p, p ∈ production (update g) ∧ name (head p) = N ∧ body p = b).
    { intros N b H. apply list_elem_of_fmap in H as (p & [= -> ->] & Hp).
      by exists p. }
    split.
    - unfold skeleton, build_info. rewrite <- !list_fmap_compose.
      erewrite list_fmap_ext; [exact Hnd|]. by intros n [k s] _.
    - intros k s rs H. apply build_info_skeleton in H as [H _].
      by apply Hsym.
    - intros k s rs n H. apply build_info_skeleton in H as [_ ->].
      rewrite update_rule_lookup. split.
      + intros Hn. apply list_elem_of_fmap in Hn as (p & -> & Hp).
        apply list_elem_of_filter in Hp as [Hh Hp].
        apply list_elem_of_lookup in Hp as [j Hj].
        rewrite (update_index g j p Hj), Nat2Z.id.
        exists (body p). rewrite list_lookup_fmap, Hj. simpl.
        unfold shape. by rewrite Hh.
      + intros [b Hb]. rewrite list_lookup_fmap in Hb.
        destruct (production (update g) !! n) as [p|] eqn:Hp; [|done].
        injection Hb as Hh Hbd.
        apply list_elem_of_fmap. exists p. split.
        * by rewrite (update_index g n p Hp), Nat2Z.id.
        * apply list_elem_of_filter. split; [done|].
          by eapply list_elem_of_lookup_2.
    - intros N b s Hb Hs. destruct (Hsh N b Hb) as (p & Hp & _ & <-).
      pose proof (Hkeys p s Hp (or_intror Hs)) as Hk.
      apply list_elem_of_fmap in Hk as ([k s'] & Hk & Hin). simpl in Hk. subst k.
      destruct (Hsym _ _ Hin) as [Hn Ht].
      exists s', ((λ p, Z.to_nat (index p)) <$>
                   default [] (rule (update g) !! name s)).
      split; [by apply build_info_skeleton|].
      rewrite Ht, Hn. symmetry. by apply (update_tagged g p s Hp); right.
    - intros N b s Hb Hs Ht Hn. destruct (Hsh N b Hb) as (p & Hp & _ & <-).
      rewrite (update_tagged g p s Hp (or_intror Hs)), Hn in Ht. congruence.
    - intros k s rs H Ht ->. apply build_info_skeleton in H as [H _].
      destruct (Hsym _ _ H) as [Hn Ht']. rewrite Ht', Hn in Ht. congruence.
  Qed.

Lemma update_fresh g : fresh g → fresh (update g).
  Proof.
    intros H p Hp. unfold update in Hp. simpl in Hp.
    apply list_elem_of_lookup in Hp as [n Hn].
    rewrite list_lookup_imap in Hn.
    destruct (production g !! n) as [p0|] eqn:E; [|done].
    injection Hn as <-. simpl. apply H. by eapply list_elem_of_lookup_2.
  Qed.

Lemma init_first_inv sh g :
    (∀ k s, (k, s) ∈ symbol g → term s = true → k ≠ "") →
    first_inv sh (init_first g).
  Proof.
    intros Hsym N fs. unfold init_first.
    destruct (decide ("#" = N)) as [<-|H1].
    { rewrite alist_get_set_eq. intros [= <-] H.
      apply list_elem_of_singleton in H. done. }
    rewrite alist_get_set_ne by done.
    destruct (decide ("$" = N)) as [<-|H2].
    { rewrite alist_get_set_eq. intros [= <-] H.
      apply list_elem_of_singleton in H. done. }
    rewrite alist_get_set_ne by done.
    intros Hget He. exfalso.
    apply alist_get_elem in Hget.
    apply list_elem_of_fmap in Hget as ([k s] & [= -> ->] & Hin). simpl in He.
    destruct (term s) eqn:Et; [|by apply elem_of_nil in He].
    apply list_elem_of_singleton in He. by apply (Hsym k s Hin Et).
  Qed.

  (** ** The analysis of an updated grammar *)

Lemma analyze_update fuel g az :
    fresh g → in_terminal g "" = false →
    analyze fuel (update g) = Done az →
    ∃ sh SK,
      tables_ok sh SK ∧
      eps_inv sh SK (production (ga_g az)) (info az) ∧
      eps_stable (production (ga_g az)) (info az) ∧
      first_inv sh (FIRST az) ∧
      first_stable (production (ga_g az)) (info az) (FIRST az).
  Proof.
    intros Hfresh Heps. unfold analyze, update_epsilon.
    pose proof (update_tables g Heps) as Htbl.
    set (sh := shape <$> production (update g)) in *.
    set (SK := skeleton (build_info (update g))) in *.
    assert (Hpre : eps_pre sh SK (production (update g)) (build_info (update g))).
    { split; [done|]. split; [done|]. split.
      - intros p Hp. destruct (update_fresh g Hfresh p Hp) as [-> ->].
        by repeat split.
      - intros k i Hi _. unfold build_info in Hi.
        apply list_elem_of_fmap in Hi as (e & [= -> ->] & _). simpl.
        by repeat split. }
    pose proof (init_info_inv sh SK Htbl _ _ Hpre) as Hinv0.
    destruct (epsilon_loop fuel (production (update g)) _)
      as [[ps inf]|e|] eqn:Eloop; [|done|done].
    destruct (epsilon_loop_inv sh SK Htbl fuel _ _ ps inf Hinv0 Eloop)
      as [Hinv Hstable].
    pose proof Hinv as (Hsh & Hsk & _ & _).
    assert (HF0 : first_inv sh (init_first (update g))).
    { apply init_first_inv. intros k s Hin Ht.
      destruct (update_symbol g) as (_ & Hsym & _).
      destruct (Hsym k s Hin) as [Hn Ht']. intros ->.
      rewrite Ht', Hn in Ht. congruence. }
    destruct (first_loop fuel ps inf (init_first (update g)))
      as [F|e|] eqn:Efirst; [|done|done].
    destruct (first_loop_inv sh SK Htbl fuel ps inf _ F Hsh Hsk HF0 Efirst)
      as [HF Hfs].
    intros [= <-]. simpl. by exists sh, SK.
  Qed.

Lemma analyze_first_epsilon fuel g az N i :
    fresh g → in_terminal g "" = false →
    analyze fuel (update g) = Done az →
    alist_get N (info az) = Some i → term (i_symbol i) = false →
    "" ∈ first_of az N ↔ i_has_epsilon i = Some true.
  Proof.
    intros Hfresh Heps Han Hi Ht.
    destruct (analyze_update fuel g az Hfresh Heps Han)
      as (sh & SK & Htbl & Hinv & Hst & HF & HFs).
    set (ps := production (ga_g az)) in *.
    pose proof Hinv as (Hsh & Hsk & Hps & Hinf).
    apply alist_get_elem in Hi. unfold first_of. split.
    - intros He.
      destruct (alist_get N (FIRST az)) as [fs|] eqn:EF;
        [|by apply elem_of_nil in He]. simpl in He.
      apply (eps_complete sh SK Htbl ps (info az) Hinv Hst N); try done.
      by apply (HF N fs).
    - intros Hhas.
      destruct (Hinf N i Hi Ht) as [(_ & H2 & _) _].
      destruct (first_complete sh SK Htbl ps (info az) (FIRST az) Hsh Hsk HFs
                  N (H2 Hhas) i Hi Ht) as (fs & -> & He).
      done.
  Qed.

  (** ** The grammar the analysis starts from *)

Lemma lift_body_children (P : Production → Prop) a pp syms :
    (∀ h sp acts, P (Lifting.marker_rule h sp acts pp)) →
    ∀ pos body children nid body' children' nid',
    Lifting.lift_body a pp pos syms body children nid = (body', children', nid') →
    Forall P children → Forall P children'.
  Proof.
    intros Hm. induction syms as [|s syms IH];
      intros pos body children nid b' c' n' H Hc.
    - simpl in H. by injection H as <- <- <-.
    - simpl in H. destruct (alist_mem pos a); eapply IH in H; try done.
      apply Forall_app. split; [done|]. by repeat constructor.
  Qed.

Lemma step_fresh st rule :
    Forall (λ p, is_epsilon p = None ∧ has_epsilon p = None) (Lifting.st_rules st) →
    is_epsilon rule = None ∧ has_epsilon rule = None →
    Forall (λ p, is_epsilon p = None ∧ has_epsilon p = None)
      (Lifting.st_rules (Lifting.step st rule)).
  Proof.
    intros Hst Hr. unfold Lifting.step.
    destruct (Lifting.has_mid_action rule).
    - unfold Lifting.lift_rule.
      destruct (Lifting.lift_body _ _ _ _ _ _ _) as [[b c] n] eqn:E. simpl.
      apply Forall_app. split; [done|]. constructor; [done|].
      apply (lift_body_children
               (λ p, is_epsilon p = None ∧ has_epsilon p = None) _ _ _
               (λ _ _ _, conj eq_refl eq_refl) _ _ _ _ _ _ _ E).
      constructor.
    - simpl. apply Forall_app. split; [done|]. by constructor.
  Qed.

Lemma lift_rules_fresh g :
    fresh g →
    Forall (λ p, is_epsilon p = None ∧ has_epsilon p = None)
      (Lifting.st_rules (Lifting.lift_rules g)).
  Proof.
    intros Hg. unfold Lifting.lift_rules.
    assert (Forall (λ p, is_epsilon p = None ∧ has_epsilon p = None)
              (production g)) as Hps by (by apply Forall_forall).
    revert Hps. generalize (production g) as ps.
    assert (Forall (λ p, is_epsilon p = None ∧ has_epsilon p = None)
              (Lifting.st_rules {| Lifting.st_rules := []; Lifting.st_anchors := [];
                                   Lifting.st_name_id := 1; Lifting.st_g := g |}))
      as H0 by constructor.
    revert H0. generalize ({| Lifting.st_rules := []; Lifting.st_anchors := [];
                              Lifting.st_name_id := 1; Lifting.st_g := g |}).
    intros st Hst ps. revert st Hst.
    induction ps as [|p ps IH]; intros st Hst Hps; [done|].
    apply Forall_cons in Hps as [Hp Hps]. simpl.
    apply IH; [|done]. by apply step_fresh.
  Qed.

Lemma install_fresh l : ∀ g,
    Forall (λ p, is_epsilon p = None ∧ has_epsilon p = None) (production g) →
    Forall (λ e : Production * (option string * option Z),
              is_epsilon e.1 = None ∧ has_epsilon e.1 = None) l →
    Forall (λ p, is_epsilon p = None ∧ has_epsilon p = None)
      (production (foldl Lifting.install g l)).
  Proof.
    induction l as [|e l IH]; intros g Hg Hl; [done|].
    apply Forall_cons in Hl as [He Hl]. simpl. apply IH; [|done].
    simpl. apply Forall_app. split; [done|]. by constructor.
  Qed.

Lemma lifting_is_update g :
    ∃ gl, Lifting.__argument_semantic_action g = update gl ∧
          terminal gl = terminal g ∧ (fresh g → fresh gl).
  Proof.
    eexists. split; [reflexivity|]. split.
    - destruct (install_terminal
                  (zip (Lifting.st_rules (Lifting.lift_rules g))
                     (Lifting.st_anchors (Lifting.lift_rules g)))
                  (Lifting.clear_production (Lifting.st_g (Lifting.lift_rules g))))
        as [-> _]. simpl.
      unfold Lifting.lift_rules.
      destruct (foldl_step_rules (production g)
                  {| Lifting.st_rules := []; Lifting.st_anchors := [];
                     Lifting.st_name_id := 1; Lifting.st_g := g |})
        as (_ & _ & _ & _ & _ & T & _).
      exact T.
    - intros Hg p Hp. revert p Hp. apply Forall_forall.
      apply install_fresh; [constructor|].
      pose proof (lift_rules_fresh g Hg) as Hr.
      apply Forall_forall. intros [r an] Hin. simpl.
      apply elem_of_zip_l in Hin.
      by apply (proj1 (Forall_forall _ _) Hr).
  Qed.


End analysis.

